(** * galdr: the schema-driven command-line parser

    A shallow embedding of [src/lib/parser.ts] (the [CommandLineParser]
    class) and of its later functional draft (the file with
    [createParserContext], [parseResults] and [getCompletionSuggestions]),
    together with the schema types of [command-definition].

    Conventions of the embedding.
    - JavaScript strings are Rocq strings; a character stands for one
      UTF-16 code unit outside the surrogate range, so that iterating a
      string with [for ... of] and indexing it with [substr] agree.
    - A [Record<string, V>] is the list of its entries in the order in which
      [Object.entries] enumerates them; [Map<string, V>] is a [gmap].
    - The closure variable [idx] of [createParserContext] and the
      [ParserState] object live in one context record that every operation
      receives and returns; the [argIdx] captured by a step's [putBack] is an
      explicit argument.
    - [throw] and the two [while] loops are rendered by the [Outcome] monad:
      a computation is [Done], has [Thrown] an error, or is [OutOfFuel].
    - For what persists from one invocation to the next, the same code is
      also read with its environments in a heap ([Heap]): a context is a
      reference, and every closure reads and assigns through it.
    - The definitions follow the functional draft, which is the class of
      [parser.ts] method for method ([parseCommandLine] is [parse]) with the
      set of known option names and the completion engine added. *)

From Stdlib Require Import String Ascii List Arith Lia Bool.
From stdpp Require Import base option list gmap strings.
Import ListNotations.
Open Scope string_scope.
Open Scope list_scope.
Open Scope nat_scope.

Set Warnings "-register-all".

(** ** JavaScript string methods used by the parser *)

Module JsString.

(** [s.startsWith(p)] *)
Definition startsWith (s p : string) : bool := String.prefix p s.

(** [s.substr(start)], for a start inside the string or at its end;
    a start of [-1] on the empty string is clamped to [0], which the
    truncated subtraction of the callers produces as well. *)
Definition substr_from (s : string) (start : nat) : string :=
  substring start (String.length s - start) s.

(** [s.substr(start, len)] *)
Definition substr (s : string) (start len : nat) : string :=
  substring start len s.

(** [s.split(sep)] for a one-character separator.  The array it returns
    is never empty: it is given as its first piece and the other pieces,
    the shape in which [const [x, ...rest] = s.split(sep)] reads it. *)
Fixpoint split (sep : ascii) (s : string) : string * list string :=
  match s with
  | EmptyString => (EmptyString, [])
  | String c r =>
      let (p, ps) := split sep r in
      if Ascii.eqb c sep then (EmptyString, p :: ps) else (String c p, ps)
  end.

(** [pieces.join(sep)] *)
Definition join (sep : string) (pieces : list string) : string :=
  String.concat sep pieces.

(** [name.replace(/^no-/, "")] *)
Definition replace_no (name : string) : string :=
  if startsWith name "no-" then substr_from name 3 else name.

(** The strings that [for (const ch of s)] yields. *)
Definition chars (s : string) : list string :=
  map (fun c => String c EmptyString) (list_ascii_of_string s).

End JsString.

(** ** Schema types ([command-definition]) *)

Module OptionType.
Inductive t : Set :=
  file | files | dir | dirs | string | strings | numbers | number | flag | count.
End OptionType.

Module PositionalType.
Inductive t : Set :=
  file | files | dir | dirs | string | strings | numbers | number.
End PositionalType.

#[global] Instance OptionType_eq_dec : EqDecision OptionType.t.
Proof. solve_decision. Defined.

(** [CommandPositional]: the parser never reads it. *)
Record CommandPositional : Set := {
  names : list string;
  positionalType : PositionalType.t
}.

(** [CommandOption].  The fields [required], [default], [description],
    [choices], [coerce], [hidden] and [conflicts] are never read by the
    parser and are left out; an absent [aliases] is the empty list
    ([opt.aliases || []]). *)
Record CommandOption : Set := {
  type : OptionType.t;
  aliases : list string
}.

(** [Command].  An absent [options] or [subCommands] is the empty record
    ([cmd.options || {}]). *)
Inductive Command : Set := mkCommand {
  positionals : list CommandPositional;
  options : list (string * CommandOption);
  subCommands : list (string * Command)
}.

(** [obj[key]] on a record given by its entries. *)
Fixpoint getProperty {V : Type} (obj : list (string * V)) (key : string) : option V :=
  match obj with
  | [] => None
  | (k, v) :: rest => if String.eqb k key then Some v else getProperty rest key
  end.

(** [Object.hasOwnProperty.call(obj, propName)] *)
Definition hasOwnProperty {V : Type} (obj : list (string * V)) (propName : string) : bool :=
  match getProperty obj propName with Some _ => true | None => false end.

(** [Object.keys(obj)] *)
Definition keys {V : Type} (obj : list (string * V)) : list string := map fst obj.

(** ** Parsed arguments *)

Inductive Arg : Set :=
| CommandArg (name : string)
| PositionalArg (value : string)
| OptionArg (name value : string)
| FlagArg (name : string) (value : bool).

Definition commandArg (name : string) : Arg := CommandArg name.
Definition positionalArg (value : string) : Arg := PositionalArg value.
Definition optionArg (name value : string) : Arg := OptionArg name value.
Definition flagArg (name : string) : Arg :=
  FlagArg (JsString.replace_no name) (negb (JsString.startsWith name "no-")).

Definition isFlagTypeOption (opt : CommandOption) : bool :=
  bool_decide (type opt = OptionType.flag) || bool_decide (type opt = OptionType.count).

(** [NamedOption]: [{ name, ...opt }] *)
Record NamedOption : Set := {
  name : string;
  def : CommandOption
}.

(** ** The long-option table ([StringTree] of the package stringtree-js) *)

Module StringTree.

(** Modelled from the spec: the package stringtree-js is not among the
    sources.  The table is given by the entries it holds, one per key. *)
Abbreviation t := (gmap string) (only parsing).

(** Modelled from the spec: [new StringTree()], the table without entries. *)
Definition empty {V : Type} : t V := ∅.

(** Modelled from the spec: [tree.set(key, value)] stores the entry,
    replacing the one the key had. *)
Definition set {V : Type} (tree : t V) (key : string) (value : V) : t V :=
  <[key := value]> tree.

(** Modelled from the spec: [tree.prefix(p)], the entries whose key starts
    with [p]. *)
Definition prefix {V : Type} (tree : t V) (p : string) : list (string * V) :=
  map_to_list (filter (fun kv => String.prefix p kv.1 = true) tree).

(** Modelled from the spec: the package stringtree-js, whose [get] the
    parser calls, is not among the sources.  The specification says of the
    long-option table that it "supports retrieval by exact key and by
    unambiguous unique prefix": an entry stored under the key itself is
    returned; failing that, the entry of the only key that starts with
    the given string; [null] (here [None]) when no key or several keys
    start with it. *)
Definition get {V : Type} (tree : t V) (key : string) : option V :=
  match tree !! key with
  | Some v => Some v
  | None =>
      match prefix tree key with
      | [(_, v)] => Some v
      | _ => None
      end
  end.

End StringTree.

(** ** Errors and outcomes *)

(** The parser throws plain [Error]s; they are told apart by their
    messages.  [ConflictingOptionDefinition alias existing new] is
    "Option <alias> has conflicting definitions with types <existing> and
    <new>"; [CursorUnderflow] is "Internal Error: parser tried to put back
    more args than it consumed"; [TypeError] is the engine's error for
    reading a property of [undefined] or [null], [ReferenceError] its error
    for evaluating an identifier that no declaration in scope binds. *)
Inductive Error : Set :=
| ConflictingOptionDefinition (alias : string) (existing new : OptionType.t)
| CursorUnderflow
| TypeError
| ReferenceError.

Inductive Outcome (A : Type) : Type :=
| Done (a : A)
| Thrown (e : Error)
| OutOfFuel.

Arguments Done {A} a.
Arguments Thrown {A} e.
Arguments OutOfFuel {A}.

#[global] Instance Outcome_bind : MBind Outcome := fun A B k m =>
  match m with
  | Done a => k a
  | Thrown e => Thrown e
  | OutOfFuel => OutOfFuel
  end.

#[global] Instance Outcome_ret : MRet Outcome := fun A a => Done a.

(** A [for ... of] loop whose body may throw. *)
Fixpoint forEach {A S : Type} (body : S -> A -> Outcome S) (l : list A) (s : S) : Outcome S :=
  match l with
  | [] => Done s
  | a :: rest => s' ← body s a; forEach body rest s'
  end.

(** ** Parser state and the schema registry *)

(** [ParserState].  [knownOptionNames] is a [Set<string>]: it keeps the
    order of first insertion, which [getAllOptionNames] exposes. *)
Record ParserState : Type := {
  knownOptionNames : list string;
  longOptions : StringTree.t NamedOption;
  shortOptions : gmap string NamedOption;
  topCommand : Command;
  parsed : list Arg
}.

(** [set.add(x)] on an insertion-ordered set. *)
Definition setAdd (s : list string) (x : string) : list string :=
  if bool_decide (x ∈ s) then s else s ++ [x].

(** The [aliases] array of [addKnownOptionToState] when its loop starts. *)
Definition expandAliases (name : string) (opt : CommandOption) : list string :=
  let base := name :: aliases opt in
  if isFlagTypeOption opt
  then base ++ map (fun a => "no-" +:+ a) (filter (fun a => (1 < String.length a)%nat) base)
  else base.

(** The body of the loop [for (const alias of aliases)]. *)
Definition registerAlias (opt : CommandOption) (namedOpt : NamedOption)
    (state : ParserState) (alias : string) : Outcome ParserState :=
  if Nat.eqb (String.length alias) 1 then
    Done {| knownOptionNames := knownOptionNames state;
            longOptions := longOptions state;
            shortOptions := <[alias := namedOpt]> (shortOptions state);
            topCommand := topCommand state;
            parsed := parsed state |}
  else
    let stored :=
      {| knownOptionNames := knownOptionNames state;
         longOptions := StringTree.set (longOptions state) alias namedOpt;
         shortOptions := shortOptions state;
         topCommand := topCommand state;
         parsed := parsed state |} in
    match StringTree.get (longOptions state) alias with
    | Some existing =>
        if bool_decide (type (def existing) ≠ type opt)
        then Thrown (ConflictingOptionDefinition alias (type (def existing)) (type opt))
        else Done stored
    | None => Done stored
    end.

Definition addKnownOptionToState (state : ParserState) (name : string)
    (opt : CommandOption) : Outcome ParserState :=
  let namedOpt := {| name := name; def := opt |} in
  let state1 :=
    {| knownOptionNames := setAdd (knownOptionNames state) name;
       longOptions := longOptions state;
       shortOptions := shortOptions state;
       topCommand := topCommand state;
       parsed := parsed state |} in
  forEach (registerAlias opt namedOpt) (expandAliases name opt) state1.

(** Define a command that this parser knows about. *)
Fixpoint addKnownCommandToState (cmd : Command) (state : ParserState) : Outcome ParserState :=
  state1 ← forEach (fun st entry => addKnownOptionToState st entry.1 entry.2)
                    (options cmd) state;
  (fix subs (l : list (string * Command)) (st : ParserState) : Outcome ParserState :=
     match l with
     | [] => Done st
     | (_, sub) :: rest => st' ← addKnownCommandToState sub st; subs rest st'
     end) (subCommands cmd) state1.

(** ** The parser context ([createParserContext]) *)

(** What the closures returned by [createParserContext] share: the
    [ParserState] object, the argument array and the cursor [idx]. *)
Record ParserContext : Type := {
  state : ParserState;
  args : list string;
  idx : nat
}.

Definition withState (ctx : ParserContext) (st : ParserState) : ParserContext :=
  {| state := st; args := args ctx; idx := idx ctx |}.

Definition withIdx (ctx : ParserContext) (i : nat) : ParserContext :=
  {| state := state ctx; args := args ctx; idx := i |}.

Definition emptyState (cmd : Command) : ParserState :=
  {| knownOptionNames := [];
     longOptions := StringTree.empty;
     shortOptions := ∅;
     topCommand := cmd;
     parsed := [] |}.

Definition createParserContext (cmd : Command) (args : list string) : Outcome ParserContext :=
  st ← addKnownCommandToState cmd (emptyState cmd);
  Done {| state := st; args := args; idx := 0 |}.

Definition hasNext (ctx : ParserContext) : bool :=
  idx ctx <? length (args ctx).

(** [args[idx]] is [undefined] past the end of the array; every call below
    is guarded by [hasNext], so the default is never read (lemma
    [getNext_in_range]). *)
Definition getNext (ctx : ParserContext) : string * ParserContext :=
  (nth (idx ctx) (args ctx) EmptyString, withIdx ctx (S (idx ctx))).

Definition putBack (argIdx : nat) (ctx : ParserContext) : Outcome ParserContext :=
  if argIdx <? idx ctx
  then Done (withIdx ctx (idx ctx - 1))
  else Thrown CursorUnderflow.

Definition pushParsed (arg : Arg) (ctx : ParserContext) : ParserContext :=
  withState ctx
    {| knownOptionNames := knownOptionNames (state ctx);
       longOptions := longOptions (state ctx);
       shortOptions := shortOptions (state ctx);
       topCommand := topCommand (state ctx);
       parsed := parsed (state ctx) ++ [arg] |}.

(** [push.command]: [state.topCommand.subCommands[name]] is only read for a
    name that [hasSubCommand] accepted; for any other name the model keeps
    the active command. *)
Definition push_command (name : string) (ctx : ParserContext) : ParserContext :=
  let ctx1 := pushParsed (CommandArg name) ctx in
  withState ctx1
    {| knownOptionNames := knownOptionNames (state ctx1);
       longOptions := longOptions (state ctx1);
       shortOptions := shortOptions (state ctx1);
       topCommand := default (topCommand (state ctx1))
                       (getProperty (subCommands (topCommand (state ctx1))) name);
       parsed := parsed (state ctx1) |}.

Definition push_positional (value : string) (ctx : ParserContext) : ParserContext :=
  pushParsed (PositionalArg value) ctx.

Definition push_option (name value : string) (ctx : ParserContext) : ParserContext :=
  pushParsed (OptionArg name value) ctx.

Definition push_flag (name : string) (ctx : ParserContext) : ParserContext :=
  pushParsed (FlagArg (JsString.replace_no name) (negb (JsString.startsWith name "no-"))) ctx.

Definition getTopCommand (ctx : ParserContext) : Command := topCommand (state ctx).
Definition getResults (ctx : ParserContext) : list Arg := parsed (state ctx).
Definition getAllOptionNames (ctx : ParserContext) : list string := knownOptionNames (state ctx).

Definition getLongOption (ctx : ParserContext) (opt : string) : option NamedOption :=
  StringTree.get (longOptions (state ctx)) opt.

Definition getShortOption (ctx : ParserContext) (opt : string) : option NamedOption :=
  shortOptions (state ctx) !! opt.

Definition getOption (ctx : ParserContext) (name : string) : option NamedOption :=
  if Nat.eqb (String.length name) 1 then getShortOption ctx name else getLongOption ctx name.

Definition hasSubCommand (ctx : ParserContext) (name : string) : bool :=
  hasOwnProperty (subCommands (topCommand (state ctx))) name.

(** [context.next()]: the token, the [argIdx] its [putBack] captures, and
    the context after [getNext]. *)
Definition next (ctx : ParserContext) : string * nat * ParserContext :=
  let argIdx := idx ctx in
  let (arg, ctx1) := getNext ctx in
  (arg, argIdx, ctx1).

(** ** Classification and option resolution *)

Definition parseOptionWithPossibleParameter (name : string) (opt : option NamedOption)
    (argIdx : nat) (ctx : ParserContext) : Outcome ParserContext :=
  if hasNext ctx then
    let (maybeParam, ctx1) := getNext ctx in
    match opt with
    | Some o =>
        if isFlagTypeOption (def o) then
          ctx2 ← putBack argIdx ctx1; Done (push_flag name ctx2)
        else
          Done (push_option name maybeParam ctx1)
    | None =>
        if JsString.startsWith maybeParam "-" then
          ctx2 ← putBack argIdx ctx1; Done (push_flag name ctx2)
        else
          Done (push_option name maybeParam ctx1)
    end
  else
    Done (push_flag name ctx).

Fixpoint parseBreakOutArg (fuel : nat) (ctx : ParserContext) : Outcome ParserContext :=
  if hasNext ctx then
    match fuel with
    | O => OutOfFuel
    | S fuel' =>
        let (value, ctx1) := getNext ctx in
        parseBreakOutArg fuel' (push_positional value ctx1)
    end
  else Done ctx.

Definition parseSubCommand (arg : string) (ctx : ParserContext) : ParserContext :=
  push_command arg ctx.

Definition parsePositionalArg (arg : string) (ctx : ParserContext) : ParserContext :=
  push_positional arg ctx.

Definition parseShortOptionArg (arg : string) (argIdx : nat) (ctx : ParserContext)
    : Outcome ParserContext :=
  let bareArgs := JsString.substr_from arg 1 in
  let (allNames, eqOther) := JsString.split "=" bareArgs in
  let lastName := JsString.substr_from allNames (String.length allNames - 1) in
  let firstNames := JsString.substr allNames 0 (String.length allNames - 1) in
  let ctx1 := fold_left (fun c shortOpt => push_flag shortOpt c) (JsString.chars firstNames) ctx in
  match eqOther with
  | _ :: _ => Done (push_option lastName (JsString.join "=" eqOther) ctx1)
  | [] => parseOptionWithPossibleParameter lastName (getShortOption ctx1 lastName) argIdx ctx1
  end.

Definition parseLongOptionArg (arg : string) (argIdx : nat) (ctx : ParserContext)
    : Outcome ParserContext :=
  let bareArg := JsString.substr_from arg 2 in
  let (name, eqOther) := JsString.split "=" bareArg in
  match eqOther with
  | _ :: _ => Done (push_option name (JsString.join "=" eqOther) ctx)
  | [] => parseOptionWithPossibleParameter name (getLongOption ctx name) argIdx ctx
  end.

Definition parseArg (fuel : nat) (arg : string) (argIdx : nat) (ctx : ParserContext)
    : Outcome ParserContext :=
  if String.eqb arg "--" then parseBreakOutArg fuel ctx
  else if String.eqb arg "-" then Done (parsePositionalArg arg ctx)
  else if JsString.startsWith arg "--" then parseLongOptionArg arg argIdx ctx
  else if JsString.startsWith arg "-" then parseShortOptionArg arg argIdx ctx
  else if hasSubCommand ctx arg then Done (parseSubCommand arg ctx)
  else Done (parsePositionalArg arg ctx).

(** One iteration of the loop of [parseResults]. *)
Definition parseStep (fuel : nat) (ctx : ParserContext) : Outcome ParserContext :=
  let '(arg, argIdx, ctx1) := next ctx in
  parseArg fuel arg argIdx ctx1.

(** [while (context.hasNext()) { ... }] *)
Fixpoint parseLoop (fuel : nat) (ctx : ParserContext) : Outcome ParserContext :=
  if hasNext ctx then
    match fuel with
    | O => OutOfFuel
    | S fuel' => ctx' ← parseStep fuel' ctx; parseLoop fuel' ctx'
    end
  else Done ctx.

(** [parseResults].  The loops are given one unit of fuel per token; that
    this is always enough, and that more fuel changes nothing, is proved
    below ([parseLoop_terminates], [parseLoop_fuel]). *)
Definition parseResults (cmd : Command) (args : list string) : Outcome ParserContext :=
  context ← createParserContext cmd args;
  parseLoop (length args) context.

Definition parse (cmd : Command) (args : list string) : Outcome (list Arg) :=
  context ← parseResults cmd args;
  Done (getResults context).

(** ** Completion suggestions *)

Record CompletionSuggestions : Set := {
  words : list string;
  files : bool
}.

Definition isOptionArg (arg : Arg) : bool :=
  match arg with OptionArg _ _ => true | _ => false end.

Definition isSingularOpt (cmd : CommandOption) : bool :=
  match type cmd with
  | OptionType.dirs | OptionType.files | OptionType.numbers | OptionType.strings => false
  | _ => true
  end.

(** Reading [.type] of the [undefined] that a failed lookup returns throws. *)
Definition typeOf (o : option NamedOption) : Outcome CommandOption :=
  match o with
  | Some n => Done (def n)
  | None => Thrown TypeError
  end.

(** Return the type of parameter expected next, or null if no parameter is
    expected. *)
Definition getExpectedParameterType (args : list string) (context : ParserContext)
    : Outcome (option OptionType.t) :=
  let results := getResults context in
  if negb (bool_decide (last args = Some EmptyString)) then Done None
  else
    match last results with
    | None => Thrown TypeError
    | Some lastParsed =>
        match lastParsed with
        | OptionArg tailName _ =>
            tailOpt ← typeOf (getOption context tailName);
            if isFlagTypeOption tailOpt then Done None else Done (Some (type tailOpt))
        | _ => Done None
        end
    end.

Definition argName (arg : Arg) : string :=
  match arg with
  | CommandArg n | OptionArg n _ | FlagArg n _ => n
  | PositionalArg _ => EmptyString
  end.

(** [optionsPassed.filter(isSingularOpt).map(opt => opt.name)]; the filter
    reads [.type] of every element and throws on the [undefined] of a failed
    lookup. *)
Fixpoint singularNames (optionsPassed : list (option NamedOption)) : Outcome (list string) :=
  match optionsPassed with
  | [] => Done []
  | None :: _ => Thrown TypeError
  | Some opt :: rest =>
      names ← singularNames rest;
      Done (if isSingularOpt (def opt) then name opt :: names else names)
  end.

Definition getOptionsNotUsed (context : ParserContext) : Outcome (list string) :=
  let parsed := getResults context in
  let optionArgsPassed := List.filter isOptionArg parsed in
  let optionsPassed :=
    map (fun n => if Nat.eqb (String.length n) 1
                  then getShortOption context n
                  else getLongOption context n)
        (map argName optionArgsPassed) in
  optionNamesConsumed ← singularNames optionsPassed;
  Done (List.filter (fun optName => negb (bool_decide (optName ∈ optionNamesConsumed)))
                    (getAllOptionNames context)).

(** The statements of [getCompletionSuggestions] down to the first property
    of the object literal it returns: the value of
    [[...optionsNotUsed, ...commands]]. *)
Definition completionWords (cmd : Command) (args : list string) : Outcome (list string) :=
  context ← parseResults cmd (drop 1 args);
  optionsNotUsed ← getOptionsNotUsed context;
  let topCommand := getTopCommand context in
  let commands := keys (subCommands topCommand) in
  expectedParamType ← getExpectedParameterType args context;
  Done (optionsNotUsed ++ commands).

(** The identifier [lookingForFiles].  Its only declaration, inside
    [getCompletionSuggestions], is commented out, and nothing else in the
    sources binds it: evaluating it throws. *)
Definition lookingForFiles : Outcome bool := Thrown ReferenceError.

(** [getCompletionSuggestions]: the object literal evaluates [words], then
    [files]. *)
Definition getCompletionSuggestions (cmd : Command) (args : list string)
    : Outcome CompletionSuggestions :=
  words ← completionWords cmd args;
  files ← lookingForFiles;
  Done {| words := words; files := files |}.

(** ** Predicates used by the statements *)

(** The part of a context that parsing never changes: the argument array
    and the tables built from the schema. *)
Definition sameRegistry (c c' : ParserContext) : Prop :=
  args c' = args c ∧
  longOptions (state c') = longOptions (state c) ∧
  shortOptions (state c') = shortOptions (state c) ∧
  knownOptionNames (state c') = knownOptionNames (state c).

(** [appendParsed evs ctx]: the context after the events [evs] were pushed. *)
Definition appendParsed (evs : list Arg) (ctx : ParserContext) : ParserContext :=
  withState ctx
    {| knownOptionNames := knownOptionNames (state ctx);
       longOptions := longOptions (state ctx);
       shortOptions := shortOptions (state ctx);
       topCommand := topCommand (state ctx);
       parsed := parsed (state ctx) ++ evs |}.

(** [n] calls of [putBack] in a row within the step that began at [argIdx]. *)
Fixpoint putBackTimes (n : nat) (argIdx : nat) (ctx : ParserContext) : Outcome ParserContext :=
  match n with
  | O => Done ctx
  | S n' => ctx' ← putBack argIdx ctx; putBackTimes n' argIdx ctx'
  end.

(** The contexts at which the loop of [parseResults] starts an iteration,
    from the context [c0] on. *)
Inductive reaches (c0 : ParserContext) : ParserContext -> Prop :=
| reaches_start : reaches c0 c0
| reaches_step c c' :
    reaches c0 c -> hasNext c = true ->
    parseStep (length (args c)) c = Done c' -> reaches c0 c'.

(** The decision of [parseOptionWithPossibleParameter], once a following
    token [maybeParam] exists: a known option takes it unless it is
    flag-like, an unknown one takes it unless it starts with a dash. *)
Definition consumesParameter (opt : option NamedOption) (maybeParam : string) : bool :=
  match opt with
  | Some o => negb (isFlagTypeOption (def o))
  | None => negb (JsString.startsWith maybeParam "-")
  end.

(** What one step leaves alone and how far it moves the cursor. *)
Definition stepsTo (lo : nat) (c c' : ParserContext) : Prop :=
  sameRegistry c c' /\ lo <= idx c' /\ idx c' <= length (args c) /\
  exists evs, parsed (state c') = parsed (state c) ++ evs.

(** Every option declared in the tree of [cmd], in the order in which
    [addKnownCommandToState] visits them. *)
Fixpoint allOptions (cmd : Command) : list (string * CommandOption) :=
  options cmd ++
  (fix subs (l : list (string * Command)) : list (string * CommandOption) :=
     match l with
     | [] => []
     | (_, sub) :: rest => allOptions sub ++ subs rest
     end) (subCommands cmd).

(** [s.includes(c)] for a character [c]. *)
Fixpoint contains (c : ascii) (s : string) : bool :=
  match s with
  | EmptyString => false
  | String a r => Ascii.eqb a c || contains c r
  end.

(** The flag event of a short option given by its character. *)
Definition shortFlag (c : ascii) : Arg := FlagArg (String c EmptyString) true.

(** Every entry of the long-option table of [st] is still there in [st'],
    with a definition of the same kind. *)
Definition typesKept (st st' : ParserState) : Prop :=
  forall k n, longOptions st !! k = Some n ->
    exists n', longOptions st' !! k = Some n' /\ type (def n') = type (def n).

(** The long-option table of [st] holds, under the alias [a], a definition
    of the kind of [opt]. *)
Definition registeredLong (st : ParserState) (a : string) (opt : CommandOption) : Prop :=
  exists n, longOptions st !! a = Some n /\ type (def n) = type opt.

(** The primary name [n] is consumed: some option event of the parse
    resolves, by the name it carries, to a definition that is not plural and
    whose primary name is [n]. *)
Definition consumedByOptionEvent (ctx : ParserContext) (n : string) : Prop :=
  exists typed v o,
    In (OptionArg typed v) (getResults ctx) /\
    getOption ctx typed = Some o /\ isSingularOpt (def o) = true /\ name o = n.

(** [prependParsed pre ctx]: the context [ctx] with the events [pre] in
    front of its output sequence, as if they had been there before. *)
Definition prependParsed (pre : list Arg) (ctx : ParserContext) : ParserContext :=
  withState ctx
    {| knownOptionNames := knownOptionNames (state ctx);
       longOptions := longOptions (state ctx);
       shortOptions := shortOptions (state ctx);
       topCommand := topCommand (state ctx);
       parsed := pre ++ parsed (state ctx) |}.

(** The events of tokens that are a lone dash or do not start with a
    dash, read against the active command [top]: a name of one of its
    sub-commands is a command event and makes that sub-command the active
    one, anything else is a positional. *)
Fixpoint plainEvents (top : Command) (toks : list string) : list Arg :=
  match toks with
  | [] => []
  | tok :: rest =>
      if String.eqb tok "-" then PositionalArg tok :: plainEvents top rest
      else match getProperty (subCommands top) tok with
           | Some sub => CommandArg tok :: plainEvents sub rest
           | None => PositionalArg tok :: plainEvents top rest
           end
  end.

(** A token that the classifier reads as a positional or a command name. *)
Definition plainToken (tok : string) : Prop :=
  tok = "-" \/ JsString.startsWith tok "-" = false.

(** The names carried by the command events of [evs], in order. *)
Fixpoint commandNames (evs : list Arg) : list string :=
  match evs with
  | [] => []
  | CommandArg n :: rest => n :: commandNames rest
  | _ :: rest => commandNames rest
  end.

(** The command reached from [top] through the sub-commands [path]. *)
Definition descend (top : Command) (path : list string) : Command :=
  fold_left (fun c n => default c (getProperty (subCommands c) n)) path top.

(** The option [entry] declares [a] among its aliases, primary name and
    negated variants included. *)
Definition declaresAlias (a : string) (entry : string * CommandOption) : bool :=
  existsb (String.eqb a) (expandAliases entry.1 entry.2).

(** The registry entry of a declared option. *)
Definition namedOption (entry : string * CommandOption) : NamedOption :=
  {| name := entry.1; def := entry.2 |}.

(** Every name of [path] is, in turn, a sub-command of the command
    reached so far. *)
Fixpoint validPath (top : Command) (path : list string) : Prop :=
  match path with
  | [] => True
  | n :: rest =>
      match getProperty (subCommands top) n with
      | Some sub => validPath sub rest
      | None => False
      end
  end.

(** ** The class [CommandLineParser] of [parser.ts]

    The object's fields are the record [t]; a method receives the object and
    returns it.  During [parse] the local [idx] and the argument array
    travel with the object in the record [Run]; as before, the [argIdx] that
    a step's [putBack] captures is an explicit argument, and the two [while]
    loops take fuel.  The tables hold the option definitions themselves. *)

Module CommandLineParser.

Record t : Type := {
  longOptions : StringTree.t CommandOption;
  shortOptions : gmap string CommandOption;
  topCommand : Command;
  parsed : list Arg
}.

(** The body of the loop [for (const alias of aliases)] of [addKnownOption]. *)
Definition registerAlias (opt : CommandOption) (this : t) (alias : string) : Outcome t :=
  if Nat.eqb (String.length alias) 1 then
    Done {| longOptions := longOptions this;
            shortOptions := <[alias := opt]> (shortOptions this);
            topCommand := topCommand this;
            parsed := parsed this |}
  else
    let stored :=
      {| longOptions := StringTree.set (longOptions this) alias opt;
         shortOptions := shortOptions this;
         topCommand := topCommand this;
         parsed := parsed this |} in
    match StringTree.get (longOptions this) alias with
    | Some existing =>
        if bool_decide (type existing ≠ type opt)
        then Thrown (ConflictingOptionDefinition alias (type existing) (type opt))
        else Done stored
    | None => Done stored
    end.

Definition addKnownOption (this : t) (name : string) (opt : CommandOption) : Outcome t :=
  forEach (registerAlias opt) (expandAliases name opt) this.

(** Define a command that this parser knows about. *)
Fixpoint addKnownCommand (cmd : Command) (this : t) : Outcome t :=
  this1 ← forEach (fun th entry => addKnownOption th entry.1 entry.2) (options cmd) this;
  (fix subs (l : list (string * Command)) (th : t) : Outcome t :=
     match l with
     | [] => Done th
     | (_, sub) :: rest => th' ← addKnownCommand sub th; subs rest th'
     end) (subCommands cmd) this1.

(** [new CommandLineParser(cmd)] *)
Definition new (cmd : Command) : Outcome t :=
  addKnownCommand cmd
    {| longOptions := StringTree.empty;
       shortOptions := ∅;
       topCommand := cmd;
       parsed := [] |}.

(** The object together with the locals of [parse]. *)
Record Run : Type := {
  this : t;
  args : list string;
  idx : nat
}.

Definition withIdx (r : Run) (i : nat) : Run :=
  {| this := this r; args := args r; idx := i |}.

(** [this.parsed.push(arg)] *)
Definition push (arg : Arg) (r : Run) : Run :=
  {| this := {| longOptions := longOptions (this r);
                shortOptions := shortOptions (this r);
                topCommand := topCommand (this r);
                parsed := parsed (this r) ++ [arg] |};
     args := args r;
     idx := idx r |}.

Definition hasNext (r : Run) : bool := idx r <? length (args r).

Definition getNext (r : Run) : string * Run :=
  (nth (idx r) (args r) EmptyString, withIdx r (S (idx r))).

Definition putBack (argIdx : nat) (r : Run) : Outcome Run :=
  if argIdx <? idx r
  then Done (withIdx r (idx r - 1))
  else Thrown CursorUnderflow.

Definition parseOptionWithPossibleParameter (name : string) (opt : option CommandOption)
    (argIdx : nat) (r : Run) : Outcome Run :=
  if hasNext r then
    let (maybeParam, r1) := getNext r in
    match opt with
    | Some o =>
        if isFlagTypeOption o then
          r2 ← putBack argIdx r1; Done (push (flagArg name) r2)
        else
          Done (push (optionArg name maybeParam) r1)
    | None =>
        if JsString.startsWith maybeParam "-" then
          r2 ← putBack argIdx r1; Done (push (flagArg name) r2)
        else
          Done (push (optionArg name maybeParam) r1)
    end
  else
    Done (push (flagArg name) r).

Fixpoint parseBreakOutArg (fuel : nat) (r : Run) : Outcome Run :=
  if hasNext r then
    match fuel with
    | O => OutOfFuel
    | S fuel' =>
        let (value, r1) := getNext r in
        parseBreakOutArg fuel' (push (positionalArg value) r1)
    end
  else Done r.

(** [parseSubCommand]: the sub-command is only read for a name that
    [hasOwnProperty] accepted; for any other name the model keeps the active
    command. *)
Definition parseSubCommand (arg : string) (r : Run) : Run :=
  let r1 := push (commandArg arg) r in
  {| this := {| longOptions := longOptions (this r1);
                shortOptions := shortOptions (this r1);
                topCommand := default (topCommand (this r1))
                                (getProperty (subCommands (topCommand (this r1))) arg);
                parsed := parsed (this r1) |};
     args := args r1;
     idx := idx r1 |}.

Definition parsePositionalArg (arg : string) (r : Run) : Run :=
  push (positionalArg arg) r.

Definition parseShortOptionArg (arg : string) (argIdx : nat) (r : Run) : Outcome Run :=
  let bareArgs := JsString.substr_from arg 1 in
  let (allNames, eqOther) := JsString.split "=" bareArgs in
  let lastName := JsString.substr_from allNames (String.length allNames - 1) in
  let firstNames := JsString.substr allNames 0 (String.length allNames - 1) in
  let r1 := fold_left (fun acc shortOpt => push (flagArg shortOpt) acc)
                      (JsString.chars firstNames) r in
  match eqOther with
  | _ :: _ => Done (push (optionArg lastName (JsString.join "=" eqOther)) r1)
  | [] => parseOptionWithPossibleParameter lastName
            (shortOptions (this r1) !! lastName) argIdx r1
  end.

Definition parseLongOptionArg (arg : string) (argIdx : nat) (r : Run) : Outcome Run :=
  let bareArg := JsString.substr_from arg 2 in
  let (name, eqOther) := JsString.split "=" bareArg in
  match eqOther with
  | _ :: _ => Done (push (optionArg name (JsString.join "=" eqOther)) r)
  | [] => parseOptionWithPossibleParameter name
            (StringTree.get (longOptions (this r)) name) argIdx r
  end.

Definition parseArg (fuel : nat) (arg : string) (argIdx : nat) (r : Run) : Outcome Run :=
  if String.eqb arg "--" then parseBreakOutArg fuel r
  else if String.eqb arg "-" then Done (parsePositionalArg arg r)
  else if JsString.startsWith arg "--" then parseLongOptionArg arg argIdx r
  else if JsString.startsWith arg "-" then parseShortOptionArg arg argIdx r
  else if hasOwnProperty (subCommands (topCommand (this r))) arg
       then Done (parseSubCommand arg r)
  else Done (parsePositionalArg arg r).

(** [while (idx < args.length) { const argIdx = idx; idx++; ... }] *)
Fixpoint parseLoop (fuel : nat) (r : Run) : Outcome Run :=
  if idx r <? length (args r) then
    match fuel with
    | O => OutOfFuel
    | S fuel' =>
        let argIdx := idx r in
        r' ← parseArg fuel' (nth argIdx (args r) EmptyString) argIdx (withIdx r (S (idx r)));
        parseLoop fuel' r'
    end
  else Done r.

(** [parse(args)], with one unit of fuel per token. *)
Definition parse (parser : t) (args : list string) : Outcome t :=
  r ← parseLoop (length args) {| this := parser; args := args; idx := 0 |};
  Done (this r).

End CommandLineParser.

(** [parseCommandLine] of [parser.ts] *)
Definition parseCommandLine (cmd : Command) (args : list string) : Outcome (list Arg) :=
  parser ← CommandLineParser.new cmd;
  parser' ← CommandLineParser.parse parser args;
  Done (CommandLineParser.parsed parser').

(** The object of the class that corresponds to a state of the functional
    draft: the same tables without the names, the same command and events. *)
Definition eraseState (st : ParserState) : CommandLineParser.t :=
  {| CommandLineParser.longOptions := def <$> longOptions st;
     CommandLineParser.shortOptions := def <$> shortOptions st;
     CommandLineParser.topCommand := topCommand st;
     CommandLineParser.parsed := parsed st |}.

Definition eraseContext (c : ParserContext) : CommandLineParser.Run :=
  {| CommandLineParser.this := eraseState (state c);
     CommandLineParser.args := args c;
     CommandLineParser.idx := idx c |}.

(** ** The parser on a heap

    What is mutable in the functional draft: each call of
    [createParserContext] creates one [state] object and one set of
    variables ([args], [idx]) that the closures it returns share, and every
    later effect of the parser is an assignment to one of them.  Here these
    environments live in a heap, one cell per call, a context is the
    reference to its cell, and every closure reads and writes the heap
    through the reference it captured.  Nothing else in the sources is
    mutable: there is no variable at module level. *)

Definition setIdx (env : ParserContext) (i : nat) : ParserContext :=
  {| state := state env; args := args env; idx := i |}.

Definition setParsed (env : ParserContext) (p : list Arg) : ParserContext :=
  {| state := {| knownOptionNames := knownOptionNames (state env);
                 longOptions := longOptions (state env);
                 shortOptions := shortOptions (state env);
                 topCommand := topCommand (state env);
                 parsed := p |};
     args := args env; idx := idx env |}.

Definition setTopCommand (env : ParserContext) (c : Command) : ParserContext :=
  {| state := {| knownOptionNames := knownOptionNames (state env);
                 longOptions := longOptions (state env);
                 shortOptions := shortOptions (state env);
                 topCommand := c;
                 parsed := parsed (state env) |};
     args := args env; idx := idx env |}.

Definition setKnownOptionNames (env : ParserContext) (k : list string) : ParserContext :=
  {| state := {| knownOptionNames := k;
                 longOptions := longOptions (state env);
                 shortOptions := shortOptions (state env);
                 topCommand := topCommand (state env);
                 parsed := parsed (state env) |};
     args := args env; idx := idx env |}.

Definition setLongOptions (env : ParserContext) (l : StringTree.t NamedOption)
    : ParserContext :=
  {| state := {| knownOptionNames := knownOptionNames (state env);
                 longOptions := l;
                 shortOptions := shortOptions (state env);
                 topCommand := topCommand (state env);
                 parsed := parsed (state env) |};
     args := args env; idx := idx env |}.

Definition setShortOptions (env : ParserContext) (s : gmap string NamedOption)
    : ParserContext :=
  {| state := {| knownOptionNames := knownOptionNames (state env);
                 longOptions := longOptions (state env);
                 shortOptions := s;
                 topCommand := topCommand (state env);
                 parsed := parsed (state env) |};
     args := args env; idx := idx env |}.

#[global] Instance ParserContext_inhabited : Inhabited ParserContext :=
  populate {| state := emptyState (mkCommand [] [] []); args := []; idx := 0 |}.

Module Heap.

Abbreviation Ref := nat (only parsing).

(** The environments created so far, oldest first. *)
Abbreviation t := (list ParserContext) (only parsing).

(** A computation on the heap: its outcome and the heap it leaves, also
    when it throws. *)
Definition M (A : Type) : Type := t -> Outcome A * t.

Definition ret {A : Type} (a : A) : M A := fun h => (Done a, h).

Definition bind {A B : Type} (m : M A) (k : A -> M B) : M B := fun h =>
  match m h with
  | (Done a, h') => k a h'
  | (Thrown e, h') => (Thrown e, h')
  | (OutOfFuel, h') => (OutOfFuel, h')
  end.

#[global] Instance M_ret : MRet M := @ret.
#[global] Instance M_bind : MBind M := fun A B k m => bind m k.

Definition throw {A : Type} (e : Error) : M A := fun h => (Thrown e, h).

Definition outOfFuel {A : Type} : M A := fun h => (OutOfFuel, h).

(** A new environment, at the first free reference. *)
Definition alloc (env : ParserContext) : M Ref := fun h => (Done (length h), h ++ [env]).

(** Reading through a reference.  A reference is always one that [alloc]
    returned, so the default of the total lookup is never read. *)
Definition read {A : Type} (r : Ref) (f : ParserContext -> A) : M A :=
  fun h => (Done (f (h !!! r)), h).

(** An assignment through a reference. *)
Definition update (r : Ref) (f : ParserContext -> ParserContext) : M unit :=
  fun h => (Done tt, <[r := f (h !!! r)]> h).

Fixpoint forEach {A : Type} (body : A -> M unit) (l : list A) : M unit :=
  match l with
  | [] => ret tt
  | a :: rest => _ ← body a; forEach body rest
  end.

(** The body of the loop [for (const alias of aliases)]. *)
Definition registerAlias (r : Ref) (opt : CommandOption) (namedOpt : NamedOption)
    (alias : string) : M unit :=
  if Nat.eqb (String.length alias) 1 then
    update r (fun env => setShortOptions env (<[alias := namedOpt]> (shortOptions (state env))))
  else
    existing ← read r (fun env => StringTree.get (longOptions (state env)) alias);
    _ ← match existing with
        | Some e =>
            if bool_decide (type (def e) ≠ type opt)
            then throw (ConflictingOptionDefinition alias (type (def e)) (type opt))
            else ret tt
        | None => ret tt
        end;
    update r (fun env =>
                setLongOptions env (StringTree.set (longOptions (state env)) alias namedOpt)).

Definition addKnownOptionToState (r : Ref) (name : string) (opt : CommandOption) : M unit :=
  let namedOpt := {| name := name; def := opt |} in
  _ ← update r (fun env =>
                  setKnownOptionNames env (setAdd (knownOptionNames (state env)) name));
  forEach (registerAlias r opt namedOpt) (expandAliases name opt).

Fixpoint addKnownCommandToState (r : Ref) (cmd : Command) : M unit :=
  _ ← forEach (fun entry => addKnownOptionToState r entry.1 entry.2) (options cmd);
  (fix subs (l : list (string * Command)) : M unit :=
     match l with
     | [] => ret tt
     | (_, sub) :: rest => _ ← addKnownCommandToState r sub; subs rest
     end) (subCommands cmd).

(** [createParserContext]: the context it returns is the reference to the
    environment it created. *)
Definition createParserContext (cmd : Command) (args : list string) : M Ref :=
  r ← alloc {| state := emptyState cmd; args := args; idx := 0 |};
  _ ← addKnownCommandToState r cmd;
  ret r.

Definition hasNext (r : Ref) : M bool :=
  read r (fun env => idx env <? length (args env)).

Definition getNext (r : Ref) : M string :=
  next ← read r (fun env => nth (idx env) (args env) EmptyString);
  _ ← update r (fun env => setIdx env (S (idx env)));
  ret next.

Definition putBack (r : Ref) (argIdx : nat) : M unit :=
  i ← read r idx;
  if argIdx <? i
  then update r (fun env => setIdx env (idx env - 1))
  else throw CursorUnderflow.

Definition pushParsed (r : Ref) (arg : Arg) : M unit :=
  update r (fun env => setParsed env (parsed (state env) ++ [arg])).

Definition push_command (r : Ref) (name : string) : M unit :=
  _ ← pushParsed r (CommandArg name);
  update r (fun env =>
              setTopCommand env
                (default (topCommand (state env))
                         (getProperty (subCommands (topCommand (state env))) name))).

Definition push_positional (r : Ref) (value : string) : M unit :=
  pushParsed r (PositionalArg value).

Definition push_option (r : Ref) (name value : string) : M unit :=
  pushParsed r (OptionArg name value).

Definition push_flag (r : Ref) (name : string) : M unit :=
  pushParsed r (FlagArg (JsString.replace_no name) (negb (JsString.startsWith name "no-"))).

Definition getLongOption (r : Ref) (opt : string) : M (option NamedOption) :=
  read r (fun env => StringTree.get (longOptions (state env)) opt).

Definition getShortOption (r : Ref) (opt : string) : M (option NamedOption) :=
  read r (fun env => shortOptions (state env) !! opt).

Definition hasSubCommand (r : Ref) (name : string) : M bool :=
  read r (fun env => hasOwnProperty (subCommands (topCommand (state env))) name).

Definition getResults (r : Ref) : M (list Arg) :=
  read r (fun env => parsed (state env)).

(** [context.next()]: the token and the [argIdx] its [putBack] captures. *)
Definition next (r : Ref) : M (string * nat) :=
  argIdx ← read r idx;
  arg ← getNext r;
  ret (arg, argIdx).

Definition parseOptionWithPossibleParameter (name : string) (opt : option NamedOption)
    (r : Ref) (argIdx : nat) : M unit :=
  more ← hasNext r;
  if more : bool then
    maybeParam ← getNext r;
    match opt with
    | Some o =>
        if isFlagTypeOption (def o) then
          _ ← putBack r argIdx; push_flag r name
        else
          push_option r name maybeParam
    | None =>
        if JsString.startsWith maybeParam "-" then
          _ ← putBack r argIdx; push_flag r name
        else
          push_option r name maybeParam
    end
  else
    push_flag r name.

Fixpoint parseBreakOutArg (fuel : nat) (r : Ref) : M unit :=
  more ← hasNext r;
  if more : bool then
    match fuel with
    | O => outOfFuel
    | S fuel' =>
        value ← getNext r;
        _ ← push_positional r value;
        parseBreakOutArg fuel' r
    end
  else ret tt.

Definition parseSubCommand (r : Ref) (arg : string) : M unit := push_command r arg.

Definition parsePositionalArg (r : Ref) (arg : string) : M unit := push_positional r arg.

Definition parseShortOptionArg (arg : string) (r : Ref) (argIdx : nat) : M unit :=
  let bareArgs := JsString.substr_from arg 1 in
  let (allNames, eqOther) := JsString.split "=" bareArgs in
  let lastName := JsString.substr_from allNames (String.length allNames - 1) in
  let firstNames := JsString.substr allNames 0 (String.length allNames - 1) in
  _ ← forEach (push_flag r) (JsString.chars firstNames);
  match eqOther with
  | _ :: _ => push_option r lastName (JsString.join "=" eqOther)
  | [] =>
      opt ← getShortOption r lastName;
      parseOptionWithPossibleParameter lastName opt r argIdx
  end.

Definition parseLongOptionArg (arg : string) (r : Ref) (argIdx : nat) : M unit :=
  let bareArg := JsString.substr_from arg 2 in
  let (name, eqOther) := JsString.split "=" bareArg in
  match eqOther with
  | _ :: _ => push_option r name (JsString.join "=" eqOther)
  | [] =>
      opt ← getLongOption r name;
      parseOptionWithPossibleParameter name opt r argIdx
  end.

Definition parseArg (fuel : nat) (arg : string) (r : Ref) (argIdx : nat) : M unit :=
  if String.eqb arg "--" then parseBreakOutArg fuel r
  else if String.eqb arg "-" then parsePositionalArg r arg
  else if JsString.startsWith arg "--" then parseLongOptionArg arg r argIdx
  else if JsString.startsWith arg "-" then parseShortOptionArg arg r argIdx
  else
    sub ← hasSubCommand r arg;
    if sub : bool then parseSubCommand r arg else parsePositionalArg r arg.

(** [while (context.hasNext()) { ... }] *)
Fixpoint parseLoop (fuel : nat) (r : Ref) : M unit :=
  more ← hasNext r;
  if more : bool then
    match fuel with
    | O => outOfFuel
    | S fuel' =>
        step ← next r;
        _ ← parseArg fuel' step.1 r step.2;
        parseLoop fuel' r
    end
  else ret tt.

Definition parseResults (cmd : Command) (args : list string) : M Ref :=
  context ← createParserContext cmd args;
  _ ← parseLoop (length args) context;
  ret context.

Definition parse (cmd : Command) (args : list string) : M (list Arg) :=
  context ← parseResults cmd args;
  getResults context.

End Heap.

(** The result [res] of a computation that ran on the heap
    [h1 ++ env :: h2] agrees with the outcome [pure] of the functional draft
    on [env]: the same outcome, and a heap that differs from the one it
    started on in the cell between [h1] and [h2] only, which holds the
    environment that [pure] returns. *)
Definition endsWith (h1 h2 : Heap.t) (res : Outcome unit * Heap.t)
    (pure : Outcome ParserContext) : Prop :=
  match pure with
  | Done env' => res = (Done tt, h1 ++ env' :: h2)
  | Thrown e => exists env', res = (Thrown e, h1 ++ env' :: h2)
  | OutOfFuel => exists env', res = (OutOfFuel, h1 ++ env' :: h2)
  end.

(* ================================================================== *)
(** * Properties *)

(** ** The repository's tests

    The four cases of the parser's test file, evaluated on the embedding. *)

Example test_mixed_command_line :
  let flagOpt := {| type := OptionType.flag; aliases := [] |} in
  let testCommand :=
    mkCommand [ {| names := ["positional1"]; positionalType := PositionalType.string |} ]
      [("opt1", flagOpt);
       ("opt2", {| type := OptionType.strings; aliases := [] |});
       ("a", {| type := OptionType.flag; aliases := ["opt4"] |})]
      [("cmd1", mkCommand [] [("b", {| type := OptionType.string; aliases := [] |})]
                  [("cmd2", mkCommand [] [] [])])] in
  parse testCommand
    ["--opt1"; "--opt2"; "param2.1"; "cmd1"; "pos1"; "--opt2"; "param2.2"; "-abc";
     "arg-for-c"; "--opt3"; "--no-opt3"; "--opt4"; "--opt5"; "param5"; "cmd2"; "pos2";
     "--opt6"] =
  Done [FlagArg "opt1" true; OptionArg "opt2" "param2.1"; CommandArg "cmd1";
        PositionalArg "pos1"; OptionArg "opt2" "param2.2"; FlagArg "a" true;
        FlagArg "b" true; OptionArg "c" "arg-for-c"; FlagArg "opt3" true;
        FlagArg "opt3" false; FlagArg "opt4" true; OptionArg "opt5" "param5";
        CommandArg "cmd2"; PositionalArg "pos2"; FlagArg "opt6" true].
Proof. vm_compute. reflexivity. Qed.

Example test_long_option_with_parameter :
  parse (mkCommand [] [("foobar", {| type := OptionType.string; aliases := [] |})] [])
        ["--foobar"; "trot"] = Done [OptionArg "foobar" "trot"].
Proof. vm_compute. reflexivity. Qed.

Example test_long_option_without_parameter :
  parse (mkCommand [] [("foobar", {| type := OptionType.flag; aliases := [] |})] [])
        ["--foobar"; "trot"] = Done [FlagArg "foobar" true; PositionalArg "trot"].
Proof. vm_compute. reflexivity. Qed.

Example test_unique_prefix :
  parse (mkCommand [] [("food", {| type := OptionType.flag; aliases := [] |});
                       ("foobar", {| type := OptionType.string; aliases := [] |})] [])
        ["--foob"; "trot"] = Done [OptionArg "foob" "trot"].
Proof. vm_compute. reflexivity. Qed.

(** ** The outcome monad *)

Lemma bind_Done {A B : Type} (a : A) (k : A -> Outcome B) : (Done a ≫= k) = k a.
Proof. reflexivity. Qed.

Lemma bind_Thrown {A B : Type} (e : Error) (k : A -> Outcome B) : (Thrown e ≫= k) = Thrown e.
Proof. reflexivity. Qed.

Lemma bind_inv_Done {A B : Type} (m : Outcome A) (k : A -> Outcome B) (b : B) :
  (m ≫= k) = Done b -> exists a, m = Done a /\ k a = Done b.
Proof. destruct m as [a| |]; simpl; try discriminate. eauto. Qed.

(** ** The cursor *)

Lemma sameRegistry_refl c : sameRegistry c c.
Proof. repeat split. Qed.

Lemma sameRegistry_trans c1 c2 c3 :
  sameRegistry c1 c2 -> sameRegistry c2 c3 -> sameRegistry c1 c3.
Proof.
  intros (A1 & L1 & S1 & K1) (A2 & L2 & S2 & K2).
  repeat split; congruence.
Qed.

Lemma hasNext_true ctx : hasNext ctx = true <-> idx ctx < length (args ctx).
Proof. unfold hasNext. apply Nat.ltb_lt. Qed.

Lemma hasNext_false ctx : hasNext ctx = false <-> length (args ctx) <= idx ctx.
Proof. unfold hasNext. apply Nat.ltb_ge. Qed.

Lemma getNext_in_range ctx :
  hasNext ctx = true -> args ctx !! idx ctx = Some (getNext ctx).1.
Proof.
  intros H%hasNext_true. simpl. rewrite nth_lookup.
  destruct (lookup_lt_is_Some_2 (args ctx) (idx ctx) H) as [x ->]. reflexivity.
Qed.

Lemma nth_of_lookup (l : list string) (i : nat) (x : string) :
  l !! i = Some x -> nth i l EmptyString = x.
Proof. intros H. now rewrite nth_lookup, H. Qed.

Lemma drop_getNext ctx :
  hasNext ctx = true ->
  drop (idx ctx) (args ctx) = (getNext ctx).1 :: drop (S (idx ctx)) (args ctx).
Proof.
  intros H. apply drop_S. now apply getNext_in_range.
Qed.

Lemma appendParsed_nil ctx : appendParsed [] ctx = ctx.
Proof.
  destruct ctx as [[k l s t p] a i]. unfold appendParsed, withState. simpl.
  now rewrite app_nil_r.
Qed.

Lemma appendParsed_app evs1 evs2 ctx :
  appendParsed evs2 (appendParsed evs1 ctx) = appendParsed (evs1 ++ evs2) ctx.
Proof.
  destruct ctx as [[k l s t p] a i]. unfold appendParsed, withState. simpl.
  now rewrite app_assoc.
Qed.

Lemma pushParsed_appendParsed arg ctx : pushParsed arg ctx = appendParsed [arg] ctx.
Proof. reflexivity. Qed.

Lemma appendParsed_withIdx evs ctx i :
  appendParsed evs (withIdx ctx i) = withIdx (appendParsed evs ctx) i.
Proof. reflexivity. Qed.

(** ** [parseBreakOutArg]: everything left becomes a positional *)

Lemma parseBreakOutArg_spec fuel : forall ctx,
  idx ctx <= length (args ctx) ->
  length (args ctx) - idx ctx <= fuel ->
  parseBreakOutArg fuel ctx =
    Done (withIdx (appendParsed (map PositionalArg (drop (idx ctx) (args ctx))) ctx)
                  (length (args ctx))).
Proof.
  induction fuel as [|fuel IH]; intros ctx Hle Hfuel.
  - assert (idx ctx = length (args ctx)) as E by lia.
    simpl. destruct (hasNext ctx) eqn:Hn.
    + apply hasNext_true in Hn. lia.
    + rewrite E, drop_all. simpl. rewrite appendParsed_nil.
      destruct ctx as [st a i]. simpl in *. subst. reflexivity.
  - simpl. destruct (hasNext ctx) eqn:Hn.
    + rewrite (drop_getNext ctx Hn). apply hasNext_true in Hn.
      unfold getNext at 1. unfold push_positional. rewrite pushParsed_appendParsed.
      rewrite IH.
      * destruct ctx as [[k l s t p] a i].
        unfold appendParsed, withIdx, withState. simpl. now rewrite <- app_assoc.
      * destruct ctx as [[k l s t p] a i]. simpl in *. lia.
      * destruct ctx as [[k l s t p] a i]. simpl in *. lia.
    + apply hasNext_false in Hn.
      assert (idx ctx = length (args ctx)) as E by lia.
      rewrite E, drop_all. simpl. rewrite appendParsed_nil.
      destruct ctx as [st a i]. simpl in *. subst. reflexivity.
Qed.

(** ** One classification step *)

Lemma withIdx_same ctx : withIdx ctx (idx ctx) = ctx.
Proof. now destruct ctx. Qed.

Lemma parseOptionWithPossibleParameter_eq name opt argIdx ctx :
  argIdx <= idx ctx ->
  parseOptionWithPossibleParameter name opt argIdx ctx =
    Done (if hasNext ctx && consumesParameter opt (getNext ctx).1
          then push_option name (getNext ctx).1 (getNext ctx).2
          else push_flag name ctx).
Proof.
  intros Hle. unfold parseOptionWithPossibleParameter, consumesParameter.
  destruct (hasNext ctx); [|reflexivity].
  assert (putBack argIdx (getNext ctx).2 = Done ctx) as Hpb.
  { unfold putBack, getNext. simpl.
    destruct (Nat.ltb_spec argIdx (S (idx ctx))); [|lia].
    destruct ctx as [st a i]. unfold withIdx. simpl. now rewrite Nat.sub_0_r. }
  destruct (getNext ctx) as [maybeParam ctx1] eqn:E. simpl in *.
  destruct opt as [o|].
  - destruct (isFlagTypeOption (def o)); simpl; [now rewrite Hpb|reflexivity].
  - destruct (JsString.startsWith maybeParam "-"); simpl; [now rewrite Hpb|reflexivity].
Qed.

Lemma fold_push_flag names : forall ctx,
  fold_left (fun c shortOpt => push_flag shortOpt c) names ctx =
    appendParsed (map flagArg names) ctx.
Proof.
  induction names as [|n names IH]; intros ctx; simpl.
  - now rewrite appendParsed_nil.
  - rewrite IH. unfold push_flag. rewrite pushParsed_appendParsed, appendParsed_app.
    reflexivity.
Qed.

Lemma stepsTo_appendParsed evs c : idx c <= length (args c) -> stepsTo (idx c) c (appendParsed evs c).
Proof.
  intros H. destruct c as [[k l s t p] a i]. repeat split; simpl in *; eauto.
Qed.

Lemma stepsTo_trans lo lo' c1 c2 c3 :
  lo <= lo' -> stepsTo lo c1 c2 -> stepsTo lo' c2 c3 -> stepsTo lo' c1 c3.
Proof.
  intros Hlo (R1 & I1 & J1 & evs1 & P1) (R2 & I2 & J2 & evs2 & P2).
  assert (args c2 = args c1) as Ha by apply R1.
  split; [eapply sameRegistry_trans; eauto|].
  repeat split; [lia|congruence|].
  exists (evs1 ++ evs2). rewrite P2, P1. now rewrite app_assoc.
Qed.

Lemma stepsTo_weaken lo lo' c c' : lo <= lo' -> stepsTo lo' c c' -> stepsTo lo c c'.
Proof. intros Hlo (R & I & J & P). repeat split; try assumption; try apply R. lia. Qed.

Lemma parseOptionWithPossibleParameter_progress name opt argIdx ctx :
  argIdx <= idx ctx -> idx ctx <= length (args ctx) ->
  exists ctx', parseOptionWithPossibleParameter name opt argIdx ctx = Done ctx' /\
               stepsTo (idx ctx) ctx ctx'.
Proof.
  intros Hle Hlen. rewrite parseOptionWithPossibleParameter_eq by assumption.
  eexists; split; [reflexivity|].
  destruct (hasNext ctx) eqn:Hn; simpl.
  - apply hasNext_true in Hn.
    destruct (consumesParameter opt _).
    + destruct ctx as [[k l s t p] a i]. repeat split; simpl in *; eauto; lia.
    + apply (stepsTo_appendParsed [_] ctx Hlen).
  - apply (stepsTo_appendParsed [_] ctx Hlen).
Qed.

Lemma parseArg_progress fuel arg argIdx ctx :
  argIdx <= idx ctx -> idx ctx <= length (args ctx) ->
  length (args ctx) - idx ctx <= fuel ->
  exists ctx', parseArg fuel arg argIdx ctx = Done ctx' /\ stepsTo (idx ctx) ctx ctx'.
Proof.
  intros Hle Hlen Hfuel. unfold parseArg.
  destruct (String.eqb arg "--").
  { rewrite parseBreakOutArg_spec by assumption. eexists; split; [reflexivity|].
    destruct ctx as [[k l s t p] a i]. repeat split; simpl in *; eauto. }
  destruct (String.eqb arg "-").
  { eexists; split; [reflexivity|]. apply (stepsTo_appendParsed [_] ctx Hlen). }
  destruct (JsString.startsWith arg "--").
  { unfold parseLongOptionArg.
    destruct (JsString.split "=" (JsString.substr_from arg 2)) as [name eqOther].
    destruct eqOther.
    - now apply parseOptionWithPossibleParameter_progress.
    - eexists; split; [reflexivity|]. apply (stepsTo_appendParsed [_] ctx Hlen). }
  destruct (JsString.startsWith arg "-").
  { unfold parseShortOptionArg.
    destruct (JsString.split "=" (JsString.substr_from arg 1)) as [allNames eqOther].
    rewrite fold_push_flag.
    set (ctx1 := appendParsed _ ctx).
    assert (stepsTo (idx ctx) ctx ctx1) as H1 by apply (stepsTo_appendParsed _ ctx Hlen).
    assert (idx ctx1 = idx ctx) as Hi by reflexivity.
    assert (args ctx1 = args ctx) as Ha by reflexivity.
    destruct eqOther.
    - destruct (parseOptionWithPossibleParameter_progress
                  (JsString.substr_from allNames (String.length allNames - 1))
                  (getShortOption ctx1 (JsString.substr_from allNames (String.length allNames - 1)))
                  argIdx ctx1) as (ctx' & E & S'); [rewrite Hi; lia|rewrite Hi, Ha; lia|].
      exists ctx'. split; [exact E|].
      rewrite Hi in S'. now apply (stepsTo_trans (idx ctx) (idx ctx) ctx ctx1 ctx').
    - eexists; split; [reflexivity|].
      apply (stepsTo_trans (idx ctx) (idx ctx) ctx ctx1); [reflexivity|exact H1|].
      rewrite <- Hi. apply (stepsTo_appendParsed [_] ctx1). rewrite Hi, Ha; lia. }
  destruct (hasSubCommand ctx arg).
  - eexists; split; [reflexivity|].
    destruct ctx as [[k l s t p] a i]. repeat split; simpl in *; eauto.
  - eexists; split; [reflexivity|]. apply (stepsTo_appendParsed [_] ctx Hlen).
Qed.

Lemma parseStep_progress fuel ctx :
  hasNext ctx = true -> length (args ctx) - S (idx ctx) <= fuel ->
  exists ctx', parseStep fuel ctx = Done ctx' /\ stepsTo (S (idx ctx)) ctx ctx'.
Proof.
  intros Hn%hasNext_true Hfuel. unfold parseStep, next, getNext.
  destruct (parseArg_progress fuel (nth (idx ctx) (args ctx) "") (idx ctx)
              (withIdx ctx (S (idx ctx)))) as (ctx' & E & S'); simpl; try lia.
  exists ctx'. split; [exact E|].
  destruct ctx as [st a i]. exact S'.
Qed.

(** ** The main loop *)

Lemma parseLoop_terminates fuel : forall ctx,
  idx ctx <= length (args ctx) -> length (args ctx) - idx ctx <= fuel ->
  exists ctx', parseLoop fuel ctx = Done ctx' /\ stepsTo (length (args ctx)) ctx ctx'.
Proof.
  induction fuel as [|fuel IH]; intros ctx Hlen Hfuel; simpl.
  - destruct (hasNext ctx) eqn:Hn; [apply hasNext_true in Hn; lia|].
    exists ctx. split; [reflexivity|]. apply hasNext_false in Hn.
    repeat split; try lia. exists []. now rewrite app_nil_r.
  - destruct (hasNext ctx) eqn:Hn.
    + destruct (parseStep_progress fuel ctx Hn) as (c1 & E1 & S1); [lia|].
      rewrite E1, bind_Done.
      assert (args c1 = args ctx) as Ha by apply S1.
      destruct (IH c1) as (c2 & E2 & S2).
      * rewrite Ha. apply S1.
      * rewrite Ha. destruct S1 as (_ & ? & _). lia.
      * exists c2. split; [exact E2|]. rewrite Ha in S2.
        apply (stepsTo_trans (S (idx ctx)) _ ctx c1 c2); [|exact S1|exact S2].
        apply hasNext_true in Hn. lia.
    + exists ctx. split; [reflexivity|]. apply hasNext_false in Hn.
      repeat split; try lia. exists []. now rewrite app_nil_r.
Qed.

Lemma parseArg_fuel fuel fuel' arg argIdx ctx :
  idx ctx <= length (args ctx) ->
  length (args ctx) - idx ctx <= fuel -> length (args ctx) - idx ctx <= fuel' ->
  parseArg fuel arg argIdx ctx = parseArg fuel' arg argIdx ctx.
Proof.
  intros Hlen H1 H2. unfold parseArg.
  destruct (String.eqb arg "--"); [|reflexivity].
  now rewrite !parseBreakOutArg_spec.
Qed.

Lemma parseStep_fuel fuel fuel' ctx :
  hasNext ctx = true ->
  length (args ctx) - S (idx ctx) <= fuel -> length (args ctx) - S (idx ctx) <= fuel' ->
  parseStep fuel ctx = parseStep fuel' ctx.
Proof.
  intros Hn%hasNext_true H1 H2. unfold parseStep, next, getNext.
  apply parseArg_fuel; simpl; lia.
Qed.

Lemma parseLoop_fuel fuel : forall fuel' ctx,
  idx ctx <= length (args ctx) ->
  length (args ctx) - idx ctx <= fuel -> length (args ctx) - idx ctx <= fuel' ->
  parseLoop fuel ctx = parseLoop fuel' ctx.
Proof.
  induction fuel as [|fuel IH]; intros fuel' ctx Hlen H1 H2.
  - destruct fuel'; simpl; destruct (hasNext ctx) eqn:Hn; try reflexivity;
      apply hasNext_true in Hn; lia.
  - destruct fuel' as [|fuel']; simpl; destruct (hasNext ctx) eqn:Hn; try reflexivity.
    + apply hasNext_true in Hn; lia.
    + rewrite (parseStep_fuel fuel fuel' ctx Hn) by lia.
      destruct (parseStep_progress fuel' ctx Hn) as (c1 & E1 & S1); [lia|].
      rewrite E1, !bind_Done.
      assert (args c1 = args ctx) as Ha by apply S1.
      destruct S1 as (_ & ? & ? & _).
      apply IH; rewrite Ha; lia.
Qed.

Lemma reaches_stepsTo c0 c :
  idx c0 <= length (args c0) -> reaches c0 c -> stepsTo (idx c0) c0 c.
Proof.
  intros Hlen R. induction R as [|c c' R IH Hn E].
  - repeat split; try lia. exists []. now rewrite app_nil_r.
  - destruct (parseStep_progress (length (args c)) c Hn) as (c1 & E1 & S1); [lia|].
    rewrite E in E1. injection E1 as <-.
    assert (idx c0 <= idx c) as Hlo by apply IH.
    apply (stepsTo_weaken (idx c0) (S (idx c))); [lia|].
    apply (stepsTo_trans (idx c0) _ c0 c c'); [lia|exact IH|exact S1].
Qed.

Lemma parseLoop_reaches c0 c :
  idx c0 <= length (args c0) -> reaches c0 c ->
  parseLoop (length (args c0) - idx c0) c0 = parseLoop (length (args c) - idx c) c.
Proof.
  intros Hlen R. induction R as [|c c' R IH Hn E]; [reflexivity|].
  rewrite IH.
  pose proof (reaches_stepsTo c0 c Hlen R) as (Rg & Hlo & Hhi & _).
  assert (args c = args c0) as Ha by apply Rg.
  pose proof Hn as Hlt%hasNext_true.
  destruct (length (args c) - idx c) as [|f] eqn:Ef; [lia|].
  simpl. rewrite Hn.
  rewrite (parseStep_fuel f (length (args c)) c Hn) by lia.
  rewrite E, bind_Done.
  destruct (parseStep_progress (length (args c)) c Hn) as (c1 & E1 & S1); [lia|].
  rewrite E in E1. injection E1 as <-.
  assert (args c' = args c) as Ha' by apply S1.
  destruct S1 as (_ & ? & ? & _).
  apply parseLoop_fuel; rewrite Ha'; lia.
Qed.

Lemma parseLoop_final_reached fuel : forall c c',
  idx c <= length (args c) -> length (args c) - idx c <= fuel ->
  parseLoop fuel c = Done c' -> reaches c c' /\ hasNext c' = false.
Proof.
  induction fuel as [|fuel IH]; intros c c' Hlen Hfuel E; simpl in E.
  - destruct (hasNext c) eqn:Hn; [discriminate|].
    injection E as <-. split; [constructor|assumption].
  - destruct (hasNext c) eqn:Hn.
    + destruct (parseStep_progress fuel c Hn) as (c1 & E1 & S1);
        [apply hasNext_true in Hn; lia|].
      rewrite E1, bind_Done in E.
      assert (args c1 = args c) as Ha by apply S1.
      destruct (IH c1 c') as [R Hf]; [| |exact E|].
      * rewrite Ha. apply S1.
      * rewrite Ha. destruct S1 as (_ & ? & _). lia.
      * split; [|exact Hf].
        assert (reaches c c1) as R1.
        { apply (reaches_step c c c1); [constructor|exact Hn|].
          rewrite <- E1. apply parseStep_fuel; [exact Hn| |]; lia. }
        clear - R R1. induction R; [exact R1|].
        eapply reaches_step; eauto.
    + injection E as <-. split; [constructor|assumption].
Qed.

(** ** Building the registry *)

Lemma Command_ind_nested (P : Command -> Prop) :
  (forall pos opts subs, Forall (fun kv => P kv.2) subs -> P (mkCommand pos opts subs)) ->
  forall c, P c.
Proof.
  intros H. fix IH 1. intros [pos opts subs]. apply H.
  induction subs as [|[k c] rest IHs]; constructor; [apply IH|exact IHs].
Qed.

Lemma forEach_app {A S : Type} (body : S -> A -> Outcome S) (l1 l2 : list A) : forall s,
  forEach body (l1 ++ l2) s = forEach body l1 s ≫= forEach body l2.
Proof.
  induction l1 as [|a l1 IH]; intros s; simpl; [reflexivity|].
  destruct (body s a) as [s'| |]; simpl; [apply IH|reflexivity|reflexivity].
Qed.

Lemma addKnownCommandToState_allOptions : forall cmd state,
  addKnownCommandToState cmd state =
    forEach (fun st entry => addKnownOptionToState st entry.1 entry.2) (allOptions cmd) state.
Proof.
  induction cmd as [pos opts subs IH] using Command_ind_nested. intros state.
  simpl. rewrite forEach_app.
  destruct (forEach _ opts state) as [st1| |]; simpl; try reflexivity.
  clear state. revert st1.
  induction IH as [|[k sub] rest Hsub _ IHrest]; intros st1; [reflexivity|].
  simpl in Hsub. rewrite forEach_app, Hsub.
  destruct (forEach _ (allOptions sub) st1) as [st2| |]; simpl; try reflexivity.
  apply IHrest.
Qed.

Lemma forEach_invariant {A S : Type} (body : S -> A -> Outcome S) (Inv : S -> Prop) (l : list A) :
  (forall s a s', Inv s -> body s a = Done s' -> Inv s') ->
  forall s s', Inv s -> forEach body l s = Done s' -> Inv s'.
Proof.
  intros Hbody. induction l as [|a l IH]; intros s s' Hs E; simpl in E.
  - now injection E as <-.
  - apply bind_inv_Done in E as (s1 & E1 & E2). eauto.
Qed.

Lemma forEach_fuel_free {A S : Type} (body : S -> A -> Outcome S) (l : list A) :
  (forall s a, body s a <> OutOfFuel) -> forall s, forEach body l s <> OutOfFuel.
Proof.
  intros Hbody. induction l as [|a l IH]; intros s; simpl; [discriminate|].
  specialize (Hbody s a). destruct (body s a); simpl; [apply IH|discriminate|congruence].
Qed.

Lemma registerAlias_fuel_free opt namedOpt st alias :
  registerAlias opt namedOpt st alias <> OutOfFuel.
Proof.
  unfold registerAlias. destruct (Nat.eqb _ 1); [discriminate|].
  destruct (StringTree.get _ alias); [|discriminate].
  destruct (bool_decide _); discriminate.
Qed.

Lemma registerAlias_keeps opt namedOpt st alias st' :
  registerAlias opt namedOpt st alias = Done st' ->
  parsed st' = parsed st /\ topCommand st' = topCommand st /\
  knownOptionNames st' = knownOptionNames st.
Proof.
  unfold registerAlias. destruct (Nat.eqb _ 1).
  - intros [= <-]. auto.
  - destruct (StringTree.get _ alias).
    + destruct (bool_decide _); [discriminate|]. intros [= <-]. auto.
    + intros [= <-]. auto.
Qed.

Lemma addKnownOptionToState_keeps st name opt st' :
  addKnownOptionToState st name opt = Done st' ->
  parsed st' = parsed st /\ topCommand st' = topCommand st.
Proof.
  unfold addKnownOptionToState. intros E.
  apply (forEach_invariant _
           (fun s => parsed s = parsed st /\ topCommand s = topCommand st) _) in E.
  - exact E.
  - intros s a s' [Hp Ht] Hr. apply registerAlias_keeps in Hr as (? & ? & _).
    split; congruence.
  - auto.
Qed.

Lemma addKnownOptionToState_fuel_free st name opt :
  addKnownOptionToState st name opt <> OutOfFuel.
Proof.
  unfold addKnownOptionToState. apply forEach_fuel_free.
  intros s a. apply registerAlias_fuel_free.
Qed.

Lemma createParserContext_fuel_free cmd args0 : createParserContext cmd args0 <> OutOfFuel.
Proof.
  unfold createParserContext. rewrite addKnownCommandToState_allOptions.
  pose proof (forEach_fuel_free
    (fun st (entry : string * CommandOption) => addKnownOptionToState st entry.1 entry.2)
    (allOptions cmd)
    (fun st entry => addKnownOptionToState_fuel_free st entry.1 entry.2)
    (emptyState cmd)) as H.
  destruct (forEach _ (allOptions cmd) (emptyState cmd)); simpl; congruence.
Qed.

Lemma createParserContext_Done cmd args0 ctx0 :
  createParserContext cmd args0 = Done ctx0 ->
  args ctx0 = args0 /\ idx ctx0 = 0 /\ parsed (state ctx0) = [] /\
  topCommand (state ctx0) = cmd.
Proof.
  unfold createParserContext. rewrite addKnownCommandToState_allOptions.
  intros E. apply bind_inv_Done in E as (st & E & [= <-]). simpl.
  apply (forEach_invariant _
           (fun s => parsed s = [] /\ topCommand s = cmd) _) in E.
  - tauto.
  - intros s a s' [Hp Ht] Hr. apply addKnownOptionToState_keeps in Hr as [? ?].
    split; congruence.
  - auto.
Qed.

Lemma parseLoop_at_end fuel ctx : hasNext ctx = false -> parseLoop fuel ctx = Done ctx.
Proof. intros H. destruct fuel; simpl; now rewrite H. Qed.

Lemma parseLoop_unfold fuel ctx :
  hasNext ctx = true -> parseLoop (S fuel) ctx = parseStep fuel ctx ≫= parseLoop fuel.
Proof. intros H. simpl. now rewrite H. Qed.

Lemma parseResults_loop cmd args0 ctx0 :
  createParserContext cmd args0 = Done ctx0 ->
  parseResults cmd args0 = parseLoop (length (args ctx0) - idx ctx0) ctx0.
Proof.
  intros E. unfold parseResults. rewrite E, bind_Done.
  apply createParserContext_Done in E as (-> & -> & _). now rewrite Nat.sub_0_r.
Qed.

(** ** Termination *)

(** C10.  Parsing runs to completion.  Building the registry uses no loop
    that could run on; once it is built, every iteration of the main loop
    that starts inside the input ends without an error, with the cursor at
    least one token further (the putback of a peeked token included) and not
    beyond the end; the loop ends with the cursor at the end of the input,
    and fuel beyond one unit per token changes nothing. *)
Theorem parse_runs_to_completion (cmd : Command) (args0 : list string) :
  parseResults cmd args0 <> OutOfFuel /\
  forall ctx0, createParserContext cmd args0 = Done ctx0 ->
    (forall c, reaches ctx0 c -> hasNext c = true ->
       exists c', parseStep (length (args c)) c = Done c' /\
                  idx c < idx c' /\ idx c' <= length args0 /\ reaches ctx0 c') /\
    (exists ctx', parseResults cmd args0 = Done ctx' /\ idx ctx' = length args0 /\
                  reaches ctx0 ctx' /\
                  forall fuel, length args0 <= fuel -> parseLoop fuel ctx0 = Done ctx').
Proof.
  assert (forall ctx0, createParserContext cmd args0 = Done ctx0 ->
            idx ctx0 <= length (args ctx0) /\ args ctx0 = args0 /\ idx ctx0 = 0) as Hinit.
  { intros ctx0 E. apply createParserContext_Done in E as (Ha & Hi & _).
    rewrite Ha, Hi. split; [lia|split; reflexivity]. }
  split.
  - unfold parseResults.
    pose proof (createParserContext_fuel_free cmd args0) as Hc.
    destruct (createParserContext cmd args0) as [ctx0| |] eqn:E; simpl; try congruence.
    destruct (Hinit ctx0 eq_refl) as (Hlen & Ha & Hi).
    destruct (parseLoop_terminates (length args0) ctx0 Hlen) as (c' & E' & _); [rewrite Ha; lia|].
    rewrite E'. discriminate.
  - intros ctx0 E. destruct (Hinit ctx0 E) as (Hlen & Ha & Hi). split.
    + intros c R Hn.
      pose proof (reaches_stepsTo ctx0 c Hlen R) as (Rg & _ & Hhi & _).
      assert (args c = args0) as Hac by (rewrite <- Ha; apply Rg).
      destruct (parseStep_progress (length (args c)) c Hn) as (c' & E' & S'); [lia|].
      exists c'. split; [exact E'|].
      destruct S' as (_ & ? & ? & _).
      split; [lia|]. split; [rewrite <- Hac; lia|].
      eapply reaches_step; eauto.
    + destruct (parseLoop_terminates (length args0) ctx0 Hlen) as (c' & E' & S'); [rewrite Ha; lia|].
      exists c'. unfold parseResults. rewrite E, bind_Done.
      split; [exact E'|].
      destruct S' as (_ & ? & ? & _).
      split; [rewrite <- Ha; lia|]. split.
      * apply (parseLoop_final_reached (length args0)); [exact Hlen|rewrite Ha; lia|exact E'].
      * intros fuel Hf. rewrite <- E'.
        apply parseLoop_fuel; rewrite ?Ha; lia.
Qed.

(** The statement of [parse_runs_to_completion] at a concrete input. *)
Lemma parse_runs_to_completion_witness :
  let cmd := mkCommand [] [("n", {| type := OptionType.number; aliases := ["num"] |})] [] in
  exists ctx0 ctx',
    createParserContext cmd ["--num"; "3"; "--"; "x"] = Done ctx0 /\
    parseResults cmd ["--num"; "3"; "--"; "x"] = Done ctx' /\ idx ctx' = 4.
Proof.
  cbv zeta.
  set (cmd := mkCommand [] [("n", {| type := OptionType.number; aliases := ["num"] |})] []).
  destruct (createParserContext cmd ["--num"; "3"; "--"; "x"]) as [ctx0| |] eqn:E;
    [|vm_compute in E; discriminate..].
  destruct (proj2 (parse_runs_to_completion cmd ["--num"; "3"; "--"; "x"]) ctx0 E)
    as (_ & ctx' & Ep & Hi & _).
  exists ctx0, ctx'. auto.
Defined.

(** ** The putback guard *)

Lemma putBackTimes_eq n : forall argIdx ctx,
  putBackTimes n argIdx ctx =
    if n <=? idx ctx - argIdx then Done (withIdx ctx (idx ctx - n)) else Thrown CursorUnderflow.
Proof.
  induction n as [|n IH]; intros argIdx ctx.
  - simpl. now rewrite Nat.sub_0_r, withIdx_same.
  - cbn [putBackTimes]. unfold putBack.
    destruct (Nat.ltb_spec argIdx (idx ctx)) as [Hlt|Hge].
    + rewrite bind_Done, IH.
      replace (idx (withIdx ctx (idx ctx - 1))) with (idx ctx - 1) by reflexivity.
      destruct (Nat.leb_spec n (idx ctx - 1 - argIdx)),
               (Nat.leb_spec (S n) (idx ctx - argIdx)); try lia; [|reflexivity].
      unfold withIdx. cbn [state args idx]. do 2 f_equal. lia.
    + rewrite bind_Thrown.
      destruct (Nat.leb_spec (S n) (idx ctx - argIdx)); [lia|reflexivity].
Qed.

(** C7 (as the code has it).  Within the step that [next] began at
    [argIdx], a [putBack] succeeds whenever the cursor is beyond [argIdx] and
    moves it back by one; it raises [CursorUnderflow] when the cursor is at
    [argIdx] or before it.  After a peek, one [putBack] restores the context
    in which the peeked token is still to be read; a second [putBack] in the
    same step succeeds as well and hands back the step's own token; the
    third one raises [CursorUnderflow].  In general [n] successive calls
    succeed exactly when [n] does not exceed the number of tokens read since
    the step began. *)
Theorem putBack_guard (ctx : ParserContext) :
  let argIdx := (next ctx).1.2 in
  let afterNext := (next ctx).2 in
  let peeked := (getNext afterNext).1 in
  let afterPeek := (getNext afterNext).2 in
  putBack argIdx afterPeek = Done afterNext /\
  (getNext afterNext).1 = peeked /\
  putBackTimes 2 argIdx afterPeek = Done ctx /\
  putBackTimes 3 argIdx afterPeek = Thrown CursorUnderflow /\
  forall n i c,
    putBackTimes n i c =
      if n <=? idx c - i then Done (withIdx c (idx c - n)) else Thrown CursorUnderflow.
Proof.
  destruct ctx as [st a i]. cbv zeta.
  unfold next, getNext, withIdx. cbn [fst snd idx args state].
  split; [|split; [reflexivity|split; [|split]]].
  - unfold putBack, withIdx. cbn [idx args state].
    destruct (Nat.ltb_spec i (S (S i))); [|lia].
    now replace (S (S i) - 1) with (S i) by lia.
  - rewrite putBackTimes_eq. unfold withIdx. cbn [idx args state].
    destruct (Nat.leb_spec 2 (S (S i) - i)); [|lia].
    now replace (S (S i) - 2) with i by lia.
  - rewrite putBackTimes_eq. cbn [idx].
    destruct (Nat.leb_spec 3 (S (S i) - i)); [lia|reflexivity].
  - intros n j c. apply putBackTimes_eq.
Qed.

(** C7, counterexample to the claim as stated: on the tokens [--x y], in
    the step of [--x], the second [putBack] after the peek of [y] does not
    raise [CursorUnderflow]; it returns the context in which [--x] itself is
    unread. *)
Lemma putBack_twice_no_underflow :
  let ctx := {| state := emptyState (mkCommand [] [] []); args := ["--x"; "y"]; idx := 0 |} in
  let argIdx := (next ctx).1.2 in
  let afterPeek := (getNext (next ctx).2).2 in
  exists afterFirst,
    putBack argIdx afterPeek = Done afterFirst /\
    putBack argIdx afterFirst = Done ctx /\
    putBack argIdx afterFirst <> Thrown CursorUnderflow.
Proof.
  eexists. split; [reflexivity|]. split; [reflexivity|discriminate].
Qed.

(** ** Breakout *)

Lemma parseLoop_breakout c :
  args c !! idx c = Some "--" ->
  parseLoop (length (args c) - idx c) c =
    Done (withIdx (appendParsed (map PositionalArg (drop (S (idx c)) (args c))) c)
                  (length (args c))).
Proof.
  intros Hat. pose proof (lookup_lt_Some _ _ _ Hat) as Hlt.
  destruct (length (args c) - idx c) as [|f] eqn:Ef; [lia|].
  cbn [parseLoop]. rewrite (proj2 (hasNext_true c) Hlt).
  unfold parseStep, next, getNext. rewrite nth_lookup, Hat. cbn [default].
  unfold parseArg. rewrite String.eqb_refl.
  rewrite parseBreakOutArg_spec; [|destruct c; simpl in *; lia..].
  rewrite bind_Done, parseLoop_at_end.
  - destruct c as [[k l s t p] a i]. reflexivity.
  - apply hasNext_false. destruct c as [[k l s t p] a i]. simpl. lia.
Qed.

(** C2 (as the code has it).  Whenever the main loop starts an iteration at
    a token [--] (that is, a [--] that the preceding option has not taken as
    its value), the parse result is the events emitted so far followed by
    one positional event per remaining token, verbatim and in input order;
    the marker itself adds no event. *)
Theorem breakout_rest_positional (cmd : Command) (args0 : list string)
    (ctx0 c : ParserContext) :
  createParserContext cmd args0 = Done ctx0 ->
  reaches ctx0 c ->
  args0 !! idx c = Some "--" ->
  parse cmd args0 =
    Done (parsed (state c) ++ map PositionalArg (drop (S (idx c)) args0)).
Proof.
  intros E R Hat. unfold parse.
  rewrite (parseResults_loop cmd args0 ctx0 E).
  pose proof (createParserContext_Done _ _ _ E) as (Ha & Hi & _).
  assert (idx ctx0 <= length (args ctx0)) as Hlen by lia.
  rewrite (parseLoop_reaches ctx0 c Hlen R).
  assert (args c = args0) as Hac.
  { rewrite <- Ha. apply (reaches_stepsTo ctx0 c Hlen R). }
  rewrite parseLoop_breakout by now rewrite Hac.
  rewrite bind_Done, Hac. destruct c as [[k l s t p] a i]. reflexivity.
Qed.

(** C2, counterexample to the claim as stated: with a string option [foo],
    the tokens [--foo -- -x] give an option event whose value is the first
    [--], and the token [-x] after it is read as a short option, not as a
    positional. *)
Lemma breakout_taken_as_value :
  let cmd := mkCommand [] [("foo", {| type := OptionType.string; aliases := [] |})] [] in
  parse cmd ["--foo"; "--"; "-x"] = Done [OptionArg "foo" "--"; FlagArg "x" true] /\
  ~ In (PositionalArg "-x") [OptionArg "foo" "--"; FlagArg "x" true].
Proof.
  split; [vm_compute; reflexivity|].
  intros [H|[H|[]]]; discriminate.
Qed.

(** The statement of [breakout_rest_positional] at a concrete input: after
    the flag [-a], the loop is at [--]. *)
Lemma breakout_rest_positional_witness :
  parse (mkCommand [] [("a", {| type := OptionType.flag; aliases := [] |})] [])
        ["-a"; "--"; "-x"; "--"; "y"] =
    Done [FlagArg "a" true; PositionalArg "-x"; PositionalArg "--"; PositionalArg "y"].
Proof.
  set (cmd := mkCommand [] [("a", {| type := OptionType.flag; aliases := [] |})] []).
  set (args0 := ["-a"; "--"; "-x"; "--"; "y"]).
  destruct (createParserContext cmd args0) as [ctx0| |] eqn:E; try discriminate.
  destruct (parseStep (length (args ctx0)) ctx0) as [c| |] eqn:Es.
  2,3: vm_compute in E; injection E as <-; vm_compute in Es; discriminate.
  assert (reaches ctx0 c) as R.
  { apply (reaches_step ctx0 ctx0 c); [constructor| |exact Es].
    vm_compute in E. injection E as <-. reflexivity. }
  rewrite (breakout_rest_positional cmd args0 ctx0 c E R).
  - vm_compute in E. injection E as <-. vm_compute in Es. injection Es as <-. reflexivity.
  - vm_compute in E. injection E as <-. vm_compute in Es. injection Es as <-. reflexivity.
Defined.

(** ** String facts *)

Lemma split_no_sep sep s : contains sep s = false -> JsString.split sep s = (s, []).
Proof.
  induction s as [|a r IH]; simpl; [reflexivity|].
  intros [Ha Hr]%orb_false_elim. now rewrite (IH Hr), Ha.
Qed.

Lemma substring_0_length s : substring 0 (String.length s) s = s.
Proof. induction s as [|a r IH]; simpl; [reflexivity|now rewrite IH]. Qed.

Lemma substr_from_0 s : JsString.substr_from s 0 = s.
Proof. unfold JsString.substr_from. rewrite Nat.sub_0_r. apply substring_0_length. Qed.

Lemma substr_from_S a s n : JsString.substr_from (String a s) (S n) = JsString.substr_from s n.
Proof. reflexivity. Qed.

Lemma length_string_of_list l : String.length (string_of_list_ascii l) = length l.
Proof. induction l as [|a l IH]; simpl; [reflexivity|now rewrite IH]. Qed.

Lemma substr_from_last fs l :
  let s := string_of_list_ascii (fs ++ [l]) in
  JsString.substr_from s (String.length s - 1) = String l EmptyString.
Proof.
  cbv zeta. rewrite length_string_of_list, length_app. simpl.
  replace (length fs + 1 - 1) with (length fs) by lia.
  induction fs as [|a fs IH]; [reflexivity|].
  simpl. rewrite substr_from_S. exact IH.
Qed.

Lemma substr_first fs l :
  let s := string_of_list_ascii (fs ++ [l]) in
  JsString.substr s 0 (String.length s - 1) = string_of_list_ascii fs.
Proof.
  cbv zeta. rewrite length_string_of_list, length_app. simpl.
  replace (length fs + 1 - 1) with (length fs) by lia.
  unfold JsString.substr.
  induction fs as [|a fs IH]; [reflexivity|].
  simpl. now rewrite IH.
Qed.

Lemma chars_string_of_list l :
  JsString.chars (string_of_list_ascii l) = map (fun c => String c EmptyString) l.
Proof. unfold JsString.chars. now rewrite list_ascii_of_string_of_list_ascii. Qed.

Lemma flagArg_char c : flagArg (String c EmptyString) = shortFlag c.
Proof.
  assert (JsString.startsWith (String c EmptyString) "no-" = false) as H.
  { unfold JsString.startsWith.
    change (String.prefix "no-" (String c EmptyString))
      with (if ascii_dec "n" c then String.prefix "o-" EmptyString else false).
    now destruct (ascii_dec "n" c). }
  unfold flagArg, shortFlag, JsString.replace_no. now rewrite H.
Qed.

Lemma map_flagArg_chars l :
  map flagArg (map (fun c => String c EmptyString) l) = map shortFlag l.
Proof. rewrite map_map. apply map_ext. intros c. apply flagArg_char. Qed.

Lemma join_split sep v :
  JsString.join (String sep EmptyString)
    ((JsString.split sep v).1 :: (JsString.split sep v).2) = v.
Proof.
  unfold JsString.join. induction v as [|c r IH]; [reflexivity|].
  cbn [JsString.split]. destruct (JsString.split sep r) as [p ps].
  cbn [fst snd] in *. destruct (Ascii.eqb_spec c sep) as [->|Hne]; cbn [fst snd].
  - rewrite <- IH. reflexivity.
  - destruct ps as [|q qs]; rewrite <- IH; reflexivity.
Qed.

Lemma split_at_sep sep s v :
  contains sep s = false ->
  JsString.split sep (s +:+ String sep v) =
    (s, (JsString.split sep v).1 :: (JsString.split sep v).2).
Proof.
  induction s as [|a r IH]; intros H.
  - simpl. destruct (JsString.split sep v) as [p ps].
    now rewrite Ascii.eqb_refl.
  - simpl in H. apply orb_false_elim in H as [Ha Hr].
    simpl. rewrite (IH Hr), Ha. reflexivity.
Qed.

(** ** Short option clusters *)

Lemma parseShortOptionArg_cluster fs l argIdx ctx :
  contains "=" (string_of_list_ascii (fs ++ [l])) = false ->
  parseShortOptionArg (String "-" (string_of_list_ascii (fs ++ [l]))) argIdx ctx =
    parseOptionWithPossibleParameter (String l EmptyString)
      (getShortOption ctx (String l EmptyString)) argIdx
      (appendParsed (map shortFlag fs) ctx).
Proof.
  intros Hne. unfold parseShortOptionArg.
  rewrite substr_from_S, substr_from_0, (split_no_sep _ _ Hne).
  rewrite substr_from_last, substr_first, chars_string_of_list, fold_push_flag,
    map_flagArg_chars.
  reflexivity.
Qed.

Lemma parseShortOptionArg_cluster_value fs l v argIdx ctx :
  contains "=" (string_of_list_ascii (fs ++ [l])) = false ->
  parseShortOptionArg
    (String "-" (string_of_list_ascii (fs ++ [l]) +:+ String "=" v)) argIdx ctx =
    Done (push_option (String l EmptyString) v (appendParsed (map shortFlag fs) ctx)).
Proof.
  intros Hne. unfold parseShortOptionArg.
  rewrite substr_from_S, substr_from_0, (split_at_sep _ _ _ Hne).
  rewrite substr_from_last, substr_first, chars_string_of_list, fold_push_flag,
    map_flagArg_chars.
  now rewrite (join_split "=" v).
Qed.

(** ** Long options and the long-option table *)

Lemma NoDup_all_equal {A : Type} (l : list A) (x : A) :
  NoDup l -> x ∈ l -> (forall y, y ∈ l -> y = x) -> l = [x].
Proof.
  intros Hnd Hx Hall. destruct l as [|a [|b r]].
  - inversion Hx.
  - f_equal. apply Hall. left.
  - exfalso. assert (a = x) as -> by (apply Hall; left).
    assert (b = x) as -> by (apply Hall; right; left).
    inversion Hnd as [|? ? Hnot _]. apply Hnot. left.
Qed.

Lemma StringTree_get_spec {V : Type} (tree : gmap string V) (key : string) (v : V) :
  StringTree.get tree key = Some v <->
  tree !! key = Some v \/
  (tree !! key = None /\
   exists k, tree !! k = Some v /\ String.prefix key k = true /\
             forall k', is_Some (tree !! k') -> String.prefix key k' = true -> k' = k).
Proof.
  unfold StringTree.get, StringTree.prefix.
  destruct (tree !! key) as [v0|] eqn:E.
  { split; [intros [= <-]; now left|intros [H|[H _]]; congruence]. }
  set (P := fun kv : string * V => String.prefix key kv.1 = true).
  assert (forall k' v', (k', v') ∈ map_to_list (filter P tree) <->
                        tree !! k' = Some v' /\ String.prefix key k' = true) as Hin.
  { intros k' v'. rewrite elem_of_map_to_list, map_lookup_filter_Some. reflexivity. }
  split.
  - intros H. right. split; [reflexivity|].
    destruct (map_to_list (filter P tree)) as [|[k v1] [|? ?]] eqn:Ep; try discriminate.
    injection H as ->. exists k.
    destruct (proj1 (Hin k v)) as [Hk Hp]; [left|].
    repeat split; try assumption.
    intros k' [v' Hk'] Hp'.
    assert ((k', v') ∈ [(k, v)]) as Hel by (apply Hin; auto).
    apply list_elem_of_singleton in Hel. congruence.
  - intros [H|[_ (k & Hk & Hp & Hu)]]; [discriminate|].
    rewrite (NoDup_all_equal (map_to_list (filter P tree)) (k, v)); [reflexivity| | |].
    + apply NoDup_map_to_list.
    + apply Hin. auto.
    + intros [k' v'] [Hk' Hp']%Hin.
      assert (k' = k) as -> by (apply Hu; eauto). congruence.
Qed.

Lemma parseLongOptionArg_lookup name argIdx ctx :
  contains "=" name = false ->
  parseLongOptionArg (String "-" (String "-" name)) argIdx ctx =
    parseOptionWithPossibleParameter name (StringTree.get (longOptions (state ctx)) name)
      argIdx ctx.
Proof.
  intros Hne. unfold parseLongOptionArg.
  rewrite !substr_from_S, substr_from_0, (split_no_sep _ _ Hne). reflexivity.
Qed.

Lemma parseLongOptionArg_value name v argIdx ctx :
  contains "=" name = false ->
  parseLongOptionArg (String "-" (String "-" name) +:+ String "=" v) argIdx ctx =
    Done (push_option name v ctx).
Proof.
  intros Hne. unfold parseLongOptionArg.
  change (String "-" (String "-" name) +:+ String "=" v)
    with (String "-" (String "-" (name +:+ String "=" v))).
  rewrite !substr_from_S, substr_from_0, (split_at_sep _ _ _ Hne).
  now rewrite (join_split "=" v).
Qed.

(** C1.  With the long options [food] (flag) and [foobar] (string)
    declared, the registry resolves [foob] to the entry of [foobar], and the
    tokens [--foob val] give one option event that carries [val], for every
    [val].  In general a long option token without [=] is resolved by
    [StringTree.get] on the long-option table, which returns the entry stored
    under the name itself or, when there is none, the entry of the only key
    that starts with the name. *)
Theorem unique_prefix_long_option :
  (forall val,
     let cmd := mkCommand []
                  [("food", {| type := OptionType.flag; aliases := [] |});
                   ("foobar", {| type := OptionType.string; aliases := [] |})] [] in
     (exists ctx0,
        createParserContext cmd ["--foob"; val] = Done ctx0 /\
        getLongOption ctx0 "foob" =
          Some {| name := "foobar"; def := {| type := OptionType.string; aliases := [] |} |}) /\
     parse cmd ["--foob"; val] = Done [OptionArg "foob" val]) /\
  (forall name argIdx ctx,
     contains "=" name = false ->
     parseLongOptionArg (String "-" (String "-" name)) argIdx ctx =
       parseOptionWithPossibleParameter name (getLongOption ctx name) argIdx ctx) /\
  (forall ctx name o,
     getLongOption ctx name = Some o <->
     longOptions (state ctx) !! name = Some o \/
     (longOptions (state ctx) !! name = None /\
      exists k, longOptions (state ctx) !! k = Some o /\ String.prefix name k = true /\
                forall k', is_Some (longOptions (state ctx) !! k') ->
                           String.prefix name k' = true -> k' = k)).
Proof.
  split; [|split].
  - intros val. cbv zeta. split.
    + eexists. split; vm_compute; reflexivity.
    + vm_compute. reflexivity.
  - intros. now apply parseLongOptionArg_lookup.
  - intros. apply StringTree_get_spec.
Qed.

(** The statement of [unique_prefix_long_option] at concrete tokens. *)
Lemma unique_prefix_long_option_witness :
  let ctx := {| state := emptyState (mkCommand [] [] []); args := ["--verbose"]; idx := 1 |} in
  parseLongOptionArg "--verbose" 0 ctx = Done (appendParsed [FlagArg "verbose" true] ctx).
Proof.
  cbv zeta.
  rewrite (proj1 (proj2 unique_prefix_long_option) "verbose") by reflexivity.
  reflexivity.
Defined.

(** ** What the registry holds after a successful build *)

Lemma StringTree_get_exact {V : Type} (tree : gmap string V) (k : string) (v : V) :
  tree !! k = Some v -> StringTree.get tree k = Some v.
Proof. intros H. apply StringTree_get_spec. now left. Qed.

Lemma StringTree_get_None {V : Type} (tree : gmap string V) (k : string) :
  StringTree.get tree k = None -> tree !! k = None.
Proof.
  intros H. destruct (tree !! k) as [v|] eqn:E; [|reflexivity].
  apply StringTree_get_exact in E. congruence.
Qed.

Lemma typesKept_refl st : typesKept st st.
Proof. intros k n H. eauto. Qed.

Lemma typesKept_trans st1 st2 st3 :
  typesKept st1 st2 -> typesKept st2 st3 -> typesKept st1 st3.
Proof.
  intros H12 H23 k n H. destruct (H12 k n H) as (n2 & H2 & T2).
  destruct (H23 k n2 H2) as (n3 & H3 & T3). exists n3. split; congruence.
Qed.

Lemma registerAlias_long opt namedOpt st alias st' :
  type (def namedOpt) = type opt ->
  registerAlias opt namedOpt st alias = Done st' ->
  typesKept st st' /\
  (String.length alias <> 1 -> longOptions st' !! alias = Some namedOpt).
Proof.
  intros Ht. unfold registerAlias.
  destruct (Nat.eqb_spec (String.length alias) 1) as [H1|H1].
  { intros [= <-]. split; [intros k n H; simpl; eauto|contradiction]. }
  assert (forall existing, longOptions st !! alias = Some existing ->
                           type (def existing) = type opt ->
            typesKept st
              {| knownOptionNames := knownOptionNames st;
                 longOptions := StringTree.set (longOptions st) alias namedOpt;
                 shortOptions := shortOptions st;
                 topCommand := topCommand st;
                 parsed := parsed st |}) as Hsame.
  { intros existing He Hte k n Hk. simpl. unfold StringTree.set.
    destruct (decide (alias = k)) as [<-|Hne].
    - rewrite lookup_insert_eq. exists namedOpt. split; [reflexivity|]. congruence.
    - rewrite lookup_insert_ne by assumption. eauto. }
  assert (longOptions st !! alias = None ->
            typesKept st
              {| knownOptionNames := knownOptionNames st;
                 longOptions := StringTree.set (longOptions st) alias namedOpt;
                 shortOptions := shortOptions st;
                 topCommand := topCommand st;
                 parsed := parsed st |}) as Hfresh.
  { intros He k n Hk. simpl. unfold StringTree.set.
    rewrite lookup_insert_ne by congruence. eauto. }
  destruct (StringTree.get (longOptions st) alias) as [existing|] eqn:Eg.
  - destruct (bool_decide_reflect (type (def existing) ≠ type opt)) as [Hd|Hd];
      [discriminate|].
    intros [= <-]. split.
    + destruct (longOptions st !! alias) as [e|] eqn:El.
      * apply (Hsame e eq_refl). apply StringTree_get_exact in El.
        assert (e = existing) as -> by congruence.
        destruct (decide (type (def existing) = type opt)); [assumption|contradiction].
      * now apply Hfresh.
    + intros _. simpl. unfold StringTree.set. apply lookup_insert_eq.
  - intros [= <-]. split.
    + apply Hfresh. now apply StringTree_get_None.
    + intros _. simpl. unfold StringTree.set. apply lookup_insert_eq.
Qed.

Lemma forEach_registerAlias opt namedOpt l : forall st st',
  type (def namedOpt) = type opt ->
  forEach (registerAlias opt namedOpt) l st = Done st' ->
  typesKept st st' /\
  forall a, In a l -> String.length a <> 1 -> registeredLong st' a opt.
Proof.
  induction l as [|a l IH]; intros st st' Ht E; simpl in E.
  - injection E as <-. split; [apply typesKept_refl|intros ? []].
  - apply bind_inv_Done in E as (st1 & E1 & E2).
    destruct (registerAlias_long _ _ _ _ _ Ht E1) as [K1 R1].
    destruct (IH _ _ Ht E2) as [K2 R2].
    split; [eapply typesKept_trans; eauto|].
    intros b [<-|Hb] Hlen; [|now apply R2].
    destruct (K2 a namedOpt (R1 Hlen)) as (n' & Hn' & Tn').
    exists n'. split; congruence.
Qed.

Lemma addKnownOptionToState_registers st name opt st' :
  addKnownOptionToState st name opt = Done st' ->
  typesKept st st' /\
  forall a, In a (expandAliases name opt) -> String.length a <> 1 ->
            registeredLong st' a opt.
Proof.
  unfold addKnownOptionToState. intros E.
  apply forEach_registerAlias in E; [|reflexivity]. exact E.
Qed.

Lemma registeredLong_kept st st' a opt :
  typesKept st st' -> registeredLong st a opt -> registeredLong st' a opt.
Proof.
  intros K (n & Hn & Tn). destruct (K a n Hn) as (n' & Hn' & Tn').
  exists n'. split; congruence.
Qed.

Lemma forEach_addKnownOption_registers l : forall st st',
  forEach (fun s (entry : string * CommandOption) =>
             addKnownOptionToState s entry.1 entry.2) l st = Done st' ->
  typesKept st st' /\
  forall name opt a, In (name, opt) l -> In a (expandAliases name opt) ->
                     String.length a <> 1 -> registeredLong st' a opt.
Proof.
  induction l as [|[n o] l IH]; intros st st' E; simpl in E.
  - injection E as <-. split; [apply typesKept_refl|intros ? ? ? []].
  - apply bind_inv_Done in E as (st1 & E1 & E2).
    destruct (addKnownOptionToState_registers _ _ _ _ E1) as [K1 R1].
    destruct (IH _ _ E2) as [K2 R2].
    split; [eapply typesKept_trans; eauto|].
    intros name opt a [[= <- <-]|Hin] Ha Hlen.
    + eapply registeredLong_kept; eauto.
    + eapply R2; eauto.
Qed.

Lemma createParserContext_registers cmd args0 ctx0 name opt a :
  createParserContext cmd args0 = Done ctx0 ->
  In (name, opt) (allOptions cmd) -> In a (expandAliases name opt) ->
  String.length a <> 1 -> registeredLong (state ctx0) a opt.
Proof.
  unfold createParserContext. rewrite addKnownCommandToState_allOptions.
  intros E. apply bind_inv_Done in E as (st & E & [= <-]). simpl.
  apply forEach_addKnownOption_registers in E as [_ R]. apply R.
Qed.

Lemma forEach_thrown {A S : Type} (body : S -> A -> Outcome S) (Q : Error -> Prop) (l : list A) :
  (forall s a e, body s a = Thrown e -> Q e) ->
  forall s e, forEach body l s = Thrown e -> Q e.
Proof.
  intros Hbody. induction l as [|a l IH]; intros s e E; simpl in E; [discriminate|].
  destruct (body s a) as [s'| |] eqn:Eb; simpl in E; try discriminate.
  - eauto.
  - injection E as <-. eauto.
Qed.

Lemma createParserContext_thrown cmd args0 e :
  createParserContext cmd args0 = Thrown e ->
  exists alias existing new, e = ConflictingOptionDefinition alias existing new /\ existing <> new.
Proof.
  unfold createParserContext. rewrite addKnownCommandToState_allOptions.
  intros E.
  destruct (forEach _ (allOptions cmd) (emptyState cmd)) as [st| |] eqn:Ef;
    simpl in E; try discriminate.
  injection E as <-.
  set (Q := fun e : Error => exists alias existing new,
              e = ConflictingOptionDefinition alias existing new /\ existing <> new).
  apply (forEach_thrown _ Q _) in Ef; [exact Ef|].
  intros s [n o] e. unfold addKnownOptionToState. apply (forEach_thrown _ Q).
  intros s' a e'. unfold registerAlias, Q. cbn [fst snd].
  destruct (Nat.eqb _ 1); [discriminate|].
  destruct (StringTree.get _ a) as [existing|]; [|discriminate].
  destruct (bool_decide_reflect (type (def existing) ≠ type o)) as [Hd|Hd];
    [|discriminate].
  intros [= <-]. eauto.
Qed.

(** ** Conflicting definitions *)

(** Two definitions of different kinds under one long alias make the build
    fail, whatever the tokens. *)
Lemma long_alias_conflict_detected cmd args0 n1 o1 n2 o2 a :
  In (n1, o1) (allOptions cmd) -> In (n2, o2) (allOptions cmd) ->
  In a (expandAliases n1 o1) -> In a (expandAliases n2 o2) ->
  String.length a <> 1 -> type o1 <> type o2 ->
  exists alias existing new,
    createParserContext cmd args0 = Thrown (ConflictingOptionDefinition alias existing new) /\
    parse cmd args0 = Thrown (ConflictingOptionDefinition alias existing new).
Proof.
  intros H1 H2 A1 A2 Hlen Hne.
  destruct (createParserContext cmd args0) as [ctx0|e|] eqn:E.
  - exfalso. apply Hne.
    destruct (createParserContext_registers _ _ _ _ _ _ E H1 A1 Hlen) as (m1 & L1 & T1).
    destruct (createParserContext_registers _ _ _ _ _ _ E H2 A2 Hlen) as (m2 & L2 & T2).
    congruence.
  - destruct (createParserContext_thrown _ _ _ E) as (alias & t1 & t2 & -> & _).
    exists alias, t1, t2. split; [reflexivity|].
    unfold parse, parseResults. now rewrite E.
  - now apply createParserContext_fuel_free in E.
Qed.

(** Registering an alias again with the same definition changes nothing. *)
Lemma registerAlias_idempotent opt namedOpt st alias st' :
  type (def namedOpt) = type opt ->
  registerAlias opt namedOpt st alias = Done st' ->
  registerAlias opt namedOpt st' alias = Done st'.
Proof.
  intros Ht E.
  assert (String.length alias <> 1 -> longOptions st' !! alias = Some namedOpt) as Hl
    by apply (registerAlias_long _ _ _ _ _ Ht E).
  revert E. unfold registerAlias.
  destruct (Nat.eqb_spec (String.length alias) 1) as [H1|H1].
  - intros [= <-]. simpl. now rewrite insert_insert_eq.
  - intros E. rewrite (StringTree_get_exact _ _ _ (Hl H1)).
    destruct (bool_decide_reflect (type (def namedOpt) ≠ type opt)) as [Hd|_];
      [contradiction|].
    destruct st' as [k l s t p]. simpl in *. unfold StringTree.set.
    now rewrite (insert_id _ _ _ (Hl H1)).
Qed.

(** C3, the behaviour at the failing input: two options of different kinds
    share the one-character alias [v]; the build succeeds and the
    short-option table keeps the definition registered last.  The same two
    options sharing the long alias [ver] make the build fail. *)
Theorem short_alias_conflict_undetected :
  let verbose v := ("verbose", {| type := OptionType.flag; aliases := [v] |}) in
  let version v := ("version", {| type := OptionType.string; aliases := [v] |}) in
  (exists ctx0,
     createParserContext (mkCommand [] [verbose "v"; version "v"] []) [] = Done ctx0 /\
     getShortOption ctx0 "v" = Some {| name := "version"; def := (version "v").2 |}) /\
  parse (mkCommand [] [verbose "v"; version "v"] []) ["-v"; "-x"] =
    Done [OptionArg "v" "-x"] /\
  createParserContext (mkCommand [] [verbose "ver"; version "ver"] []) [] =
    Thrown (ConflictingOptionDefinition "ver" OptionType.flag OptionType.string).
Proof.
  cbv zeta. split; [|split].
  - eexists. split; vm_compute; reflexivity.
  - vm_compute. reflexivity.
  - vm_compute. reflexivity.
Qed.

(** ** Flags and their negation *)

Lemma flagArg_plain x : JsString.startsWith x "no-" = false -> flagArg x = FlagArg x true.
Proof. intros H. unfold flagArg, JsString.replace_no. now rewrite H. Qed.

Lemma flagArg_negated x : flagArg ("no-" +:+ x) = FlagArg x false.
Proof.
  assert (JsString.startsWith ("no-" +:+ x) "no-" = true) as H.
  { unfold JsString.startsWith.
    change (String.prefix "no-" ("no-" +:+ x)) with (String.prefix EmptyString x).
    now destruct x. }
  unfold flagArg, JsString.replace_no. rewrite H.
  change ("no-" +:+ x) with (String "n" (String "o" (String "-" x))).
  now rewrite !substr_from_S, substr_from_0.
Qed.

Lemma parseStep_long_token fuel c name :
  args c !! idx c = Some (String "-" (String "-" name)) ->
  name <> EmptyString -> contains "=" name = false ->
  parseStep fuel c =
    parseOptionWithPossibleParameter name (getLongOption c name) (idx c)
      (withIdx c (S (idx c))).
Proof.
  intros Hat Hne Heq. unfold parseStep, next, getNext.
  rewrite (nth_of_lookup _ _ _ Hat). unfold parseArg.
  destruct name as [|a r]; [contradiction|].
  change (String.eqb (String "-" (String "-" (String a r))) "--") with false.
  change (String.eqb (String "-" (String "-" (String a r))) "-") with false.
  change (JsString.startsWith (String "-" (String "-" (String a r))) "--") with true.
  cbv iota. now rewrite parseLongOptionArg_lookup.
Qed.

Lemma parseStep_known_flag fuel c name n :
  args c !! idx c = Some (String "-" (String "-" name)) ->
  name <> EmptyString -> contains "=" name = false ->
  getLongOption c name = Some n -> isFlagTypeOption (def n) = true ->
  parseStep fuel c = Done (appendParsed [flagArg name] (withIdx c (S (idx c)))).
Proof.
  intros Hat Hne Heq Hn Hf.
  rewrite (parseStep_long_token fuel c name Hat Hne Heq), Hn.
  rewrite parseOptionWithPossibleParameter_eq by (simpl; lia).
  unfold consumesParameter. rewrite Hf. cbn [negb]. now rewrite andb_false_r.
Qed.

Lemma isFlagTypeOption_type o o' :
  type o = type o' -> isFlagTypeOption o = isFlagTypeOption o'.
Proof. unfold isFlagTypeOption. now intros ->. Qed.

Lemma reaches_getLongOption cmd args0 ctx0 c name :
  createParserContext cmd args0 = Done ctx0 -> reaches ctx0 c ->
  getLongOption c name = getLongOption ctx0 name /\ args c = args0.
Proof.
  intros E R. pose proof (createParserContext_Done _ _ _ E) as (Ha & Hi & _).
  assert (idx ctx0 <= length (args ctx0)) as Hlen by lia.
  destruct (reaches_stepsTo ctx0 c Hlen R) as ((Hargs & Hl & _) & _).
  unfold getLongOption. rewrite Hl. split; congruence.
Qed.

Lemma expandAliases_spec name opt a :
  In a (expandAliases name opt) <->
  In a (name :: aliases opt) \/
  (isFlagTypeOption opt = true /\
   exists b, In b (name :: aliases opt) /\ 1 < String.length b /\ a = "no-" +:+ b).
Proof.
  unfold expandAliases. destruct (isFlagTypeOption opt).
  - rewrite in_app_iff, in_map_iff. split.
    + intros [H|(b & <- & Hb)]; [now left|right].
      apply list_elem_of_In, list_elem_of_filter in Hb as [Hlen Hb].
      split; [reflexivity|]. exists b. rewrite <- list_elem_of_In. auto.
    + intros [H|(_ & b & Hb & Hlen & ->)]; [now left|right].
      exists b. split; [reflexivity|].
      apply list_elem_of_In, list_elem_of_filter. rewrite list_elem_of_In. auto.
  - split; [now left|]. intros [H|[H _]]; [assumption|discriminate].
Qed.

Lemma createParserContext_flag_known cmd args0 ctx0 x opt :
  createParserContext cmd args0 = Done ctx0 ->
  In (x, opt) (allOptions cmd) -> isFlagTypeOption opt = true -> 1 < String.length x ->
  (exists n, getLongOption ctx0 x = Some n /\ isFlagTypeOption (def n) = true) /\
  (exists n, getLongOption ctx0 ("no-" +:+ x) = Some n /\ isFlagTypeOption (def n) = true).
Proof.
  intros E Hin Hflag Hlen. split.
  - destruct (createParserContext_registers _ _ _ x opt x E Hin) as (n & L & T).
    + apply expandAliases_spec. left. now left.
    + lia.
    + exists n. split; [now apply StringTree_get_exact|].
      now rewrite (isFlagTypeOption_type _ _ T).
  - destruct (createParserContext_registers _ _ _ x opt ("no-" +:+ x) E Hin) as (n & L & T).
    + apply expandAliases_spec. right. split; [assumption|].
      exists x. repeat split; [now left|assumption].
    + simpl. lia.
    + exists n. split; [now apply StringTree_get_exact|].
      now rewrite (isFlagTypeOption_type _ _ T).
Qed.

(** C4 (as the code has it).  For a flag-like option declared anywhere in
    the schema under a name [x] of more than one character that contains no
    [=]: when the loop is at the token [--no-x], the step emits exactly
    flag(x,false); when it is at [--x] and [x] does not itself begin with
    [no-], the step emits exactly flag(x,true); in both cases the following
    token is left for the next step.  Negated variants are only generated
    for aliases longer than one character, the flag event of a
    one-character name carries that name and [true], and the flag event of
    any name that begins with [no-] carries the rest of the name and
    [false]. *)
Theorem flag_negation :
  (forall cmd args0 ctx0 c x opt,
     createParserContext cmd args0 = Done ctx0 -> reaches ctx0 c ->
     In (x, opt) (allOptions cmd) -> isFlagTypeOption opt = true ->
     1 < String.length x -> contains "=" x = false ->
     (args0 !! idx c = Some ("--" +:+ x) -> JsString.startsWith x "no-" = false ->
      parseStep (length (args c)) c =
        Done (appendParsed [FlagArg x true] (withIdx c (S (idx c))))) /\
     (args0 !! idx c = Some ("--no-" +:+ x) ->
      parseStep (length (args c)) c =
        Done (appendParsed [FlagArg x false] (withIdx c (S (idx c)))))) /\
  (forall name opt a,
     In a (expandAliases name opt) <->
     In a (name :: aliases opt) \/
     (isFlagTypeOption opt = true /\
      exists b, In b (name :: aliases opt) /\ 1 < String.length b /\ a = "no-" +:+ b)) /\
  (forall ch, flagArg (String ch EmptyString) = FlagArg (String ch EmptyString) true) /\
  (forall y, flagArg ("no-" +:+ y) = FlagArg y false).
Proof.
  split; [|split; [|split]].
  - intros cmd args0 ctx0 c x opt E R Hin Hflag Hlen Heq.
    destruct (createParserContext_flag_known _ _ _ _ _ E Hin Hflag Hlen)
      as [(n & Hn & Hfn) (m & Hm & Hfm)].
    destruct (reaches_getLongOption _ _ _ _ x E R) as [Gx Ha].
    destruct (reaches_getLongOption _ _ _ _ ("no-" +:+ x) E R) as [Gn _].
    rewrite <- Gx in Hn. rewrite <- Gn in Hm. rewrite <- Ha.
    split.
    + intros Hat Hplain.
      rewrite (parseStep_known_flag _ c x n); try assumption.
      * now rewrite flagArg_plain.
      * intros ->. simpl in Hlen. lia.
    + intros Hat.
      rewrite (parseStep_known_flag _ c ("no-" +:+ x) m); try assumption.
      * now rewrite flagArg_negated.
      * discriminate.
  - apply expandAliases_spec.
  - apply flagArg_char.
  - apply flagArg_negated.
Qed.

(** C4, counterexample to the claim as stated: the flag option named
    [no-color] has more than one character, yet [--no-color] gives
    flag(color,false), not flag(no-color,true). *)
Lemma flag_named_no_is_negated :
  let cmd := mkCommand [] [("no-color", {| type := OptionType.flag; aliases := [] |})] [] in
  parse cmd ["--no-color"] = Done [FlagArg "color" false] /\
  parse cmd ["--no-color"] <> Done [FlagArg "no-color" true].
Proof.
  split; [vm_compute; reflexivity|vm_compute; discriminate].
Qed.

(** The statement of [flag_negation] at the flag [verbose]. *)
Lemma flag_negation_witness :
  let opt := {| type := OptionType.flag; aliases := [] |} in
  let cmd := mkCommand [] [("verbose", opt)] [] in
  exists ctx0,
    createParserContext cmd ["--no-verbose"; "x"] = Done ctx0 /\
    parseStep (length (args ctx0)) ctx0 =
      Done (appendParsed [FlagArg "verbose" false] (withIdx ctx0 (S (idx ctx0)))).
Proof.
  cbv zeta.
  set (opt := {| type := OptionType.flag; aliases := [] |}).
  set (cmd := mkCommand [] [("verbose", opt)] []).
  destruct (createParserContext cmd ["--no-verbose"; "x"]) as [ctx0| |] eqn:E;
    [|vm_compute in E; discriminate..].
  exists ctx0. split; [reflexivity|].
  apply (proj2 (proj1 flag_negation cmd ["--no-verbose"; "x"] ctx0 ctx0 "verbose" opt
                  E (reaches_start ctx0) (or_introl eq_refl) eq_refl
                  ltac:(simpl; lia)
                  eq_refl)).
  rewrite (proj1 (proj2 (createParserContext_Done _ _ _ E))). reflexivity.
Defined.

(** ** Event names *)

Lemma parse_single_long cmd name ctx0 :
  createParserContext cmd [String "-" (String "-" name)] = Done ctx0 ->
  name <> EmptyString -> contains "=" name = false ->
  parse cmd [String "-" (String "-" name)] = Done [flagArg name].
Proof.
  intros E Hne Heq. unfold parse. rewrite (parseResults_loop _ _ _ E).
  apply createParserContext_Done in E as (Ha & Hi & Hp & _).
  destruct ctx0 as [[k lo sh t p] a i]. cbn [args idx state parsed] in Ha, Hi, Hp.
  subst a i p. cbn [args idx length Nat.sub].
  rewrite parseLoop_unfold by reflexivity.
  rewrite (parseStep_long_token 0 _ name) by (try reflexivity; assumption).
  rewrite parseOptionWithPossibleParameter_eq by (cbn; lia).
  reflexivity.
Qed.

Lemma parse_long_with_value cmd name val ctx0 o :
  createParserContext cmd [String "-" (String "-" name); val] = Done ctx0 ->
  name <> EmptyString -> contains "=" name = false ->
  getLongOption ctx0 name = Some o -> isFlagTypeOption (def o) = false ->
  parse cmd [String "-" (String "-" name); val] = Done [OptionArg name val].
Proof.
  intros E Hne Heq Ho Hk. unfold parse. rewrite (parseResults_loop _ _ _ E).
  apply createParserContext_Done in E as (Ha & Hi & Hp & _).
  destruct ctx0 as [[k lo sh t p] a i]. cbn [args idx state parsed] in Ha, Hi, Hp.
  subst a i p. cbn [args idx length Nat.sub].
  rewrite parseLoop_unfold by reflexivity.
  rewrite (parseStep_long_token 1 _ name) by (try reflexivity; assumption).
  rewrite Ho.
  rewrite parseOptionWithPossibleParameter_eq by (cbn; lia).
  unfold consumesParameter. rewrite Hk. reflexivity.
Qed.

(** C6 (as the code has it).  The event of an option or flag carries the
    name as it was typed, whatever definition the name resolves to and
    whatever the primary name of that definition is: the possible-parameter
    decision emits either the flag event of the typed name (a leading [no-]
    removed) or an option event with the typed name.  A lone token [--name]
    gives the flag event of [name]; [--name val], with [name] resolved to a
    value-taking definition, gives option(name,val). *)
Theorem event_name_as_typed :
  (forall name opt argIdx ctx,
     argIdx <= idx ctx ->
     exists ctx',
       parseOptionWithPossibleParameter name opt argIdx ctx = Done ctx' /\
       (parsed (state ctx') =
          parsed (state ctx) ++
            [FlagArg (JsString.replace_no name) (negb (JsString.startsWith name "no-"))] \/
        exists v, parsed (state ctx') = parsed (state ctx) ++ [OptionArg name v])) /\
  (forall cmd name ctx0,
     createParserContext cmd [String "-" (String "-" name)] = Done ctx0 ->
     name <> EmptyString -> contains "=" name = false ->
     parse cmd [String "-" (String "-" name)] = Done [flagArg name]) /\
  (forall cmd name val ctx0 o,
     createParserContext cmd [String "-" (String "-" name); val] = Done ctx0 ->
     name <> EmptyString -> contains "=" name = false ->
     getLongOption ctx0 name = Some o -> isFlagTypeOption (def o) = false ->
     parse cmd [String "-" (String "-" name); val] = Done [OptionArg name val]).
Proof.
  split; [|split].
  - intros name opt argIdx ctx Hle.
    rewrite parseOptionWithPossibleParameter_eq by assumption.
    eexists. split; [reflexivity|].
    destruct (hasNext ctx && consumesParameter opt (getNext ctx).1).
    + right. eexists. reflexivity.
    + left. reflexivity.
  - apply parse_single_long.
  - apply parse_long_with_value.
Qed.

(** C6, counterexample to the claim as stated: the flag [a] has the alias
    [opt4]; [--opt4] resolves to the definition whose primary name is [a],
    and the event is flag(opt4,true), not flag(a,true). *)
Lemma alias_event_keeps_alias :
  let cmd := mkCommand [] [("a", {| type := OptionType.flag; aliases := ["opt4"] |})] [] in
  parse cmd ["--opt4"; "x"] = Done [FlagArg "opt4" true; PositionalArg "x"] /\
  (exists ctx0 o,
     createParserContext cmd ["--opt4"; "x"] = Done ctx0 /\
     getLongOption ctx0 "opt4" = Some o /\ name o = "a") /\
  parse cmd ["--opt4"; "x"] <> Done [FlagArg "a" true; PositionalArg "x"].
Proof.
  cbv zeta. split; [vm_compute; reflexivity|]. split.
  - eexists. eexists. split; [vm_compute; reflexivity|].
    split; vm_compute; reflexivity.
  - vm_compute. discriminate.
Qed.

(** The statement of [event_name_as_typed] at the alias [out] of the string
    option [o]. *)
Lemma event_name_as_typed_witness :
  parse (mkCommand [] [("o", {| type := OptionType.string; aliases := ["out"] |})] [])
        ["--out"; "f.txt"] = Done [OptionArg "out" "f.txt"].
Proof.
  set (cmd := mkCommand [] [("o", {| type := OptionType.string; aliases := ["out"] |})] []).
  destruct (createParserContext cmd ["--out"; "f.txt"]) as [ctx0| |] eqn:E;
    [|vm_compute in E; discriminate..].
  apply (proj2 (proj2 event_name_as_typed) cmd "out" "f.txt" ctx0
           {| name := "o"; def := {| type := OptionType.string; aliases := ["out"] |} |} E).
  - discriminate.
  - reflexivity.
  - vm_compute in E. injection E as <-. vm_compute. reflexivity.
  - reflexivity.
Defined.

(** ** Completion suggestions *)

Lemma setAdd_In s x n : In n (setAdd s x) <-> In n s \/ n = x.
Proof.
  unfold setAdd. destruct (bool_decide_reflect (x ∈ s)) as [Hx|Hx].
  - split; [now left|]. intros [H| ->]; [assumption|now apply list_elem_of_In].
  - rewrite in_app_iff. simpl. intuition auto.
Qed.

Lemma addKnownOptionToState_names st name opt st' :
  addKnownOptionToState st name opt = Done st' ->
  knownOptionNames st' = setAdd (knownOptionNames st) name.
Proof.
  unfold addKnownOptionToState. intros E.
  apply (forEach_invariant _
           (fun s => knownOptionNames s = setAdd (knownOptionNames st) name) _) in E.
  - exact E.
  - intros s a s' Hs Hr. apply registerAlias_keeps in Hr as (_ & _ & Hk). congruence.
  - reflexivity.
Qed.

Lemma forEach_addKnownOption_names l : forall st st',
  forEach (fun s (entry : string * CommandOption) =>
             addKnownOptionToState s entry.1 entry.2) l st = Done st' ->
  forall n, In n (knownOptionNames st') <-> In n (knownOptionNames st) \/ In n (map fst l).
Proof.
  induction l as [|[x o] l IH]; intros st st' E n; simpl in E.
  - injection E as <-. simpl. tauto.
  - apply bind_inv_Done in E as (st1 & E1 & E2).
    rewrite (IH _ _ E2), (addKnownOptionToState_names _ _ _ _ E1), setAdd_In.
    simpl. intuition auto.
Qed.

Lemma createParserContext_names cmd args0 ctx0 n :
  createParserContext cmd args0 = Done ctx0 ->
  In n (getAllOptionNames ctx0) <-> In n (map fst (allOptions cmd)).
Proof.
  unfold createParserContext. rewrite addKnownCommandToState_allOptions.
  intros E. apply bind_inv_Done in E as (st & E & [= <-]).
  unfold getAllOptionNames. simpl.
  rewrite (forEach_addKnownOption_names _ _ _ E). simpl. tauto.
Qed.

Lemma parseResults_registry cmd args0 ctx :
  parseResults cmd args0 = Done ctx ->
  exists ctx0, createParserContext cmd args0 = Done ctx0 /\ sameRegistry ctx0 ctx.
Proof.
  unfold parseResults. intros E. apply bind_inv_Done in E as (ctx0 & E0 & E).
  exists ctx0. split; [assumption|].
  pose proof (createParserContext_Done _ _ _ E0) as (Ha & Hi & _).
  destruct (parseLoop_terminates (length args0) ctx0) as (c' & E' & S'); [lia|rewrite Ha; lia|].
  rewrite E in E'. injection E' as <-. apply S'.
Qed.

Lemma singularNames_spec os : forall names,
  singularNames os = Done names ->
  forall n, In n names <->
            exists o, In (Some o) os /\ isSingularOpt (def o) = true /\ name o = n.
Proof.
  induction os as [|[o|] os IH]; intros names E n; simpl in E; try discriminate.
  - injection E as <-. simpl. split; [intros []|intros (o & [] & _)].
  - apply bind_inv_Done in E as (rest & Er & [= <-]).
    specialize (IH rest Er n).
    destruct (isSingularOpt (def o)) eqn:Es; simpl; rewrite IH; split.
    + intros [<-|(o' & Hin & Hs & Hn)]; [exists o; auto|exists o'; auto].
    + intros (o' & [[= <-]|Hin] & Hs & Hn); [now left|right; eauto].
    + intros (o' & Hin & Hs & Hn). exists o'. auto.
    + intros (o' & [[= <-]|Hin] & Hs & Hn); [congruence|eauto].
Qed.


Lemma optionsPassed_In ctx o :
  In (Some o)
     (map (fun n => if Nat.eqb (String.length n) 1
                    then getShortOption ctx n else getLongOption ctx n)
          (map argName (List.filter isOptionArg (getResults ctx)))) <->
  exists typed v, In (OptionArg typed v) (getResults ctx) /\ getOption ctx typed = Some o.
Proof.
  rewrite map_map, in_map_iff. split.
  - intros (ev & Hev & Hin). apply filter_In in Hin as [Hin Hopt].
    destruct ev as [| |typed v|]; try discriminate. exists typed, v. auto.
  - intros (typed & v & Hin & Ho). exists (OptionArg typed v). split; [exact Ho|].
    apply filter_In. auto.
Qed.

Lemma getOptionsNotUsed_spec ctx l :
  getOptionsNotUsed ctx = Done l ->
  forall n, In n l <-> In n (getAllOptionNames ctx) /\ ~ consumedByOptionEvent ctx n.
Proof.
  unfold getOptionsNotUsed. intros E n.
  apply bind_inv_Done in E as (consumed & Ec & [= <-]).
  pose proof (singularNames_spec _ _ Ec n) as Hc.
  rewrite filter_In, negb_true_iff, bool_decide_eq_false, list_elem_of_In, Hc.
  unfold consumedByOptionEvent.
  split; intros [Hn Hnot]; (split; [assumption|]); intros H; apply Hnot.
  - destruct H as (typed & v & o & Hin & Ho & Hs & Hname).
    exists o. split; [|auto]. apply optionsPassed_In. eauto.
  - destruct H as (o & Hin & Hs & Hname).
    apply optionsPassed_In in Hin as (typed & v & Hin & Ho).
    exists typed, v, o. auto.
Qed.

(** ** The output sequence is only appended to *)

Lemma appendParsed_prepend pre evs c :
  appendParsed evs (prependParsed pre c) = prependParsed pre (appendParsed evs c).
Proof.
  destruct c as [[k l s t p] a i]. unfold appendParsed, prependParsed, withState. simpl.
  now rewrite app_assoc.
Qed.

Lemma putBack_prepend pre argIdx c :
  putBack argIdx (prependParsed pre c) =
    putBack argIdx c ≫= fun c' => Done (prependParsed pre c').
Proof. unfold putBack. simpl. now destruct (argIdx <? idx c). Qed.

Lemma parseOptionWithPossibleParameter_prepend pre name opt argIdx c :
  parseOptionWithPossibleParameter name opt argIdx (prependParsed pre c) =
    parseOptionWithPossibleParameter name opt argIdx c ≫=
      fun c' => Done (prependParsed pre c').
Proof.
  unfold parseOptionWithPossibleParameter.
  change (hasNext (prependParsed pre c)) with (hasNext c).
  change (getNext (prependParsed pre c)) with ((getNext c).1, prependParsed pre (getNext c).2).
  destruct (hasNext c).
  - destruct (getNext c) as [maybeParam c1]. cbn [fst snd].
    unfold push_flag, push_option. rewrite !pushParsed_appendParsed.
    destruct opt as [o|]; [destruct (isFlagTypeOption (def o))|
                           destruct (JsString.startsWith maybeParam "-")].
    all: rewrite ?putBack_prepend; try destruct (putBack argIdx c1) as [c2| |];
      simpl; rewrite ?pushParsed_appendParsed, ?appendParsed_prepend; reflexivity.
  - unfold push_flag. rewrite !pushParsed_appendParsed, appendParsed_prepend. reflexivity.
Qed.

Lemma parseBreakOutArg_prepend pre fuel : forall c,
  parseBreakOutArg fuel (prependParsed pre c) =
    parseBreakOutArg fuel c ≫= fun c' => Done (prependParsed pre c').
Proof.
  induction fuel as [|fuel IH]; intros c; simpl;
    change (hasNext (prependParsed pre c)) with (hasNext c);
    destruct (hasNext c); try reflexivity.
  unfold push_positional. rewrite !pushParsed_appendParsed.
  change (withIdx (prependParsed pre c) (S (idx c)))
    with (prependParsed pre (withIdx c (S (idx c)))).
  rewrite appendParsed_prepend. apply IH.
Qed.

Lemma parseArg_prepend pre fuel arg argIdx c :
  parseArg fuel arg argIdx (prependParsed pre c) =
    parseArg fuel arg argIdx c ≫= fun c' => Done (prependParsed pre c').
Proof.
  unfold parseArg.
  destruct (String.eqb arg "--"); [apply parseBreakOutArg_prepend|].
  unfold parsePositionalArg, push_positional. rewrite !pushParsed_appendParsed.
  destruct (String.eqb arg "-"); [simpl; now rewrite appendParsed_prepend|].
  destruct (JsString.startsWith arg "--").
  { unfold parseLongOptionArg.
    destruct (JsString.split "=" (JsString.substr_from arg 2)) as [name eqOther].
    destruct eqOther.
    - apply parseOptionWithPossibleParameter_prepend.
    - unfold push_option. rewrite !pushParsed_appendParsed. simpl.
      now rewrite appendParsed_prepend. }
  destruct (JsString.startsWith arg "-").
  { unfold parseShortOptionArg.
    destruct (JsString.split "=" (JsString.substr_from arg 1)) as [allNames eqOther].
    rewrite !fold_push_flag, appendParsed_prepend.
    destruct eqOther.
    - apply parseOptionWithPossibleParameter_prepend.
    - unfold push_option. rewrite !pushParsed_appendParsed. simpl.
      now rewrite appendParsed_prepend. }
  change (hasSubCommand (prependParsed pre c) arg) with (hasSubCommand c arg).
  destruct (hasSubCommand c arg); simpl; [|now rewrite appendParsed_prepend].
  destruct c as [[k l s t p] a i].
  unfold parseSubCommand, push_command, pushParsed, prependParsed, withState. simpl.
  now rewrite app_assoc.
Qed.

Lemma parseLoop_prepend pre fuel : forall c,
  parseLoop fuel (prependParsed pre c) =
    parseLoop fuel c ≫= fun c' => Done (prependParsed pre c').
Proof.
  induction fuel as [|fuel IH]; intros c; simpl;
    change (hasNext (prependParsed pre c)) with (hasNext c);
    destruct (hasNext c); try reflexivity.
  unfold parseStep, next, getNext.
  change (withIdx (prependParsed pre c) (S (idx (prependParsed pre c))))
    with (prependParsed pre (withIdx c (S (idx c)))).
  change (nth (idx (prependParsed pre c)) (args (prependParsed pre c)) EmptyString)
    with (nth (idx c) (args c) EmptyString).
  change (idx (prependParsed pre c)) with (idx c).
  rewrite parseArg_prepend.
  destruct (parseArg fuel _ (idx c) (withIdx c (S (idx c)))) as [c1| |]; simpl;
    [apply IH|reflexivity|reflexivity].
Qed.

Lemma createParserContext_args cmd args0 args1 ctx0 :
  createParserContext cmd args0 = Done ctx0 ->
  createParserContext cmd args1 = Done {| state := state ctx0; args := args1; idx := 0 |}.
Proof.
  unfold createParserContext.
  destruct (addKnownCommandToState cmd (emptyState cmd)) as [st| |]; simpl;
    try discriminate.
  now intros [= <-].
Qed.

(* ================================================================== *)
(** * Further properties of the parser *)

(** ** The shape of one classification step *)

Lemma startsWith_dashdash_dash arg :
  JsString.startsWith arg "-" = false -> JsString.startsWith arg "--" = false.
Proof.
  unfold JsString.startsWith. destruct arg as [|a r]; [reflexivity|].
  change (String.prefix "-" (String a r))
    with (if ascii_dec "-" a then String.prefix EmptyString r else false).
  change (String.prefix "--" (String a r))
    with (if ascii_dec "-" a then String.prefix "-" r else false).
  destruct (ascii_dec "-" a); [|reflexivity].
  destruct r; discriminate.
Qed.

Lemma hasNext_lookup ctx : hasNext ctx = true -> exists tok, args ctx !! idx ctx = Some tok.
Proof. intros H. eexists. now apply getNext_in_range. Qed.

Lemma parseStep_eq fuel ctx tok :
  args ctx !! idx ctx = Some tok ->
  parseStep fuel ctx = parseArg fuel tok (idx ctx) (withIdx ctx (S (idx ctx))).
Proof.
  intros H. unfold parseStep, next, getNext. now rewrite (nth_of_lookup _ _ _ H).
Qed.

(** What a step does, case by case: it either descends into a sub-command,
    or appends events none of which is a command event and moves the cursor. *)
Lemma parseArg_shape fuel arg argIdx ctx :
  argIdx <= idx ctx -> idx ctx <= length (args ctx) ->
  length (args ctx) - idx ctx <= fuel ->
  (hasSubCommand ctx arg = true /\ JsString.startsWith arg "-" = false /\
   parseArg fuel arg argIdx ctx = Done (push_command arg ctx)) \/
  (exists evs j,
     parseArg fuel arg argIdx ctx = Done (withIdx (appendParsed evs ctx) j) /\
     idx ctx <= j /\ j <= length (args ctx) /\
     commandNames evs = [] /\
     (forall v, In (PositionalArg v) evs -> v = arg \/ In v (drop (idx ctx) (args ctx))) /\
     (arg <> "--" -> evs <> [] /\ j <= S (idx ctx)) /\
     (arg = "--" -> j = length (args ctx) /\
                    evs = map PositionalArg (drop (idx ctx) (args ctx)))).
Proof.
  intros Hle Hlen Hfuel.
  assert (forall evs, withIdx (appendParsed evs ctx) (idx ctx) = appendParsed evs ctx) as Hsame.
  { intros evs. now destruct ctx as [[k l s t p] a i]. }
  assert (forall name opt flags,
            commandNames flags = [] ->
            (forall v, ~ In (PositionalArg v) flags) ->
            exists evs j,
              parseOptionWithPossibleParameter name opt argIdx (appendParsed flags ctx) =
                Done (withIdx (appendParsed evs ctx) j) /\
              idx ctx <= j /\ j <= length (args ctx) /\ commandNames evs = [] /\
              (forall v, ~ In (PositionalArg v) evs) /\ evs <> [] /\ j <= S (idx ctx)) as Hpopp.
  { intros name opt flags Hc Hp.
    assert (forall ev, commandNames [ev] = [] -> commandNames (flags ++ [ev]) = []) as Hcn.
    { intros ev Hev. clear Hp. induction flags as [|f fl IH]; [exact Hev|].
      destruct f; simpl in *; try discriminate; now apply IH. }
    rewrite parseOptionWithPossibleParameter_eq by exact Hle.
    change (hasNext (appendParsed flags ctx)) with (hasNext ctx).
    assert (exists evs j,
              Done (push_flag name (appendParsed flags ctx)) =
                Done (withIdx (appendParsed evs ctx) j) /\
              idx ctx <= j /\ j <= length (args ctx) /\ commandNames evs = [] /\
              (forall v, ~ In (PositionalArg v) evs) /\ evs <> [] /\ j <= S (idx ctx)) as Hflag.
    { exists (flags ++ [flagArg name]), (idx ctx).
      split.
      { unfold push_flag. rewrite pushParsed_appendParsed, appendParsed_app, Hsame.
        reflexivity. }
      split; [lia|]. split; [lia|]. split; [now apply Hcn|].
      split; [intros v [H|[H|[]]]%in_app_iff; [now apply (Hp v)|discriminate]|].
      split; [now destruct flags|lia]. }
    destruct (hasNext ctx) eqn:Hn; cbn [andb]; [|exact Hflag].
    destruct (consumesParameter opt _); [|exact Hflag].
    exists (flags ++ [OptionArg name (getNext ctx).1]), (S (idx ctx)).
    apply hasNext_true in Hn.
    split.
    { unfold push_option. rewrite pushParsed_appendParsed.
      destruct ctx as [[k l s t p] a i].
      unfold appendParsed, withIdx, withState, getNext. simpl. now rewrite app_assoc. }
    split; [lia|]. split; [lia|]. split; [now apply Hcn|].
    split; [intros v [H|[H|[]]]%in_app_iff; [now apply (Hp v)|discriminate]|].
    split; [now destruct flags|lia]. }
  unfold parseArg.
  destruct (String.eqb_spec arg "--") as [->|Hbo].
  { right. rewrite parseBreakOutArg_spec by assumption.
    exists (map PositionalArg (drop (idx ctx) (args ctx))), (length (args ctx)).
    split; [reflexivity|]. split; [lia|]. split; [lia|]. split.
    { induction (drop (idx ctx) (args ctx)); [reflexivity|assumption]. }
    split.
    { intros v Hv. right. apply in_map_iff in Hv as (x & [= <-] & Hx). exact Hx. }
    split; [contradiction|]. intros _. split; reflexivity. }
  destruct (String.eqb_spec arg "-") as [->|Hd].
  { right. exists [PositionalArg "-"], (idx ctx).
    unfold parsePositionalArg, push_positional. rewrite pushParsed_appendParsed, Hsame.
    split; [reflexivity|]. split; [lia|]. split; [lia|]. split; [reflexivity|].
    split; [intros v [[= <-]|[]]; now left|].
    split; [intros _; split; [discriminate|lia]|discriminate]. }
  destruct (JsString.startsWith arg "--") eqn:Hdd.
  { right. unfold parseLongOptionArg.
    destruct (JsString.split "=" (JsString.substr_from arg 2)) as [name eqOther].
    destruct eqOther as [|e eo].
    - destruct (Hpopp name (getLongOption ctx name) []) as (evs & j & E & ? & ? & ? & Hnp & ? & ?);
        [reflexivity|intros v []|].
      rewrite appendParsed_nil in E.
      exists evs, j.
      split; [exact E|]. split; [lia|]. split; [lia|]. split; [assumption|].
      split; [intros v Hv; now apply Hnp in Hv|].
      split; [intros _; split; assumption|contradiction].
    - exists [OptionArg name (JsString.join "=" (e :: eo))], (idx ctx).
      unfold push_option. rewrite pushParsed_appendParsed, Hsame.
      split; [reflexivity|]. split; [lia|]. split; [lia|]. split; [reflexivity|].
      split; [intros v [H|[]]; discriminate|].
      split; [intros _; split; [discriminate|lia]|contradiction]. }
  destruct (JsString.startsWith arg "-") eqn:Hds.
  { right. unfold parseShortOptionArg.
    destruct (JsString.split "=" (JsString.substr_from arg 1)) as [allNames eqOther].
    rewrite fold_push_flag.
    set (flags := map flagArg _).
    assert (commandNames flags = [] /\ forall v, ~ In (PositionalArg v) flags) as [Hc Hp].
    { unfold flags. induction (JsString.chars _) as [|x xs IH]; [split; [reflexivity|intros v []]|].
      destruct IH as [IH1 IH2]. split; [exact IH1|].
      intros v [H|H]; [discriminate|now apply (IH2 v)]. }
    destruct eqOther as [|e eo].
    - destruct (Hpopp (JsString.substr_from allNames (String.length allNames - 1))
                  (getShortOption (appendParsed flags ctx)
                     (JsString.substr_from allNames (String.length allNames - 1)))
                  flags Hc Hp) as (evs & j & E & ? & ? & ? & Hnp & ? & ?).
      exists evs, j.
      split; [exact E|]. split; [lia|]. split; [lia|]. split; [assumption|].
      split; [intros v Hv; now apply Hnp in Hv|].
      split; [intros _; split; assumption|contradiction].
    - exists (flags ++ [OptionArg (JsString.substr_from allNames (String.length allNames - 1))
                                  (JsString.join "=" (e :: eo))]), (idx ctx).
      unfold push_option. rewrite pushParsed_appendParsed, appendParsed_app, Hsame.
      split; [reflexivity|]. split; [lia|]. split; [lia|]. split.
      { clear Hp. induction flags as [|f fl IH]; [reflexivity|].
        destruct f; simpl in *; try discriminate; now apply IH. }
      split; [intros v [H|[H|[]]]%in_app_iff; [now apply Hp in H|discriminate]|].
      split; [intros _; split; [now destruct flags|lia]|contradiction]. }
  destruct (hasSubCommand ctx arg) eqn:Hsub.
  - left. repeat split; reflexivity.
  - right. exists [PositionalArg arg], (idx ctx).
    unfold parsePositionalArg, push_positional. rewrite pushParsed_appendParsed, Hsame.
    split; [reflexivity|]. split; [lia|]. split; [lia|]. split; [reflexivity|].
    split; [intros v [[= <-]|[]]; now left|].
    split; [intros _; split; [discriminate|lia]|contradiction].
Qed.

Lemma In_drop {A : Type} (n : nat) (l : list A) (x : A) : In x (drop n l) -> In x l.
Proof. intros H. rewrite <- (take_drop n l). apply in_or_app. now right. Qed.

Lemma parseStep_shape fuel ctx tok :
  args ctx !! idx ctx = Some tok ->
  length (args ctx) - S (idx ctx) <= fuel ->
  (hasSubCommand ctx tok = true /\ JsString.startsWith tok "-" = false /\
   parseStep fuel ctx = Done (push_command tok (withIdx ctx (S (idx ctx))))) \/
  (exists evs j,
     parseStep fuel ctx = Done (withIdx (appendParsed evs ctx) j) /\
     S (idx ctx) <= j /\ j <= length (args ctx) /\
     commandNames evs = [] /\
     (forall v, In (PositionalArg v) evs -> In v (args ctx)) /\
     (tok <> "--" -> evs <> [] /\ j <= S (S (idx ctx))) /\
     (tok = "--" -> j = length (args ctx) /\
                    evs = map PositionalArg (drop (S (idx ctx)) (args ctx)))).
Proof.
  intros Hat Hfuel. pose proof (lookup_lt_Some _ _ _ Hat) as Hlt.
  rewrite (parseStep_eq fuel ctx tok Hat).
  destruct (parseArg_shape fuel tok (idx ctx) (withIdx ctx (S (idx ctx))))
    as [(Hs & Hd & E)|(evs & j & E & H1 & H2 & H3 & H4 & H5 & H6)];
    try (simpl; lia).
  - left. repeat split; assumption.
  - right. exists evs, j. split; [exact E|].
    split; [exact H1|]. split; [exact H2|]. split; [exact H3|].
    split; [|split; assumption].
    intros v Hv. destruct (H4 v Hv) as [->|Hin].
    + apply list_elem_of_In. eapply list_elem_of_lookup_2. exact Hat.
    + eapply In_drop. exact Hin.
Qed.

(** A property kept by every step holds at every context the loop reaches. *)
Lemma reaches_invariant (Inv : ParserContext -> Prop) c0 c :
  (forall c1 c2 tok, args c1 !! idx c1 = Some tok ->
     parseStep (length (args c1)) c1 = Done c2 -> Inv c1 -> Inv c2) ->
  reaches c0 c -> Inv c0 -> Inv c.
Proof.
  intros Hstep R H0. induction R as [|c1 c2 R IH Hn E]; [exact H0|].
  destruct (hasNext_lookup c1 Hn) as [tok Hat]. eauto.
Qed.

Lemma parseResults_reached cmd args0 ctx :
  parseResults cmd args0 = Done ctx ->
  exists ctx0, createParserContext cmd args0 = Done ctx0 /\ reaches ctx0 ctx /\
               hasNext ctx = false.
Proof.
  unfold parseResults. intros E. apply bind_inv_Done in E as (ctx0 & E0 & E).
  exists ctx0. split; [assumption|].
  pose proof (createParserContext_Done _ _ _ E0) as (Ha & Hi & _).
  apply (parseLoop_final_reached (length args0)); [lia|rewrite Ha; lia|exact E].
Qed.

(** ** Failures *)

Lemma createParserContext_thrown_args cmd args0 args1 e :
  createParserContext cmd args0 = Thrown e -> createParserContext cmd args1 = Thrown e.
Proof.
  unfold createParserContext.
  destruct (addKnownCommandToState cmd (emptyState cmd)) as [st| |]; simpl;
    [discriminate|now intros [= <-]|discriminate].
Qed.

(** X1.  The only error [parse] can end in is the conflict found while the
    registry is built: it then fails with that error for every token list;
    otherwise it returns events.  In particular the resolver never sets the
    putback guard off. *)
Theorem parse_fails_only_at_build (cmd : Command) (args0 : list string) :
  (exists ctx0 evs, createParserContext cmd args0 = Done ctx0 /\ parse cmd args0 = Done evs) \/
  (exists alias existing new,
     existing <> new /\
     forall args1, parse cmd args1 = Thrown (ConflictingOptionDefinition alias existing new)).
Proof.
  destruct (createParserContext cmd args0) as [ctx0|e|] eqn:E.
  - left. pose proof (createParserContext_Done _ _ _ E) as (Ha & Hi & _).
    destruct (parseLoop_terminates (length args0) ctx0) as (c' & E' & _);
      [lia|rewrite Ha; lia|].
    exists ctx0, (getResults c'). split; [reflexivity|].
    unfold parse, parseResults. now rewrite E, bind_Done, E'.
  - right. destruct (createParserContext_thrown _ _ _ E) as (alias & t1 & t2 & -> & Hne).
    exists alias, t1, t2. split; [exact Hne|].
    intros args1. unfold parse, parseResults.
    now rewrite (createParserContext_thrown_args _ _ args1 _ E).
  - now apply createParserContext_fuel_free in E.
Qed.

(** ** Tokens without a dash *)

Lemma plainToken_classify fuel tok argIdx ctx :
  plainToken tok ->
  parseArg fuel tok argIdx ctx =
    Done (if String.eqb tok "-" then parsePositionalArg tok ctx
          else if hasSubCommand ctx tok then parseSubCommand tok ctx
               else parsePositionalArg tok ctx).
Proof.
  intros Hp. unfold parseArg.
  destruct (String.eqb_spec tok "--") as [->|_]; [destruct Hp; discriminate|].
  destruct (String.eqb_spec tok "-") as [->|Hd]; [reflexivity|].
  destruct Hp as [->|Hp]; [contradiction|].
  rewrite (startsWith_dashdash_dash _ Hp), Hp. now destruct (hasSubCommand ctx tok).
Qed.

Lemma parseLoop_plain toks : forall c fuel,
  drop (idx c) (args c) = toks -> Forall plainToken toks -> length toks <= fuel ->
  exists c', parseLoop fuel c = Done c' /\
             parsed (state c') = parsed (state c) ++ plainEvents (topCommand (state c)) toks.
Proof.
  induction toks as [|tok rest IH]; intros c fuel Hd Hp Hf.
  - exists c. split; [|simpl; now rewrite app_nil_r].
    apply parseLoop_at_end, hasNext_false.
    apply (f_equal (@length string)) in Hd. rewrite length_drop in Hd. simpl in Hd. lia.
  - assert (args c !! idx c = Some tok) as Hat.
    { pose proof (lookup_drop (args c) (idx c) 0) as H.
      rewrite Hd, Nat.add_0_r in H. now symmetry. }
    assert (drop (S (idx c)) (args c) = rest) as Hrest.
    { pose proof (drop_drop (args c) 1 (idx c)) as H.
      rewrite Hd, Nat.add_1_r in H. now symmetry. }
    pose proof (lookup_lt_Some _ _ _ Hat) as Hlt.
    destruct fuel as [|fuel]; [simpl in Hf; lia|].
    rewrite parseLoop_unfold by now apply hasNext_true.
    rewrite (parseStep_eq _ _ _ Hat).
    rewrite plainToken_classify by now inversion Hp.
    rewrite bind_Done.
    match goal with |- context [parseLoop fuel ?c1] =>
      destruct (IH c1 fuel) as (c' & E & Hpar) end.
    + destruct (String.eqb tok "-"); [|destruct (hasSubCommand _ tok)];
        destruct c as [[k l s t p] a i]; exact Hrest.
    + now inversion Hp.
    + simpl in Hf. lia.
    + exists c'. split; [exact E|]. rewrite Hpar. clear E Hpar IH.
      cbn [plainEvents]. unfold hasSubCommand, hasOwnProperty.
      destruct c as [[k l s t p] a i]. cbn [state topCommand withIdx args idx].
      destruct (String.eqb tok "-").
      * simpl. now rewrite <- app_assoc.
      * destruct (getProperty (subCommands t) tok) as [sub|] eqn:Eg; simpl;
          rewrite ?Eg; simpl; now rewrite <- app_assoc.
Qed.

(** X2.  When every token is a lone dash or does not start with a dash,
    the parse result has one event per token, in input order: a command
    event for a token that names a sub-command of the command active at that
    point (which then becomes the active one), a positional event for any
    other token, the lone dash included. *)
Theorem plain_tokens_parse (cmd : Command) (toks : list string) (ctx0 : ParserContext) :
  createParserContext cmd toks = Done ctx0 ->
  Forall plainToken toks ->
  parse cmd toks = Done (plainEvents cmd toks) /\
  length (plainEvents cmd toks) = length toks.
Proof.
  intros E Hp. split.
  - unfold parse, parseResults. rewrite E, bind_Done.
    pose proof (createParserContext_Done _ _ _ E) as (Ha & Hi & Hpar & Ht).
    destruct (parseLoop_plain toks ctx0 (length toks)) as (c' & E' & Hc');
      [now rewrite Hi, Ha|exact Hp|lia|].
    rewrite E', bind_Done. unfold getResults. now rewrite Hc', Hpar, Ht.
  - clear. revert cmd. induction toks as [|tok rest IH]; intros cmd; [reflexivity|].
    simpl. destruct (String.eqb tok "-"); [|destruct (getProperty _ tok)];
      simpl; now rewrite IH.
Qed.

(** The statement of [plain_tokens_parse] at a schema with nested
    sub-commands. *)
Lemma plain_tokens_parse_witness :
  let cmd := mkCommand [] []
               [("remote", mkCommand [] [] [("add", mkCommand [] [] [])]);
                ("add", mkCommand [] [] [])] in
  parse cmd ["remote"; "-"; "add"; "add"; "remote"] =
    Done [CommandArg "remote"; PositionalArg "-"; CommandArg "add";
          PositionalArg "add"; PositionalArg "remote"].
Proof.
  cbv zeta.
  set (cmd := mkCommand [] [] _).
  destruct (createParserContext cmd ["remote"; "-"; "add"; "add"; "remote"])
    as [ctx0| |] eqn:E; [|vm_compute in E; discriminate..].
  rewrite (proj1 (plain_tokens_parse cmd _ ctx0 E
                    ltac:(repeat constructor; (now left) || (now right)))).
  reflexivity.
Defined.

(** ** Long options and the token after them *)

Lemma parseStep_long_decision fuel c name :
  args c !! idx c = Some (String "-" (String "-" name)) ->
  name <> EmptyString -> contains "=" name = false ->
  parseStep fuel c =
    Done (match args c !! S (idx c) with
          | Some v =>
              if consumesParameter (getLongOption c name) v
              then appendParsed [OptionArg name v] (withIdx c (S (S (idx c))))
              else appendParsed [flagArg name] (withIdx c (S (idx c)))
          | None => appendParsed [flagArg name] (withIdx c (S (idx c)))
          end).
Proof.
  intros Hat Hne Heq.
  rewrite (parseStep_long_token fuel c name Hat Hne Heq).
  rewrite parseOptionWithPossibleParameter_eq by (simpl; lia).
  unfold hasNext, getNext. cbn [idx args withIdx fst snd].
  destruct (args c !! S (idx c)) as [v|] eqn:Ev.
  - rewrite (nth_of_lookup _ _ _ Ev).
    apply lookup_lt_Some in Ev. apply Nat.ltb_lt in Ev. rewrite Ev. cbn [andb].
    destruct (consumesParameter _ v); reflexivity.
  - apply lookup_ge_None in Ev. apply Nat.ltb_ge in Ev. now rewrite Ev.
Qed.

(** X3.  A long option that the registry does not know is resolved by the
    look of the next token: at the end of the input, or before a token that
    starts with a dash, it is a flag event and that token is left for the
    next step; before any other token it is an option event that takes the
    token as its value. *)
Theorem unknown_long_option_heuristic (fuel : nat) (c : ParserContext) (name : string) :
  args c !! idx c = Some ("--" +:+ name) ->
  name <> EmptyString -> contains "=" name = false ->
  getLongOption c name = None ->
  (args c !! S (idx c) = None ->
   parseStep fuel c = Done (appendParsed [flagArg name] (withIdx c (S (idx c))))) /\
  (forall v, args c !! S (idx c) = Some v -> JsString.startsWith v "-" = true ->
   parseStep fuel c = Done (appendParsed [flagArg name] (withIdx c (S (idx c))))) /\
  (forall v, args c !! S (idx c) = Some v -> JsString.startsWith v "-" = false ->
   parseStep fuel c = Done (appendParsed [OptionArg name v] (withIdx c (S (S (idx c)))))).
Proof.
  intros Hat Hne Heq Hun.
  rewrite (parseStep_long_decision fuel c name Hat Hne Heq), Hun.
  unfold consumesParameter.
  split; [intros ->; reflexivity|].
  split; intros v -> ->; reflexivity.
Qed.

(** The statement of [unknown_long_option_heuristic] on the tokens
    [--level 3] with an empty schema. *)
Lemma unknown_long_option_heuristic_witness :
  let c := {| state := emptyState (mkCommand [] [] []); args := ["--level"; "3"]; idx := 0 |} in
  parseStep 1 c = Done (appendParsed [OptionArg "level" "3"] (withIdx c 2)).
Proof.
  cbv zeta.
  apply (proj2 (proj2 (unknown_long_option_heuristic 1
           {| state := emptyState (mkCommand [] [] []); args := ["--level"; "3"]; idx := 0 |}
           "level" eq_refl ltac:(discriminate) eq_refl ltac:(vm_compute; reflexivity)))
           "3" eq_refl eq_refl).
Defined.



(** X5.  A long option written with [=] carries its value with it: the
    step emits one option event whose name is the text before the first [=]
    and whose value is everything after it, further [=] signs included, and
    the following token is not touched.  No lookup takes place: the
    definition of the name, if any, plays no part. *)
Theorem long_option_inline_value (fuel : nat) (c : ParserContext) (name v : string) :
  args c !! idx c = Some ("--" +:+ name +:+ "=" +:+ v) ->
  contains "=" name = false ->
  parseStep fuel c = Done (appendParsed [OptionArg name v] (withIdx c (S (idx c)))).
Proof.
  intros Hat Heq. rewrite (parseStep_eq fuel c _ Hat). unfold parseArg.
  change ("--" +:+ name +:+ "=" +:+ v)
    with (String "-" (String "-" (name +:+ String "=" v))).
  assert (exists a r, name +:+ String "=" v = String a r) as (a & r & Hx)
    by (destruct name; simpl; eauto).
  rewrite Hx.
  change (String.eqb (String "-" (String "-" (String a r))) "--") with false.
  change (String.eqb (String "-" (String "-" (String a r))) "-") with false.
  change (JsString.startsWith (String "-" (String "-" (String a r))) "--") with true.
  cbv iota. rewrite <- Hx.
  now rewrite (parseLongOptionArg_value name v _ _ Heq).
Qed.

(** The statement of [long_option_inline_value] on [--define=k=v]. *)
Lemma long_option_inline_value_witness :
  let c := {| state := emptyState (mkCommand [] [] []);
              args := ["--define=k=v"; "next"]; idx := 0 |} in
  parseStep 0 c = Done (appendParsed [OptionArg "define" "k=v"] (withIdx c 1)).
Proof.
  cbv zeta.
  apply (long_option_inline_value 0
           {| state := emptyState (mkCommand [] [] []);
              args := ["--define=k=v"; "next"]; idx := 0 |} "define" "k=v");
    reflexivity.
Defined.

(** ** Sub-command descent *)

Lemma commandNames_app evs1 evs2 :
  commandNames (evs1 ++ evs2) = commandNames evs1 ++ commandNames evs2.
Proof.
  induction evs1 as [|ev evs1 IH]; [reflexivity|].
  destruct ev; simpl; now rewrite IH.
Qed.

Lemma commandNames_In evs n : In (CommandArg n) evs <-> In n (commandNames evs).
Proof.
  induction evs as [|ev evs IH]; [reflexivity|].
  destruct ev as [m| | |]; simpl; rewrite IH.
  - split; intros [H|H]; auto; [injection H as <-|subst]; now left.
  - split; [intros [H|H]; [discriminate|assumption]|now right].
  - split; [intros [H|H]; [discriminate|assumption]|now right].
  - split; [intros [H|H]; [discriminate|assumption]|now right].
Qed.

Lemma descend_snoc top path n :
  descend top (path ++ [n]) =
    default (descend top path) (getProperty (subCommands (descend top path)) n).
Proof. unfold descend. now rewrite fold_left_app. Qed.

Lemma validPath_snoc path : forall top n,
  validPath top (path ++ [n]) <->
  validPath top path /\ hasOwnProperty (subCommands (descend top path)) n = true.
Proof.
  induction path as [|m path IH]; intros top n.
  - simpl. unfold hasOwnProperty, descend. simpl.
    destruct (getProperty (subCommands top) n); intuition discriminate.
  - simpl. unfold descend. simpl.
    destruct (getProperty (subCommands top) m) as [sub|]; simpl.
    + apply IH.
    + tauto.
Qed.

Lemma parsed_push_command tok c i :
  state (push_command tok (withIdx c i)) =
    {| knownOptionNames := knownOptionNames (state c);
       longOptions := longOptions (state c);
       shortOptions := shortOptions (state c);
       topCommand := default (topCommand (state c))
                       (getProperty (subCommands (topCommand (state c))) tok);
       parsed := parsed (state c) ++ [CommandArg tok] |}.
Proof. reflexivity. Qed.

(** X6.  The schema node that is active when parsing ends is the one
    reached from the root by following, in order, the names of the emitted
    command events; and each of those names is a sub-command of the node
    that was active before it. *)
Theorem active_command_follows_events (cmd : Command) (args0 : list string)
    (ctx : ParserContext) :
  parseResults cmd args0 = Done ctx ->
  getTopCommand ctx = descend cmd (commandNames (getResults ctx)) /\
  validPath cmd (commandNames (getResults ctx)).
Proof.
  intros E. destruct (parseResults_reached _ _ _ E) as (ctx0 & E0 & R & _).
  pose proof (createParserContext_Done _ _ _ E0) as (Ha & Hi & Hp & Ht).
  unfold getTopCommand, getResults.
  apply (reaches_invariant
           (fun c => topCommand (state c) = descend cmd (commandNames (parsed (state c))) /\
                     validPath cmd (commandNames (parsed (state c)))) ctx0 ctx);
    [|exact R|rewrite Hp, Ht; split; [reflexivity|exact I]].
  intros c1 c2 tok Hat Es [Ht1 Hv1].
  destruct (parseStep_shape (length (args c1)) c1 tok Hat)
    as [(Hs & _ & E1)|(evs & j & E1 & _ & _ & Hcn & _)]; [lia| |];
    rewrite Es in E1; injection E1 as ->.
  - rewrite parsed_push_command. cbn [topCommand parsed].
    rewrite commandNames_app. cbn [commandNames].
    rewrite descend_snoc, <- Ht1. split; [reflexivity|].
    apply validPath_snoc. rewrite <- Ht1. split; [exact Hv1|exact Hs].
  - destruct c1 as [[k l s t p] a i]. cbn [state withIdx appendParsed withState
      topCommand parsed] in *.
    rewrite commandNames_app, Hcn, app_nil_r. now split.
Qed.

(** The statement of [active_command_follows_events] at concrete tokens. *)
Lemma active_command_follows_events_witness :
  let cmd := mkCommand [] [] [("remote", mkCommand [] [] [("add", mkCommand [] [] [])])] in
  exists ctx,
    parseResults cmd ["remote"; "-v"; "add"; "x"] = Done ctx /\
    getTopCommand ctx = descend cmd (commandNames (getResults ctx)).
Proof.
  cbv zeta. set (cmd := mkCommand [] [] _).
  destruct (parseResults cmd ["remote"; "-v"; "add"; "x"]) as [ctx| |] eqn:E;
    [|vm_compute in E; discriminate..].
  exists ctx. split; [reflexivity|].
  apply (proj1 (active_command_follows_events cmd _ ctx E)).
Defined.

(** ** Where events come from *)

(** X7.  Positional values and command names are tokens of the input,
    verbatim: the parser never invents or edits them. *)
Theorem positionals_and_commands_verbatim (cmd : Command) (args0 : list string)
    (evs : list Arg) :
  parse cmd args0 = Done evs ->
  (forall v, In (PositionalArg v) evs -> In v args0) /\
  (forall n, In (CommandArg n) evs -> In n args0).
Proof.
  unfold parse. intros E. apply bind_inv_Done in E as (ctx & E & [= <-]).
  destruct (parseResults_reached _ _ _ E) as (ctx0 & E0 & R & _).
  pose proof (createParserContext_Done _ _ _ E0) as (Ha & Hi & Hp & Ht).
  unfold getResults.
  apply (reaches_invariant
           (fun c => args c = args0 /\
                     (forall v, In (PositionalArg v) (parsed (state c)) -> In v args0) /\
                     (forall n, In (CommandArg n) (parsed (state c)) -> In n args0))
           ctx0 ctx); [|exact R|rewrite Hp; repeat split; [exact Ha|intros ? []..]].
  intros c1 c2 tok Hat Es (Ha1 & Hpos & Hcmd).
  assert (In tok args0) as Htok.
  { rewrite <- Ha1. apply list_elem_of_In. eapply list_elem_of_lookup_2. exact Hat. }
  destruct (parseStep_shape (length (args c1)) c1 tok Hat)
    as [(Hs & _ & E1)|(evs & j & E1 & _ & _ & Hcn & Hv & _)]; [lia| |];
    rewrite Es in E1; injection E1 as ->.
  - rewrite parsed_push_command. cbn [parsed]. split; [exact Ha1|].
    split; intros v [H|[H|[]]]%in_app_iff; auto; try discriminate.
    injection H as <-. exact Htok.
  - destruct c1 as [[k l s t p] a i]. cbn [state withIdx appendParsed withState
      topCommand parsed args] in *.
    split; [exact Ha1|].
    split; intros v [H|H]%in_app_iff; auto.
    + rewrite <- Ha1. now apply Hv.
    + apply commandNames_In in H. rewrite Hcn in H. destruct H.
Qed.

(** The statement of [positionals_and_commands_verbatim] at concrete
    tokens. *)
Lemma positionals_and_commands_verbatim_witness :
  In "-x" ["a.txt"; "-q"; "--"; "-x"].
Proof.
  apply (proj1 (positionals_and_commands_verbatim (mkCommand [] [] [])
                  ["a.txt"; "-q"; "--"; "-x"]
                  [PositionalArg "a.txt"; FlagArg "q" true; PositionalArg "-x"]
                  ltac:(vm_compute; reflexivity)) "-x").
  right. right. now left.
Defined.

(** ** How far a step reads *)

(** X8.  A step whose token is not [--] emits at least one event and ends
    with the cursor one or two tokens further: it reads at most the one
    token behind its own. *)
Theorem step_reads_at_most_one_ahead (c : ParserContext) (tok : string) :
  args c !! idx c = Some tok -> tok <> "--" ->
  exists c' evs,
    parseStep (length (args c)) c = Done c' /\
    evs <> [] /\ parsed (state c') = parsed (state c) ++ evs /\
    (idx c' = S (idx c) \/ idx c' = S (S (idx c))) /\ idx c' <= length (args c).
Proof.
  intros Hat Hne. pose proof (lookup_lt_Some _ _ _ Hat) as Hlt.
  destruct (parseStep_shape (length (args c)) c tok Hat)
    as [(Hs & _ & E1)|(evs & j & E1 & H1 & H2 & _ & _ & H5 & _)]; [lia| |].
  - eexists. exists [CommandArg tok]. split; [exact E1|].
    split; [discriminate|]. rewrite parsed_push_command.
    split; [reflexivity|]. split; [now left|exact Hlt].
  - destruct (H5 Hne) as [Hevs Hj].
    eexists. exists evs. split; [exact E1|]. split; [exact Hevs|].
    destruct c as [[k l s t p] a i]. cbn [state withIdx appendParsed withState
      parsed idx args] in *.
    split; [reflexivity|]. split; [lia|exact H2].
Qed.

(** The statement of [step_reads_at_most_one_ahead] at [-abc]. *)
Lemma step_reads_at_most_one_ahead_witness :
  let c := {| state := emptyState (mkCommand [] [] []); args := ["-abc"; "x"; "y"]; idx := 0 |} in
  exists c' evs,
    parseStep 3 c = Done c' /\ evs <> [] /\ parsed (state c') = parsed (state c) ++ evs /\
    (idx c' = 1 \/ idx c' = 2) /\ idx c' <= 3.
Proof.
  cbv zeta.
  apply (step_reads_at_most_one_ahead
           {| state := emptyState (mkCommand [] [] []); args := ["-abc"; "x"; "y"]; idx := 0 |}
           "-abc" eq_refl ltac:(discriminate)).
Defined.

(** ** Empty results *)

Lemma parseResults_empty cmd args0 ctx :
  parseResults cmd args0 = Done ctx ->
  getResults ctx = [] <-> args0 = [] \/ args0 = ["--"].
Proof.
  intros E. unfold parseResults in E. apply bind_inv_Done in E as (ctx0 & E0 & E).
  pose proof (createParserContext_Done _ _ _ E0) as (Ha & Hi & Hp & Ht).
  unfold getResults.
  destruct args0 as [|tok rest].
  { rewrite parseLoop_at_end in E by (apply hasNext_false; rewrite Ha, Hi; simpl; lia).
    injection E as <-. rewrite Hp. split; [now left|reflexivity]. }
  assert (args ctx0 !! idx ctx0 = Some tok) as Hat by now rewrite Ha, Hi.
  cbn [length] in E. rewrite parseLoop_unfold in E by (apply hasNext_true; rewrite Ha, Hi; simpl; lia).
  apply bind_inv_Done in E as (c1 & E1 & E).
  assert (exists more, parsed (state ctx) = parsed (state c1) ++ more /\
                       (hasNext c1 = false -> more = [])) as (more & Hmore & Hend).
  { destruct (parseStep_progress (length rest) ctx0) as (c1' & E1' & S1);
      [apply hasNext_true; rewrite Ha, Hi; simpl; lia|rewrite Ha, Hi; simpl; lia|].
    rewrite E1 in E1'. injection E1' as <-.
    assert (args c1 = args ctx0) as Ha1 by apply S1.
    destruct (hasNext c1) eqn:Hn1.
    - destruct (parseLoop_terminates (length rest) c1) as (c' & E' & S');
        [rewrite Ha1; apply S1|rewrite Ha1, Ha; destruct S1 as (_ & ? & _); simpl; lia|].
      rewrite E in E'. injection E' as <-.
      destruct S' as (_ & _ & _ & more & Hm). exists more. split; [exact Hm|discriminate].
    - rewrite parseLoop_at_end in E by exact Hn1. injection E as <-.
      exists []. split; [now rewrite app_nil_r|reflexivity]. }
  destruct (parseStep_shape (length rest) ctx0 tok Hat)
    as [(Hs & Hd & E1')|(evs & j & E1' & H1 & H2 & _ & _ & H5 & H6)];
    [rewrite Ha, Hi; simpl; lia| |]; rewrite E1 in E1'; injection E1' as ->.
  - rewrite Hmore, parsed_push_command. cbn [parsed]. split.
    + intros H. apply app_eq_nil in H as [H _]. apply app_eq_nil in H as [_ H]. discriminate.
    + intros [H|H]; [discriminate|]. injection H as -> ->. discriminate.
  - assert (parsed (state (withIdx (appendParsed evs ctx0) j)) = evs) as Hpe.
    { destruct ctx0 as [[k l s t p] a i]. simpl in *. now rewrite Hp. }
    rewrite Hmore, Hpe. split.
    + intros H. apply app_eq_nil in H as [Hevs _]. right.
      destruct (String.eqb_spec tok "--") as [->|Hne]; [|now destruct (H5 Hne)].
      destruct (H6 eq_refl) as [_ Hmap]. rewrite Hevs, Ha, Hi in Hmap.
      destruct rest; [reflexivity|discriminate].
    + intros [H|H]; [discriminate|]. injection H as -> ->.
      destruct (H6 eq_refl) as [Hj Hmap].
      rewrite Ha, Hi in Hmap. simpl in Hmap. subst evs. simpl.
      apply Hend. apply hasNext_false.
      destruct ctx0 as [[k l s t p] a i]. simpl in *. lia.
Qed.

(** X9.  The parse result is empty only for the empty token list and for
    the token list that consists of [--] alone; any other input yields at
    least one event. *)
Theorem parse_result_empty (cmd : Command) (args0 : list string) (ctx0 : ParserContext) :
  createParserContext cmd args0 = Done ctx0 ->
  parse cmd args0 = Done [] <-> args0 = [] \/ args0 = ["--"].
Proof.
  intros E0. pose proof (createParserContext_Done _ _ _ E0) as (Ha & Hi & _).
  destruct (parseLoop_terminates (length args0) ctx0) as (ctx & E & _);
    [lia|rewrite Ha; lia|].
  assert (parseResults cmd args0 = Done ctx) as Ep
    by (unfold parseResults; now rewrite E0, bind_Done).
  unfold parse. rewrite Ep, bind_Done.
  rewrite <- (parseResults_empty _ _ _ Ep).
  split; [now intros [= ->]|now intros ->].
Qed.

(** The statement of [parse_result_empty] at the lone [--]. *)
Lemma parse_result_empty_witness :
  parse (mkCommand [] [("v", {| type := OptionType.flag; aliases := [] |})] []) ["--"] = Done [].
Proof.
  set (cmd := mkCommand [] [("v", {| type := OptionType.flag; aliases := [] |})] []).
  destruct (createParserContext cmd ["--"]) as [ctx0| |] eqn:E;
    [|vm_compute in E; discriminate..].
  apply (proj2 (parse_result_empty cmd ["--"] ctx0 E)). now right.
Defined.

(** ** The registry, entry by entry *)

Lemma forEach_invariant_In {A S : Type} (body : S -> A -> Outcome S) (Inv : S -> Prop)
    (l : list A) :
  (forall s a s', In a l -> Inv s -> body s a = Done s' -> Inv s') ->
  forall s s', Inv s -> forEach body l s = Done s' -> Inv s'.
Proof.
  induction l as [|a l IH]; intros Hbody s s' Hs E; simpl in E.
  - now injection E as <-.
  - apply bind_inv_Done in E as (s1 & E1 & E2).
    apply (IH (fun s0 a0 s0' Hin => Hbody s0 a0 s0' (or_intror Hin)) s1 s');
      [|exact E2].
    apply (Hbody s a s1); [now left|exact Hs|exact E1].
Qed.

Lemma registerAlias_tables opt namedOpt st alias st' :
  registerAlias opt namedOpt st alias = Done st' ->
  shortOptions st' = (if Nat.eqb (String.length alias) 1
                      then <[alias := namedOpt]> (shortOptions st)
                      else shortOptions st) /\
  longOptions st' = (if Nat.eqb (String.length alias) 1
                     then longOptions st
                     else <[alias := namedOpt]> (longOptions st)).
Proof.
  unfold registerAlias. destruct (Nat.eqb (String.length alias) 1).
  - intros [= <-]. split; reflexivity.
  - destruct (StringTree.get _ alias) as [existing|];
      [destruct (bool_decide _); [discriminate|]|]; intros [= <-]; split; reflexivity.
Qed.

Lemma forEach_registerAlias_short opt namedOpt a l : forall st st',
  String.length a = 1 ->
  forEach (registerAlias opt namedOpt) l st = Done st' ->
  shortOptions st' !! a =
    if existsb (String.eqb a) l then Some namedOpt else shortOptions st !! a.
Proof.
  induction l as [|alias l IH]; intros st st' Hlen E; simpl in E.
  - now injection E as <-.
  - apply bind_inv_Done in E as (st1 & E1 & E2).
    rewrite (IH _ _ Hlen E2). cbn [existsb].
    destruct (registerAlias_tables _ _ _ _ _ E1) as [Hs _].
    destruct (existsb (String.eqb a) l); [now rewrite orb_true_r|].
    rewrite orb_false_r, Hs.
    destruct (String.eqb_spec a alias) as [<-|Hne].
    + rewrite Hlen. cbn [Nat.eqb]. apply lookup_insert_eq.
    + destruct (Nat.eqb (String.length alias) 1); [|reflexivity].
      now rewrite lookup_insert_ne by congruence.
Qed.

Lemma forEach_addKnownOption_short a l : forall st st',
  String.length a = 1 ->
  forEach (fun s (entry : string * CommandOption) =>
             addKnownOptionToState s entry.1 entry.2) l st = Done st' ->
  shortOptions st' !! a =
    match last (List.filter (declaresAlias a) l) with
    | Some entry => Some (namedOption entry)
    | None => shortOptions st !! a
    end.
Proof.
  induction l as [|[n o] l IH]; intros st st' Hlen E; simpl in E.
  - now injection E as <-.
  - apply bind_inv_Done in E as (st1 & E1 & E2).
    rewrite (IH _ _ Hlen E2). cbn [List.filter].
    unfold addKnownOptionToState in E1.
    apply (forEach_registerAlias_short _ _ a _ _ _ Hlen) in E1. cbn [shortOptions] in E1.
    unfold declaresAlias at 2. cbn [fst snd].
    destruct (existsb (String.eqb a) (expandAliases n o)).
    + rewrite last_cons.
      destruct (last (List.filter (declaresAlias a) l)); [reflexivity|exact E1].
    + destruct (last (List.filter (declaresAlias a) l)); [reflexivity|exact E1].
Qed.

Lemma forEach_addKnownOption_short_keys l : forall st st',
  (forall k, is_Some (shortOptions st !! k) -> String.length k = 1) ->
  forEach (fun s (entry : string * CommandOption) =>
             addKnownOptionToState s entry.1 entry.2) l st = Done st' ->
  forall k, is_Some (shortOptions st' !! k) -> String.length k = 1.
Proof.
  intros st st' H0 E.
  set (Inv := fun s : ParserState =>
                forall k, is_Some (shortOptions s !! k) -> String.length k = 1).
  apply (forEach_invariant _ Inv _) with (s := st) (2 := H0) (3 := E).
  intros s [n o] s' Hs. unfold addKnownOptionToState. cbn [fst snd].
  intros E1. apply (forEach_invariant _ Inv _) with (3 := E1); [|exact Hs].
  intros s1 alias s2 Hs1 Er k Hk.
  destruct (registerAlias_tables _ _ _ _ _ Er) as [Hsh _]. rewrite Hsh in Hk.
  destruct (Nat.eqb_spec (String.length alias) 1) as [H1|H1]; [|now apply Hs1].
  destruct (decide (alias = k)) as [<-|Hne]; [exact H1|].
  rewrite lookup_insert_ne in Hk by assumption. now apply Hs1.
Qed.

Lemma forEach_addKnownOption_long_sound (L : list (string * CommandOption)) l : forall st st',
  (forall e, In e l -> In e L) ->
  (forall k n, longOptions st !! k = Some n ->
     In (name n, def n) L /\ In k (expandAliases (name n) (def n)) /\ String.length k <> 1) ->
  forEach (fun s (entry : string * CommandOption) =>
             addKnownOptionToState s entry.1 entry.2) l st = Done st' ->
  forall k n, longOptions st' !! k = Some n ->
    In (name n, def n) L /\ In k (expandAliases (name n) (def n)) /\ String.length k <> 1.
Proof.
  intros st st' Hsub H0 E.
  set (Inv := fun s : ParserState =>
                forall k n, longOptions s !! k = Some n ->
                  In (name n, def n) L /\ In k (expandAliases (name n) (def n)) /\
                  String.length k <> 1).
  apply (forEach_invariant_In _ Inv _) with (s := st) (2 := H0) (3 := E).
  intros s [n o] s' Hin Hs. unfold addKnownOptionToState. cbn [fst snd].
  intros E1. apply (forEach_invariant_In _ Inv _) with (3 := E1); [|exact Hs].
  intros s1 alias s2 Hal Hs1 Er k m Hk.
  destruct (registerAlias_tables _ _ _ _ _ Er) as [_ Hlo]. rewrite Hlo in Hk.
  destruct (Nat.eqb_spec (String.length alias) 1) as [H1|H1]; [now apply Hs1|].
  destruct (decide (alias = k)) as [<-|Hne].
  - rewrite lookup_insert_eq in Hk. injection Hk as <-. cbn [name def].
    split; [now apply Hsub|]. split; assumption.
  - rewrite lookup_insert_ne in Hk by assumption. now apply Hs1.
Qed.

Lemma createParserContext_state cmd args0 ctx0 :
  createParserContext cmd args0 = Done ctx0 ->
  forEach (fun s (entry : string * CommandOption) =>
             addKnownOptionToState s entry.1 entry.2) (allOptions cmd) (emptyState cmd) =
    Done (state ctx0).
Proof.
  unfold createParserContext. rewrite addKnownCommandToState_allOptions.
  intros E. apply bind_inv_Done in E as (st & E & [= <-]). exact E.
Qed.

Lemma emptyState_short_keys cmd :
  forall k, is_Some (shortOptions (emptyState cmd) !! k) -> String.length k = 1.
Proof. intros k [x Hk]. simpl in Hk. now rewrite lookup_empty in Hk. Qed.

Lemma emptyState_long_sound cmd (L : list (string * CommandOption)) :
  forall k n, longOptions (emptyState cmd) !! k = Some n ->
    In (name n, def n) L /\ In k (expandAliases (name n) (def n)) /\ String.length k <> 1.
Proof.
  intros k n Hk. simpl in Hk. unfold StringTree.empty in Hk.
  now rewrite lookup_empty in Hk.
Qed.

Lemma last_filter_In {A : Type} (f : A -> bool) (l : list A) (x : A) :
  last (List.filter f l) = Some x -> In x l /\ f x = true.
Proof.
  intros H. apply last_Some in H as [l' H].
  apply filter_In. rewrite H. apply in_or_app. right. now left.
Qed.

(** X10.  The short-option table after a successful build: a
    one-character alias resolves to the last option, in the order of the
    walk over the command tree, that declares it, whatever the kinds of the
    options that declared it before; any other string resolves to nothing. *)
Theorem short_option_last_declaration_wins (cmd : Command) (args0 : list string)
    (ctx0 : ParserContext) (a : string) :
  createParserContext cmd args0 = Done ctx0 ->
  getShortOption ctx0 a =
    if Nat.eqb (String.length a) 1
    then namedOption <$> last (List.filter (declaresAlias a) (allOptions cmd))
    else None.
Proof.
  intros E. apply createParserContext_state in E. unfold getShortOption.
  destruct (Nat.eqb_spec (String.length a) 1) as [H1|H1].
  - rewrite (forEach_addKnownOption_short a _ _ _ H1 E).
    destruct (last _); reflexivity.
  - destruct (shortOptions (state ctx0) !! a) as [n|] eqn:En; [|reflexivity].
    exfalso. apply H1.
    apply (forEach_addKnownOption_short_keys _ _ _ (emptyState_short_keys cmd) E a). eauto.
Qed.

(** The statement of [short_option_last_declaration_wins] when a
    sub-command declares [f] again. *)
Lemma short_option_last_declaration_wins_witness :
  let force := {| type := OptionType.flag; aliases := ["f"] |} in
  let file := {| type := OptionType.file; aliases := ["f"] |} in
  let cmd := mkCommand [] [("force", force)] [("open", mkCommand [] [("file", file)] [])] in
  exists ctx0,
    createParserContext cmd [] = Done ctx0 /\
    getShortOption ctx0 "f" = Some {| name := "file"; def := file |}.
Proof.
  cbv zeta. set (cmd := mkCommand _ _ _).
  destruct (createParserContext cmd []) as [ctx0| |] eqn:E;
    [|vm_compute in E; discriminate..].
  exists ctx0. split; [reflexivity|].
  rewrite (short_option_last_declaration_wins cmd [] ctx0 "f" E). reflexivity.
Defined.

Lemma getOption_declared cmd args0 ctx0 typed o :
  createParserContext cmd args0 = Done ctx0 ->
  getOption ctx0 typed = Some o -> In (name o, def o) (allOptions cmd).
Proof.
  intros E Ho. pose proof (createParserContext_state _ _ _ E) as Es.
  unfold getOption in Ho.
  destruct (Nat.eqb_spec (String.length typed) 1) as [H1|H1].
  - unfold getShortOption in Ho.
    rewrite (forEach_addKnownOption_short typed _ _ _ H1 Es) in Ho.
    destruct (last _) as [[n opt]|] eqn:El; [|discriminate].
    injection Ho as <-. now apply last_filter_In in El as [Hin _].
  - unfold getLongOption in Ho.
    assert (exists k, longOptions (state ctx0) !! k = Some o) as [k Hk].
    { apply StringTree_get_spec in Ho as [Ho|(_ & k & Hk & _)]; eauto. }
    apply (forEach_addKnownOption_long_sound (allOptions cmd) _ _ _
             (fun e H => H) (emptyState_long_sound cmd _) Es k o Hk).
Qed.

(** X11.  Every entry of the long-option table after a successful build
    comes from a declared option: its key has a length other than one and is
    the primary name, an alias or a negated variant of that option.  Hence
    whatever name is typed, the definition it resolves to, exactly, by
    unique prefix or through the short-option table, is an option declared
    somewhere in the command tree. *)
Theorem registry_entries_are_declared (cmd : Command) (args0 : list string)
    (ctx0 : ParserContext) :
  createParserContext cmd args0 = Done ctx0 ->
  (forall k n, longOptions (state ctx0) !! k = Some n ->
     In (name n, def n) (allOptions cmd) /\
     In k (expandAliases (name n) (def n)) /\ String.length k <> 1) /\
  (forall typed o, getOption ctx0 typed = Some o -> In (name o, def o) (allOptions cmd)).
Proof.
  intros E. split.
  - apply (forEach_addKnownOption_long_sound (allOptions cmd) (allOptions cmd)
             (emptyState cmd)); [auto|apply emptyState_long_sound|].
    now apply createParserContext_state in E.
  - intros typed o. now apply (getOption_declared cmd args0).
Qed.

(** The statement of [registry_entries_are_declared] at the prefix [ver]. *)
Lemma registry_entries_are_declared_witness :
  let verbose := {| type := OptionType.count; aliases := ["v"] |} in
  In ("verbose", verbose) (allOptions (mkCommand [] [("verbose", verbose)] [])).
Proof.
  cbv zeta.
  set (verbose := {| type := OptionType.count; aliases := ["v"] |}).
  set (cmd := mkCommand [] [("verbose", verbose)] []).
  destruct (createParserContext cmd []) as [ctx0| |] eqn:E;
    [|vm_compute in E; discriminate..].
  apply (proj2 (registry_entries_are_declared cmd [] ctx0 E) "ver"
           {| name := "verbose"; def := verbose |}).
  vm_compute in E. injection E as <-. vm_compute. reflexivity.
Defined.

(** ** The set of known option names *)

Lemma setAdd_NoDup s x : NoDup s -> NoDup (setAdd s x).
Proof.
  intros H. unfold setAdd. destruct (bool_decide_reflect (x ∈ s)) as [Hx|Hx]; [exact H|].
  apply NoDup_app. split; [exact H|]. split; [|apply NoDup_singleton].
  intros y Hy Hyx. apply list_elem_of_singleton in Hyx. now subst.
Qed.

Lemma fold_setAdd_NoDup l : forall s, NoDup s -> NoDup (fold_left setAdd l s).
Proof.
  induction l as [|x l IH]; intros s H; [exact H|]. simpl. now apply IH, setAdd_NoDup.
Qed.

Lemma forEach_addKnownOption_names_fold l : forall st st',
  forEach (fun s (entry : string * CommandOption) =>
             addKnownOptionToState s entry.1 entry.2) l st = Done st' ->
  knownOptionNames st' = fold_left setAdd (map fst l) (knownOptionNames st).
Proof.
  induction l as [|[x o] l IH]; intros st st' E; simpl in E.
  - now injection E as <-.
  - apply bind_inv_Done in E as (st1 & E1 & E2).
    rewrite (IH _ _ E2), (addKnownOptionToState_names _ _ _ _ E1). reflexivity.
Qed.

(** X12.  The set of known option names holds every primary name declared
    in the command tree exactly once, in the order of first declaration
    along the walk over the tree; a name declared at several levels is
    listed once. *)
Theorem declared_names_listed_once (cmd : Command) (args0 : list string)
    (ctx0 : ParserContext) :
  createParserContext cmd args0 = Done ctx0 ->
  getAllOptionNames ctx0 = fold_left setAdd (map fst (allOptions cmd)) [] /\
  NoDup (getAllOptionNames ctx0) /\
  forall n, In n (getAllOptionNames ctx0) <-> In n (map fst (allOptions cmd)).
Proof.
  intros E. pose proof (createParserContext_state _ _ _ E) as Es.
  apply forEach_addKnownOption_names_fold in Es. simpl in Es.
  unfold getAllOptionNames. rewrite Es.
  split; [reflexivity|]. split; [apply fold_setAdd_NoDup, NoDup_nil_2|].
  intros n. rewrite <- Es. now apply (createParserContext_names cmd args0).
Qed.

(** The statement of [declared_names_listed_once] when a sub-command
    declares the name of a root option again. *)
Lemma declared_names_listed_once_witness :
  let opt := {| type := OptionType.flag; aliases := [] |} in
  let cmd := mkCommand [] [("v", opt); ("q", opt)]
               [("sub", mkCommand [] [("x", opt); ("v", opt)] [])] in
  exists ctx0, createParserContext cmd [] = Done ctx0 /\
               getAllOptionNames ctx0 = ["v"; "q"; "x"].
Proof.
  cbv zeta. set (cmd := mkCommand _ _ _).
  destruct (createParserContext cmd []) as [ctx0| |] eqn:E;
    [|vm_compute in E; discriminate..].
  exists ctx0. split; [reflexivity|].
  rewrite (proj1 (declared_names_listed_once cmd [] ctx0 E)). vm_compute. reflexivity.
Defined.

(** ** The expected parameter type *)

Lemma parseStep_known_value fuel cmd args0 ctx0 c x opt v :
  createParserContext cmd args0 = Done ctx0 -> reaches ctx0 c ->
  In (x, opt) (allOptions cmd) -> isFlagTypeOption opt = false ->
  1 < String.length x -> contains "=" x = false ->
  args0 !! idx c = Some ("--" +:+ x) -> args0 !! S (idx c) = Some v ->
  parseStep fuel c = Done (appendParsed [OptionArg x v] (withIdx c (S (S (idx c))))) /\
  exists n, getLongOption c x = Some n /\ type (def n) = type opt.
Proof.
  intros E R Hin Hk Hlen Heq Hat Hv.
  destruct (reaches_getLongOption _ _ _ _ x E R) as [Gx Ha].
  destruct (createParserContext_registers _ _ _ x opt x E Hin) as (n & L & T).
  { apply expandAliases_spec. left. now left. }
  { lia. }
  assert (getLongOption c x = Some n) as Hn.
  { rewrite Gx. now apply StringTree_get_exact. }
  assert (isFlagTypeOption (def n) = false) as Hfn
    by now rewrite (isFlagTypeOption_type _ _ T).
  assert (x <> EmptyString) as Hne by (intros ->; simpl in Hlen; lia).
  rewrite <- Ha in Hat, Hv.
  rewrite (parseStep_long_decision _ c x Hat Hne Heq), Hn, Hv.
  unfold consumesParameter. rewrite Hfn. cbn [negb]. eauto.
Qed.

(** X13.  [getExpectedParameterType] answers with a type only when the
    last argument is the empty string, and never with [flag] or [count].
    When the main loop starts a step at the second-to-last token (so that
    token was not taken as the value of the option before it and does not
    come after a [--]), that token is [--name] for an option that takes a
    value, declared under the multi-character name [name] without [=]
    anywhere in the tree, and the last token is the empty string, the answer
    is the type that option is declared with. *)
Theorem expected_parameter_type :
  (forall args0 ctx t,
     getExpectedParameterType args0 ctx = Done (Some t) ->
     last args0 = Some EmptyString /\ t <> OptionType.flag /\ t <> OptionType.count) /\
  (forall cmd prog toks ctx0 c x opt,
     createParserContext cmd toks = Done ctx0 -> reaches ctx0 c ->
     In (x, opt) (allOptions cmd) -> isFlagTypeOption opt = false ->
     1 < String.length x -> contains "=" x = false ->
     toks !! idx c = Some ("--" +:+ x) -> toks !! S (idx c) = Some EmptyString ->
     length toks = S (S (idx c)) ->
     exists ctx, parseResults cmd toks = Done ctx /\
                 getExpectedParameterType (prog :: toks) ctx = Done (Some (type opt))).
Proof.
  split.
  - intros args0 ctx t. unfold getExpectedParameterType.
    destruct (bool_decide_reflect (last args0 = Some EmptyString)) as [Hl|Hl];
      simpl; [|discriminate].
    destruct (last (getResults ctx)) as [[| |typed v|]|]; try discriminate.
    destruct (getOption ctx typed) as [o|]; simpl; [|discriminate].
    unfold isFlagTypeOption.
    destruct (bool_decide_reflect (type (def o) = OptionType.flag)) as [Hf|Hf];
      [discriminate|].
    destruct (bool_decide_reflect (type (def o) = OptionType.count)) as [Hc|Hc];
      [discriminate|].
    simpl. intros [= <-]. auto.
  - intros cmd prog toks ctx0 c x opt E R Hin Hk Hlen Heq Hat Hv Hlast.
    destruct (parseStep_known_value 1 _ _ _ _ _ _ _ E R Hin Hk Hlen Heq Hat Hv)
      as (Es & n & Hn & Tn).
    pose proof (createParserContext_Done _ _ _ E) as (Ha & Hi & _).
    assert (idx ctx0 <= length (args ctx0)) as Hlen0 by lia.
    assert (args c = toks) as Hac by apply (reaches_getLongOption _ _ _ _ x E R).
    set (c' := appendParsed [OptionArg x EmptyString] (withIdx c (S (S (idx c))))) in *.
    exists c'. split.
    + rewrite (parseResults_loop _ _ _ E), (parseLoop_reaches ctx0 c Hlen0 R).
      rewrite Hac, Hlast. replace (S (S (idx c)) - idx c) with 2 by lia.
      rewrite parseLoop_unfold by (apply hasNext_true; rewrite Hac; lia).
      rewrite Es, bind_Done. apply parseLoop_at_end, hasNext_false.
      destruct c as [st a i]. simpl in *. subst a. lia.
    + unfold getExpectedParameterType.
      assert (last (prog :: toks) = Some EmptyString) as Hl.
      { rewrite last_lookup. simpl. rewrite Hlast. exact Hv. }
      destruct (bool_decide_reflect (last (prog :: toks) = Some EmptyString));
        [|contradiction].
      cbn [negb]. assert (getResults c' = parsed (state c) ++ [OptionArg x EmptyString])
        as -> by now destruct c as [[k l s t p] a i].
      rewrite last_snoc.
      assert (getOption c' x = Some n) as ->.
      { unfold getOption. destruct (Nat.eqb_spec (String.length x) 1); [lia|].
        exact Hn. }
      simpl. rewrite (isFlagTypeOption_type _ _ Tn), Hk. now rewrite Tn.
Qed.

(** The statement of [expected_parameter_type] after [prog --out]. *)
Lemma expected_parameter_type_witness :
  let out := {| type := OptionType.file; aliases := [] |} in
  let cmd := mkCommand [] [("out", out)] [] in
  exists ctx, parseResults cmd ["--out"; ""] = Done ctx /\
              getExpectedParameterType ["prog"; "--out"; ""] ctx = Done (Some OptionType.file).
Proof.
  cbv zeta.
  set (out := {| type := OptionType.file; aliases := [] |}).
  set (cmd := mkCommand [] [("out", out)] []).
  destruct (createParserContext cmd ["--out"; ""]) as [ctx0| |] eqn:E;
    [|vm_compute in E; discriminate..].
  pose proof (proj1 (proj2 (createParserContext_Done _ _ _ E))) as Hi.
  apply (proj2 expected_parameter_type cmd "prog" ["--out"; ""] ctx0 ctx0 "out" out
           E (reaches_start ctx0) (or_introl eq_refl) eq_refl ltac:(simpl; lia) eq_refl);
    rewrite Hi; reflexivity.
Defined.

(** ** Completion: what is always offered, and when it fails *)

Lemma getOption_sameRegistry c c' typed :
  sameRegistry c c' -> getOption c' typed = getOption c typed.
Proof.
  intros (_ & Hl & Hs & _). unfold getOption, getShortOption, getLongOption.
  now rewrite Hl, Hs.
Qed.

(** X14.  A primary name all of whose declarations in the command tree
    are plural is among the names that [getOptionsNotUsed] returns after a
    parse, whatever option events were parsed: such an option is never
    consumed and can always be given again. *)
Theorem plural_option_never_consumed (cmd : Command) (toks names : list string)
    (n : string) :
  (ctx ← parseResults cmd toks; getOptionsNotUsed ctx) = Done names ->
  In n (map fst (allOptions cmd)) ->
  (forall o, In (n, o) (allOptions cmd) -> isSingularOpt o = false) ->
  In n names.
Proof.
  intros E Hn Hplural.
  apply bind_inv_Done in E as (ctx & Ep & Eo).
  destruct (parseResults_registry _ _ _ Ep) as (ctx0 & E0 & Hreg).
  apply (getOptionsNotUsed_spec _ _ Eo). split.
  - apply (createParserContext_names _ _ _ n E0) in Hn.
    unfold getAllOptionNames in *. destruct Hreg as (_ & _ & _ & Hk). now rewrite Hk.
  - intros (typed & v & o & _ & Ho & Hs & Hname).
    rewrite (getOption_sameRegistry _ _ typed Hreg) in Ho.
    apply (getOption_declared _ _ _ _ _ E0) in Ho. rewrite Hname in Ho.
    rewrite (Hplural _ Ho) in Hs. discriminate.
Qed.

(** The statement of [plural_option_never_consumed] after the plural option
    was given twice, once by its name and once by its short alias. *)
Lemma plural_option_never_consumed_witness :
  let cmd := mkCommand [] [("tag", {| type := OptionType.strings; aliases := ["t"] |});
                           ("out", {| type := OptionType.file; aliases := [] |})] [] in
  (ctx ← parseResults cmd ["--tag"; "a"; "--out"; "f"; "-t"; "b"]; getOptionsNotUsed ctx)
    = Done ["tag"] /\ In "tag" ["tag"].
Proof.
  cbv zeta. split; [vm_compute; reflexivity|].
  apply (plural_option_never_consumed
           (mkCommand [] [("tag", {| type := OptionType.strings; aliases := ["t"] |});
                          ("out", {| type := OptionType.file; aliases := [] |})] [])
           ["--tag"; "a"; "--out"; "f"; "-t"; "b"] ["tag"] "tag").
  - vm_compute. reflexivity.
  - now left.
  - intros o [[= <-]|[[=]|[]]]. reflexivity.
Defined.

Lemma singularNames_outcome os :
  (exists names, singularNames os = Done names /\ forall o, In o os -> is_Some o) \/
  (singularNames os = Thrown TypeError /\ In None os).
Proof.
  induction os as [|[o|] os IH]; simpl.
  - left. exists []. split; [reflexivity|intros ? []].
  - destruct IH as [(names & -> & Hall)|[-> Hin]].
    + left. eexists. split; [reflexivity|].
      intros o' [<-|H]; [eauto|now apply Hall].
    + right. split; [reflexivity|now right].
  - right. split; [reflexivity|now left].
Qed.

Lemma optionsPassed_iff ctx o :
  In o (map (fun n => if Nat.eqb (String.length n) 1
                      then getShortOption ctx n else getLongOption ctx n)
            (map argName (List.filter isOptionArg (getResults ctx)))) <->
  exists typed v, In (OptionArg typed v) (getResults ctx) /\ getOption ctx typed = o.
Proof.
  rewrite map_map, in_map_iff. split.
  - intros (ev & Hev & Hin). apply filter_In in Hin as [Hin Hopt].
    destruct ev as [| |typed v|]; try discriminate. exists typed, v. auto.
  - intros (typed & v & Hin & Ho). exists (OptionArg typed v). split; [exact Ho|].
    apply filter_In. auto.
Qed.

(** X15.  Once the registry is built, the parse returns and
    [getOptionsNotUsed] on its result either returns or throws a
    [TypeError]; it throws exactly when some option event of the parse
    carries a name that resolves to no definition. *)
Theorem options_not_used_fails_exactly_when (cmd : Command) (toks : list string)
    (ctx0 : ParserContext) :
  createParserContext cmd toks = Done ctx0 ->
  exists ctx,
    parseResults cmd toks = Done ctx /\
    (getOptionsNotUsed ctx = Thrown TypeError \/
     exists names, getOptionsNotUsed ctx = Done names) /\
    (getOptionsNotUsed ctx = Thrown TypeError <->
     exists typed v, In (OptionArg typed v) (getResults ctx) /\ getOption ctx typed = None).
Proof.
  intros E0. pose proof (createParserContext_Done _ _ _ E0) as (Ha & Hi & _).
  destruct (parseLoop_terminates (length toks) ctx0) as (ctx & E & _);
    [lia|rewrite Ha; lia|].
  assert (parseResults cmd toks = Done ctx) as Ep
    by (unfold parseResults; now rewrite E0, bind_Done).
  exists ctx. split; [exact Ep|].
  unfold getOptionsNotUsed.
  pose proof (optionsPassed_iff ctx) as Hos.
  destruct (singularNames_outcome
              (map (fun n => if Nat.eqb (String.length n) 1
                             then getShortOption ctx n else getLongOption ctx n)
                   (map argName (List.filter isOptionArg (getResults ctx)))))
    as [(names & -> & Hall)|[-> Hnone]].
  - rewrite bind_Done. split; [right; eauto|]. split; [discriminate|].
    intros H. apply Hos in H. apply Hall in H as [x Hx]. discriminate.
  - simpl. split; [now left|]. split; [intros _|reflexivity]. now apply Hos.
Qed.

(** The statement of [options_not_used_fails_exactly_when] after an
    undeclared option that took a value. *)
Lemma options_not_used_fails_exactly_when_witness :
  (ctx ← parseResults (mkCommand [] [] []) ["--colour"; "red"]; getOptionsNotUsed ctx)
    = Thrown TypeError.
Proof.
  destruct (createParserContext (mkCommand [] [] []) ["--colour"; "red"]) as [ctx0| |] eqn:E;
    [|vm_compute in E; discriminate..].
  destruct (options_not_used_fails_exactly_when (mkCommand [] [] []) ["--colour"; "red"]
              ctx0 E) as (ctx & Ep & _ & H).
  rewrite Ep, bind_Done. apply H.
  vm_compute in Ep. injection Ep as <-.
  exists "colour", "red". split; [now left|reflexivity].
Defined.

(** X17.  On the result of parsing the tokens after the program name,
    [getExpectedParameterType] either returns or throws a [TypeError]; it
    throws exactly when the last argument is the empty string and either it
    is the only argument, so that nothing was parsed, or the last event is an
    option event whose name resolves to no definition. *)
Theorem expected_parameter_type_fails_exactly_when (cmd : Command) (args0 : list string)
    (ctx : ParserContext) :
  parseResults cmd (drop 1 args0) = Done ctx ->
  (getExpectedParameterType args0 ctx = Thrown TypeError \/
   exists r, getExpectedParameterType args0 ctx = Done r) /\
  (getExpectedParameterType args0 ctx = Thrown TypeError <->
   last args0 = Some EmptyString /\
   (args0 = [EmptyString] \/
    exists typed v, last (getResults ctx) = Some (OptionArg typed v) /\
                    getOption ctx typed = None)).
Proof.
  intros Ep. unfold getExpectedParameterType.
  destruct (bool_decide_reflect (last args0 = Some EmptyString)) as [Hl|Hl]; cbn [negb].
  2:{ split; [right; eauto|]. split; [discriminate|]. now intros [H _]. }
  destruct (last (getResults ctx)) as [ev|] eqn:El.
  - assert (args0 <> [EmptyString]) as Hne.
    { intros ->. rewrite (proj2 (parseResults_empty _ _ _ Ep)) in El; [discriminate|].
      now left. }
    destruct ev as [n|v|typed v|n b].
    1,2,4: split; [right; eauto|]; split; [discriminate|];
      intros [_ [H|(typed' & v' & [=] & _)]]; contradiction.
    destruct (getOption ctx typed) as [o|] eqn:Eo; simpl.
    + assert (exists r, (if isFlagTypeOption (def o) then Done None
                         else Done (Some (type (def o)))) = Done r) as [r Hr]
        by (destruct (isFlagTypeOption (def o)); eauto).
      rewrite Hr. split; [right; eauto|]. split; [discriminate|].
      intros [_ [H|(typed' & v' & [= <- <-] & Hnone)]]; [contradiction|congruence].
    + split; [now left|]. split; [|reflexivity]. intros _. split; [exact Hl|].
      right. eauto.
  - split; [now left|]. split; [intros _|reflexivity]. split; [exact Hl|]. left.
    apply last_None in El. apply (parseResults_empty _ _ _ Ep) in El.
    destruct args0 as [|a [|b rest]]; simpl in *.
    + discriminate.
    + now injection Hl as ->.
    + destruct El as [El|El]; [discriminate|]. injection El as -> ->. discriminate.
Qed.

(** The statement of [expected_parameter_type_fails_exactly_when] after an
    undeclared option that took the trailing empty token as its value. *)
Lemma expected_parameter_type_fails_exactly_when_witness :
  (ctx ← parseResults (mkCommand [] [] []) (drop 1 ["prog"; "--colour"; ""]);
   getExpectedParameterType ["prog"; "--colour"; ""] ctx) = Thrown TypeError.
Proof.
  destruct (parseResults (mkCommand [] [] []) (drop 1 ["prog"; "--colour"; ""]))
    as [ctx| |] eqn:Ep; [|vm_compute in Ep; discriminate..].
  rewrite bind_Done.
  apply (proj2 (expected_parameter_type_fails_exactly_when _ _ ctx Ep)).
  split; [reflexivity|]. right.
  vm_compute in Ep. injection Ep as <-.
  exists "colour", EmptyString. split; reflexivity.
Defined.

(** ** The class of [parser.ts] and the functional draft agree *)

Lemma StringTree_get_fmap {A B : Type} (f : A -> B) (m : gmap string A) (k : string) :
  StringTree.get (f <$> m) k = f <$> StringTree.get m k.
Proof.
  unfold StringTree.get, StringTree.prefix. rewrite lookup_fmap.
  destruct (m !! k) as [v|]; [reflexivity|]. cbn [fmap option_fmap option_map].
  rewrite map_filter_fmap.
  pose proof (map_to_list_fmap f
                (filter (fun '(k0, x) => String.prefix k (k0, f x).1 = true) m)) as Hperm.
  assert (filter (fun '(k0, x) => String.prefix k (k0, f x).1 = true) m =
          filter (fun kv : string * A => String.prefix k kv.1 = true) m) as Hf.
  { apply map_filter_ext. intros i x _. reflexivity. }
  rewrite Hf in Hperm |- *.
  rewrite Hperm.
  now destruct (map_to_list (filter (fun kv : string * A => String.prefix k kv.1 = true) m))
    as [|[k1 v1] [|e2 rest]].
Qed.

Lemma forEach_simulation {A S T : Type} (e : S -> T) (body1 : T -> A -> Outcome T)
    (body2 : S -> A -> Outcome S) (l : list A) :
  (forall s a, body1 (e s) a = body2 s a ≫= fun s' => Done (e s')) ->
  forall s, forEach body1 l (e s) = forEach body2 l s ≫= fun s' => Done (e s').
Proof.
  intros Hbody. induction l as [|a l IH]; intros s; simpl; [reflexivity|].
  rewrite Hbody. destruct (body2 s a) as [s'| |]; simpl; [apply IH|reflexivity..].
Qed.

Lemma registerAlias_erase opt namedOpt st alias :
  def namedOpt = opt ->
  CommandLineParser.registerAlias opt (eraseState st) alias =
    registerAlias opt namedOpt st alias ≫= fun st' => Done (eraseState st').
Proof.
  intros Hd. unfold CommandLineParser.registerAlias, registerAlias.
  destruct (Nat.eqb (String.length alias) 1).
  - simpl. unfold eraseState. simpl. now rewrite fmap_insert, Hd.
  - cbn [CommandLineParser.longOptions eraseState].
    rewrite StringTree_get_fmap.
    destruct (StringTree.get (longOptions st) alias) as [existing|]; simpl.
    + destruct (bool_decide (type (def existing) ≠ type opt)); simpl; [reflexivity|].
      unfold eraseState, StringTree.set. simpl. now rewrite fmap_insert, Hd.
    + unfold eraseState, StringTree.set. simpl. now rewrite fmap_insert, Hd.
Qed.

Lemma addKnownOption_erase st name opt :
  CommandLineParser.addKnownOption (eraseState st) name opt =
    addKnownOptionToState st name opt ≫= fun st' => Done (eraseState st').
Proof.
  unfold CommandLineParser.addKnownOption, addKnownOptionToState.
  match goal with |- context [forEach (registerAlias opt ?n) _ ?s1] =>
    change (eraseState st) with (eraseState s1);
    apply (forEach_simulation eraseState _ (registerAlias opt n))
  end.
  intros s a. now apply registerAlias_erase.
Qed.

Lemma addKnownCommand_allOptions : forall cmd this,
  CommandLineParser.addKnownCommand cmd this =
    forEach (fun th entry => CommandLineParser.addKnownOption th entry.1 entry.2)
            (allOptions cmd) this.
Proof.
  induction cmd as [pos opts subs IH] using Command_ind_nested. intros this.
  simpl. rewrite forEach_app.
  destruct (forEach _ opts this) as [th1| |]; simpl; try reflexivity.
  clear this. revert th1.
  induction IH as [|[k sub] rest Hsub _ IHrest]; intros th1; [reflexivity|].
  simpl in Hsub. rewrite forEach_app, Hsub.
  destruct (forEach _ (allOptions sub) th1) as [th2| |]; simpl; try reflexivity.
  apply IHrest.
Qed.

Lemma new_erase cmd :
  CommandLineParser.new cmd =
    addKnownCommandToState cmd (emptyState cmd) ≫= fun st => Done (eraseState st).
Proof.
  unfold CommandLineParser.new.
  rewrite addKnownCommand_allOptions, addKnownCommandToState_allOptions.
  assert (eraseState (emptyState cmd) =
          {| CommandLineParser.longOptions := StringTree.empty;
             CommandLineParser.shortOptions := ∅;
             CommandLineParser.topCommand := cmd;
             CommandLineParser.parsed := [] |}) as <-.
  { unfold eraseState, emptyState, StringTree.empty. simpl. now rewrite !fmap_empty. }
  apply (forEach_simulation eraseState).
  intros s [n o]. apply addKnownOption_erase.
Qed.

Lemma push_erase ev c :
  CommandLineParser.push ev (eraseContext c) = eraseContext (pushParsed ev c).
Proof. reflexivity. Qed.

Lemma putBack_erase argIdx c :
  CommandLineParser.putBack argIdx (eraseContext c) =
    putBack argIdx c ≫= fun c' => Done (eraseContext c').
Proof.
  unfold CommandLineParser.putBack, putBack. simpl. now destruct (argIdx <? idx c).
Qed.

Lemma parseOptionWithPossibleParameter_erase name opt argIdx c :
  CommandLineParser.parseOptionWithPossibleParameter name (def <$> opt) argIdx
    (eraseContext c) =
    parseOptionWithPossibleParameter name opt argIdx c ≫= fun c' => Done (eraseContext c').
Proof.
  unfold CommandLineParser.parseOptionWithPossibleParameter, parseOptionWithPossibleParameter.
  change (CommandLineParser.hasNext (eraseContext c)) with (hasNext c).
  change (CommandLineParser.getNext (eraseContext c))
    with ((getNext c).1, eraseContext (getNext c).2).
  destruct (hasNext c); [|reflexivity].
  destruct (getNext c) as [maybeParam c1]. cbn [fst snd].
  destruct opt as [o|]; cbn [fmap option_fmap option_map];
    [destruct (isFlagTypeOption (def o))|destruct (JsString.startsWith maybeParam "-")];
    try reflexivity.
  all: rewrite putBack_erase; destruct (putBack argIdx c1) as [c2| |]; reflexivity.
Qed.

Lemma parseBreakOutArg_erase fuel : forall c,
  CommandLineParser.parseBreakOutArg fuel (eraseContext c) =
    parseBreakOutArg fuel c ≫= fun c' => Done (eraseContext c').
Proof.
  induction fuel as [|fuel IH]; intros c; simpl;
    change (CommandLineParser.hasNext (eraseContext c)) with (hasNext c);
    destruct (hasNext c); try reflexivity.
  apply (IH (push_positional (nth (idx c) (args c) EmptyString) (withIdx c (S (idx c))))).
Qed.

Lemma fold_push_flag_erase names : forall c,
  fold_left (fun acc shortOpt => CommandLineParser.push (flagArg shortOpt) acc) names
    (eraseContext c) =
    eraseContext (fold_left (fun c0 shortOpt => push_flag shortOpt c0) names c).
Proof.
  induction names as [|n names IH]; intros c; [reflexivity|]. simpl.
  apply (IH (push_flag n c)).
Qed.

Lemma parseArg_erase fuel arg argIdx c :
  CommandLineParser.parseArg fuel arg argIdx (eraseContext c) =
    parseArg fuel arg argIdx c ≫= fun c' => Done (eraseContext c').
Proof.
  unfold CommandLineParser.parseArg, parseArg.
  destruct (String.eqb arg "--"); [apply parseBreakOutArg_erase|].
  destruct (String.eqb arg "-"); [reflexivity|].
  destruct (JsString.startsWith arg "--").
  { unfold CommandLineParser.parseLongOptionArg, parseLongOptionArg.
    destruct (JsString.split "=" (JsString.substr_from arg 2)) as [name eqOther].
    destruct eqOther; [|reflexivity].
    cbn [CommandLineParser.this eraseContext CommandLineParser.longOptions eraseState].
    rewrite StringTree_get_fmap. apply parseOptionWithPossibleParameter_erase. }
  destruct (JsString.startsWith arg "-").
  { unfold CommandLineParser.parseShortOptionArg, parseShortOptionArg.
    destruct (JsString.split "=" (JsString.substr_from arg 1)) as [allNames eqOther].
    rewrite fold_push_flag_erase.
    destruct eqOther; [|reflexivity].
    cbn [CommandLineParser.this eraseContext CommandLineParser.shortOptions eraseState].
    rewrite lookup_fmap. apply parseOptionWithPossibleParameter_erase. }
  change (hasOwnProperty
            (subCommands (CommandLineParser.topCommand
                            (CommandLineParser.this (eraseContext c)))) arg)
    with (hasSubCommand c arg).
  destruct (hasSubCommand c arg); reflexivity.
Qed.

Lemma parseLoop_erase fuel : forall c,
  CommandLineParser.parseLoop fuel (eraseContext c) =
    parseLoop fuel c ≫= fun c' => Done (eraseContext c').
Proof.
  induction fuel as [|fuel IH]; intros c; simpl; unfold hasNext;
    destruct (idx c <? length (args c)); try reflexivity.
  unfold parseStep, next, getNext.
  change (CommandLineParser.withIdx (eraseContext c) (S (idx c)))
    with (eraseContext (withIdx c (S (idx c)))).
  rewrite parseArg_erase.
  destruct (parseArg fuel _ (idx c) (withIdx c (S (idx c)))) as [c1| |]; simpl;
    [apply IH|reflexivity..].
Qed.

(** X16.  [parseCommandLine], the entry point of the class
    [CommandLineParser], and [parse], the entry point of the functional
    draft, give the same outcome for every schema and token list: the same
    events in the same order, or the same conflict error. *)
Theorem parseCommandLine_agrees_with_parse (cmd : Command) (args0 : list string) :
  parseCommandLine cmd args0 = parse cmd args0.
Proof.
  unfold parseCommandLine, parse, parseResults, createParserContext.
  rewrite new_erase.
  destruct (addKnownCommandToState cmd (emptyState cmd)) as [st| |]; simpl;
    try reflexivity.
  unfold CommandLineParser.parse.
  change {| CommandLineParser.this := eraseState st;
            CommandLineParser.args := args0; CommandLineParser.idx := 0 |}
    with (eraseContext {| state := st; args := args0; idx := 0 |}).
  rewrite parseLoop_erase.
  destruct (parseLoop (length args0) _) as [c'| |]; reflexivity.
Qed.

(** ** Short clusters, from the schema *)

Lemma createParserContext_short cmd args0 ctx0 a :
  createParserContext cmd args0 = Done ctx0 -> String.length a = 1 ->
  getShortOption ctx0 a =
    namedOption <$> last (List.filter (declaresAlias a) (allOptions cmd)).
Proof.
  intros E H1. apply createParserContext_state in E. unfold getShortOption.
  rewrite (forEach_addKnownOption_short a _ _ _ H1 E).
  destruct (last _); [reflexivity|]. simpl. apply lookup_empty.
Qed.

Lemma parseArg_cluster fuel fs l argIdx ctx :
  JsString.startsWith (String "-" (string_of_list_ascii (fs ++ [l]))) "--" = false ->
  parseArg fuel (String "-" (string_of_list_ascii (fs ++ [l]))) argIdx ctx =
    parseShortOptionArg (String "-" (string_of_list_ascii (fs ++ [l]))) argIdx ctx.
Proof.
  intros Hdd. unfold parseArg. rewrite Hdd.
  assert (exists a r, string_of_list_ascii (fs ++ [l]) = String a r) as (a & r & Hs)
    by (destruct fs; simpl; eauto).
  rewrite Hs in *.
  assert (String.eqb (String "-" (String a r)) "--" = false) as ->.
  { apply String.eqb_neq. intros H. rewrite H in Hdd. discriminate. }
  assert (String.eqb (String "-" (String a r)) "-" = false) as ->
    by (apply String.eqb_neq; discriminate).
  reflexivity.
Qed.

Lemma parse_cluster_value cmd fs l X ctx0 entry :
  let tok := String "-" (string_of_list_ascii (fs ++ [l])) in
  createParserContext cmd [tok; X] = Done ctx0 ->
  JsString.startsWith tok "--" = false ->
  contains "=" (string_of_list_ascii (fs ++ [l])) = false ->
  last (List.filter (declaresAlias (String l EmptyString)) (allOptions cmd)) = Some entry ->
  isFlagTypeOption entry.2 = false ->
  parse cmd [tok; X] = Done (map shortFlag fs ++ [OptionArg (String l EmptyString) X]).
Proof.
  intros tok E Hdd Hne Hlast Hk. unfold parse, parseResults. rewrite E, bind_Done.
  pose proof (createParserContext_short _ _ _ (String l EmptyString) E eq_refl) as Hs.
  rewrite Hlast in Hs.
  apply createParserContext_Done in E as (Ha & Hi & Hp & _).
  destruct ctx0 as [[k lo sh t p] a i]. cbn [args idx state parsed] in Ha, Hi, Hp.
  subst a i p.
  change (length [tok; X]) with 2.
  rewrite parseLoop_unfold by reflexivity.
  unfold parseStep, next, getNext. cbn [idx args nth withIdx state].
  rewrite (parseArg_cluster 1 fs l 0 _ Hdd).
  rewrite (parseShortOptionArg_cluster fs l) by exact Hne.
  rewrite parseOptionWithPossibleParameter_eq by (cbn; lia).
  unfold getShortOption in *. cbn [state shortOptions appendParsed withState withIdx] in *.
  rewrite Hs. unfold consumesParameter. cbn [fmap option_fmap option_map namedOption def].
  rewrite Hk. reflexivity.
Qed.

(** C5.  With the flags [a] and [b] and the string option [c] declared,
    the tokens [-abc X] parse to flag(a,true), flag(b,true), option(c,X), in
    that order, for every [X].  For every schema whose registry builds, a
    cluster without [=] whose last character is declared, by the last
    declaration of that character along the walk over the command tree, as
    an option that takes a value, followed by any token [X], parses to one
    flag event with value [true] per earlier character, in order, and the
    option event of the last character with the value [X].  In general, for
    a cluster without [=], every character but the last is emitted as a flag
    event with value [true], in order, and the last character goes through
    the possible-parameter decision with its entry of the short-option
    table; with [=value] the last character becomes an option event carrying
    that value. *)
Theorem bundled_short_options :
  (forall X,
     parse (mkCommand []
              [("a", {| type := OptionType.flag; aliases := [] |});
               ("b", {| type := OptionType.flag; aliases := [] |});
               ("c", {| type := OptionType.string; aliases := [] |})] [])
           ["-abc"; X] =
       Done [FlagArg "a" true; FlagArg "b" true; OptionArg "c" X]) /\
  (forall cmd fs l X ctx0 entry,
     createParserContext cmd [String "-" (string_of_list_ascii (fs ++ [l])); X] = Done ctx0 ->
     JsString.startsWith (String "-" (string_of_list_ascii (fs ++ [l]))) "--" = false ->
     contains "=" (string_of_list_ascii (fs ++ [l])) = false ->
     last (List.filter (declaresAlias (String l EmptyString)) (allOptions cmd)) = Some entry ->
     isFlagTypeOption entry.2 = false ->
     parse cmd [String "-" (string_of_list_ascii (fs ++ [l])); X] =
       Done (map shortFlag fs ++ [OptionArg (String l EmptyString) X])) /\
  (forall fs l argIdx ctx,
     contains "=" (string_of_list_ascii (fs ++ [l])) = false ->
     parseShortOptionArg (String "-" (string_of_list_ascii (fs ++ [l]))) argIdx ctx =
       parseOptionWithPossibleParameter (String l EmptyString)
         (getShortOption ctx (String l EmptyString)) argIdx
         (appendParsed (map shortFlag fs) ctx)) /\
  (forall fs l v argIdx ctx,
     contains "=" (string_of_list_ascii (fs ++ [l])) = false ->
     parseShortOptionArg
       (String "-" (string_of_list_ascii (fs ++ [l]) +:+ String "=" v)) argIdx ctx =
       Done (push_option (String l EmptyString) v (appendParsed (map shortFlag fs) ctx))).
Proof.
  split; [|split; [|split]].
  - intros X.
    set (cmd := mkCommand _ _ _).
    destruct (createParserContext cmd ["-abc"; X]) as [ctx0| |] eqn:E;
      [|vm_compute in E; discriminate..].
    apply (parse_cluster_value cmd ["a"; "b"]%char "c"%char X ctx0
             ("c", {| type := OptionType.string; aliases := [] |}) E);
      reflexivity.
  - intros cmd fs l X ctx0 entry. apply parse_cluster_value.
  - intros. now apply parseShortOptionArg_cluster.
  - intros. now apply parseShortOptionArg_cluster_value.
Qed.

(** The statement of [bundled_short_options] where [c] is an alias declared
    by a sub-command and the token after the cluster starts with a dash, and
    at two clusters on a context whose tables are empty. *)
Lemma bundled_short_options_witness :
  let cmd := mkCommand []
               [("all", {| type := OptionType.flag; aliases := ["a"] |});
                ("c", {| type := OptionType.flag; aliases := [] |})]
               [("run", mkCommand []
                          [("config", {| type := OptionType.string; aliases := ["c"] |})]
                          [])] in
  let ctx := {| state := emptyState cmd; args := ["-xy"; "-vf=out=1"]; idx := 1 |} in
  parse cmd ["-abc"; "-X"] = Done [FlagArg "a" true; FlagArg "b" true; OptionArg "c" "-X"] /\
  parseShortOptionArg "-xy" 0 ctx =
    Done (appendParsed [FlagArg "x" true; FlagArg "y" true] ctx) /\
  parseShortOptionArg "-vf=out=1" 1 ctx =
    Done (appendParsed [FlagArg "v" true; OptionArg "f" "out=1"] ctx).
Proof.
  cbv zeta. split; [|split].
  - set (cmd := mkCommand _ _ _).
    destruct (createParserContext cmd ["-abc"; "-X"]) as [ctx0| |] eqn:E;
      [|vm_compute in E; discriminate..].
    apply (proj1 (proj2 bundled_short_options) cmd ["a"; "b"]%char "c"%char "-X" ctx0
             ("config", {| type := OptionType.string; aliases := ["c"] |}) E);
      reflexivity.
  - rewrite (proj1 (proj2 (proj2 bundled_short_options)) ["x"%char] "y"%char) by reflexivity.
    reflexivity.
  - rewrite (proj2 (proj2 (proj2 bundled_short_options)) ["v"%char] "f"%char "out=1")
      by reflexivity.
    reflexivity.
Defined.

(** ** The candidate words *)




Lemma completionWords_outcome cmd args0 :
  (exists ws, completionWords cmd args0 = Done ws) \/
  completionWords cmd args0 = Thrown TypeError \/
  exists alias existing new,
    completionWords cmd args0 = Thrown (ConflictingOptionDefinition alias existing new).
Proof.
  unfold completionWords.
  destruct (createParserContext cmd (drop 1 args0)) as [ctx0|e|] eqn:E0.
  2:{ right. right. destruct (createParserContext_thrown _ _ _ E0) as (a & t1 & t2 & -> & _).
      exists a, t1, t2. unfold parseResults. now rewrite E0. }
  2:{ now apply createParserContext_fuel_free in E0. }
  pose proof (createParserContext_Done _ _ _ E0) as (Ha & Hi & _).
  destruct (parseLoop_terminates (length (drop 1 args0)) ctx0) as (ctx & E & _);
    [lia|rewrite Ha; lia|].
  assert (parseResults cmd (drop 1 args0) = Done ctx) as ->
    by (unfold parseResults; now rewrite E0, bind_Done).
  rewrite bind_Done. unfold getOptionsNotUsed.
  destruct (singularNames_outcome
              (map (fun n => if Nat.eqb (String.length n) 1
                             then getShortOption ctx n else getLongOption ctx n)
                   (map argName (List.filter isOptionArg (getResults ctx)))))
    as [(names & -> & _)|[-> _]]; [|right; now left].
  rewrite !bind_Done. unfold getExpectedParameterType.
  destruct (negb _); [left; simpl; eauto|].
  destruct (last (getResults ctx)) as [[| |typed v|]|]; simpl; eauto.
  destruct (getOption ctx typed) as [o|]; simpl; [|now eauto].
  destruct (isFlagTypeOption (def o)); simpl; eauto.
Qed.

(** X18.  [getCompletionSuggestions] never returns: for every schema and
    argument list it throws.  The error is the [ReferenceError] of the
    undeclared [lookingForFiles] exactly when the statements before the
    [return] ran through, that is, when the candidate words were assembled;
    otherwise it is the error of the statement that failed. *)
Theorem completion_suggestions_never_returned (cmd : Command) (args0 : list string) :
  (exists e, getCompletionSuggestions cmd args0 = Thrown e) /\
  (getCompletionSuggestions cmd args0 = Thrown ReferenceError <->
   exists ws, completionWords cmd args0 = Done ws) /\
  (forall e, completionWords cmd args0 = Thrown e ->
             getCompletionSuggestions cmd args0 = Thrown e).
Proof.
  unfold getCompletionSuggestions, lookingForFiles.
  destruct (completionWords_outcome cmd args0) as [[ws ->]|[->|(a & t1 & t2 & ->)]]; simpl.
  - split; [eauto|]. split; [split; eauto|discriminate].
  - split; [eauto|]. split; [|now intros e [= <-]].
    split; [discriminate|intros [ws H]; discriminate].
  - split; [eauto|]. split; [|now intros e [= <-]].
    split; [discriminate|intros [ws H]; discriminate].
Qed.

(** The statement of [completion_suggestions_never_returned] where the
    candidate words were assembled. *)
Lemma completion_suggestions_never_returned_witness :
  getCompletionSuggestions
    (mkCommand [] [("foo", {| type := OptionType.string; aliases := [] |})] [])
    ["prog"; "--foo"] = Thrown ReferenceError.
Proof.
  apply (proj1 (proj2 (completion_suggestions_never_returned _ _))).
  exists ["foo"]. vm_compute. reflexivity.
Defined.

(** ** The heap: every effect of a parse stays in the environment it created *)

Lemma Heap_bind_eq {A B : Type} (m : Heap.M A) (k : A -> Heap.M B) (h : Heap.t) :
  (m ≫= k) h =
    match m h with
    | (Done a, h') => k a h'
    | (Thrown e, h') => (Thrown e, h')
    | (OutOfFuel, h') => (OutOfFuel, h')
    end.
Proof. reflexivity. Qed.

Lemma insert_middle (h1 h2 : Heap.t) env x :
  <[length h1 := x]> (h1 ++ env :: h2) = h1 ++ x :: h2.
Proof. induction h1 as [|c h1 IH]; simpl; [reflexivity|now rewrite IH]. Qed.

Lemma read_at {A : Type} h1 env h2 (f : ParserContext -> A) :
  Heap.read (length h1) f (h1 ++ env :: h2) = (Done (f env), h1 ++ env :: h2).
Proof. unfold Heap.read. now rewrite list_lookup_total_middle. Qed.

Lemma update_at h1 env h2 (f : ParserContext -> ParserContext) :
  Heap.update (length h1) f (h1 ++ env :: h2) = (Done tt, h1 ++ f env :: h2).
Proof. unfold Heap.update. now rewrite list_lookup_total_middle, insert_middle. Qed.

Lemma hasNext_at h1 env h2 :
  Heap.hasNext (length h1) (h1 ++ env :: h2) = (Done (hasNext env), h1 ++ env :: h2).
Proof. apply read_at. Qed.

Lemma getNext_at h1 env h2 :
  Heap.getNext (length h1) (h1 ++ env :: h2) =
    (Done (getNext env).1, h1 ++ (getNext env).2 :: h2).
Proof.
  unfold Heap.getNext. rewrite Heap_bind_eq, read_at, Heap_bind_eq, update_at. reflexivity.
Qed.

Lemma pushParsed_at h1 env h2 arg :
  Heap.pushParsed (length h1) arg (h1 ++ env :: h2) =
    (Done tt, h1 ++ pushParsed arg env :: h2).
Proof. apply update_at. Qed.

Lemma push_command_at h1 env h2 name :
  Heap.push_command (length h1) name (h1 ++ env :: h2) =
    (Done tt, h1 ++ push_command name env :: h2).
Proof.
  unfold Heap.push_command. rewrite Heap_bind_eq, pushParsed_at, update_at. reflexivity.
Qed.

Lemma push_positional_at h1 env h2 value :
  Heap.push_positional (length h1) value (h1 ++ env :: h2) =
    (Done tt, h1 ++ push_positional value env :: h2).
Proof. apply pushParsed_at. Qed.

Lemma push_option_at h1 env h2 name value :
  Heap.push_option (length h1) name value (h1 ++ env :: h2) =
    (Done tt, h1 ++ push_option name value env :: h2).
Proof. apply pushParsed_at. Qed.

Lemma push_flag_at h1 env h2 name :
  Heap.push_flag (length h1) name (h1 ++ env :: h2) =
    (Done tt, h1 ++ push_flag name env :: h2).
Proof. apply pushParsed_at. Qed.

Lemma forEach_push_flag_at names : forall h1 env h2,
  Heap.forEach (Heap.push_flag (length h1)) names (h1 ++ env :: h2) =
    (Done tt, h1 ++ fold_left (fun c shortOpt => push_flag shortOpt c) names env :: h2).
Proof.
  induction names as [|n names IH]; intros h1 env h2; [reflexivity|].
  cbn [Heap.forEach fold_left]. now rewrite Heap_bind_eq, push_flag_at, IH.
Qed.

Lemma endsWith_Done h1 h2 env :
  endsWith h1 h2 (Done tt, h1 ++ env :: h2) (Done env).
Proof. reflexivity. Qed.

Lemma putBack_at h1 env h2 argIdx :
  endsWith h1 h2 (Heap.putBack (length h1) argIdx (h1 ++ env :: h2)) (putBack argIdx env).
Proof.
  unfold Heap.putBack, putBack. rewrite Heap_bind_eq, read_at.
  destruct (argIdx <? idx env); [rewrite update_at; reflexivity|].
  exists env. reflexivity.
Qed.

(** Running a computation that agrees with [pure], then a continuation. *)
Lemma endsWith_bind h1 h2 env (m : Heap.M unit) (k : unit -> Heap.M unit)
    (pure : Outcome ParserContext) (next : ParserContext -> Outcome ParserContext) :
  endsWith h1 h2 (m (h1 ++ env :: h2)) pure ->
  (forall env1, endsWith h1 h2 (k tt (h1 ++ env1 :: h2)) (next env1)) ->
  endsWith h1 h2 ((m ≫= k) (h1 ++ env :: h2)) (pure ≫= next).
Proof.
  intros Hm Hk. rewrite Heap_bind_eq. unfold endsWith in Hm.
  destruct pure as [env1|e|].
  - rewrite Hm. apply Hk.
  - destruct Hm as [env' ->]. exists env'. reflexivity.
  - destruct Hm as [env' ->]. exists env'. reflexivity.
Qed.

Lemma parseOptionWithPossibleParameter_at h1 env h2 name opt argIdx :
  endsWith h1 h2
    (Heap.parseOptionWithPossibleParameter name opt (length h1) argIdx (h1 ++ env :: h2))
    (parseOptionWithPossibleParameter name opt argIdx env).
Proof.
  unfold Heap.parseOptionWithPossibleParameter, parseOptionWithPossibleParameter.
  rewrite Heap_bind_eq, hasNext_at.
  destruct (hasNext env); [|rewrite push_flag_at; reflexivity].
  rewrite Heap_bind_eq, getNext_at.
  destruct (getNext env) as [maybeParam env1]. cbn [fst snd].
  destruct opt as [o|];
    [destruct (isFlagTypeOption (def o))|destruct (JsString.startsWith maybeParam "-")];
    try (rewrite push_option_at; reflexivity).
  all: apply (endsWith_bind h1 h2 env1 _ _ _ (fun env2 => Done (push_flag name env2)));
    [apply putBack_at|intros env2; rewrite push_flag_at; reflexivity].
Qed.

Lemma parseBreakOutArg_at fuel : forall h1 env h2,
  endsWith h1 h2 (Heap.parseBreakOutArg fuel (length h1) (h1 ++ env :: h2))
    (parseBreakOutArg fuel env).
Proof.
  induction fuel as [|fuel IH]; intros h1 env h2; cbn [Heap.parseBreakOutArg parseBreakOutArg];
    rewrite Heap_bind_eq, hasNext_at; destruct (hasNext env); try reflexivity.
  - exists env. reflexivity.
  - rewrite Heap_bind_eq, getNext_at. unfold getNext. cbn [fst snd].
    rewrite Heap_bind_eq, push_positional_at. apply IH.
Qed.

Lemma parseArg_at fuel arg argIdx h1 env h2 :
  endsWith h1 h2 (Heap.parseArg fuel arg (length h1) argIdx (h1 ++ env :: h2))
    (parseArg fuel arg argIdx env).
Proof.
  unfold Heap.parseArg, parseArg.
  destruct (String.eqb arg "--"); [apply parseBreakOutArg_at|].
  destruct (String.eqb arg "-").
  { unfold Heap.parsePositionalArg. rewrite push_positional_at. reflexivity. }
  destruct (JsString.startsWith arg "--").
  { unfold Heap.parseLongOptionArg, parseLongOptionArg.
    destruct (JsString.split "=" (JsString.substr_from arg 2)) as [name eqOther].
    destruct eqOther; [|rewrite push_option_at; reflexivity].
    unfold Heap.getLongOption. rewrite Heap_bind_eq, read_at.
    apply parseOptionWithPossibleParameter_at. }
  destruct (JsString.startsWith arg "-").
  { unfold Heap.parseShortOptionArg, parseShortOptionArg.
    destruct (JsString.split "=" (JsString.substr_from arg 1)) as [allNames eqOther].
    rewrite Heap_bind_eq, forEach_push_flag_at.
    destruct eqOther; [|rewrite push_option_at; reflexivity].
    unfold Heap.getShortOption. rewrite Heap_bind_eq, read_at.
    apply parseOptionWithPossibleParameter_at. }
  unfold Heap.hasSubCommand. rewrite Heap_bind_eq, read_at.
  change (hasOwnProperty (subCommands (topCommand (state env))) arg) with (hasSubCommand env arg).
  destruct (hasSubCommand env arg).
  - unfold Heap.parseSubCommand. rewrite push_command_at. reflexivity.
  - unfold Heap.parsePositionalArg. rewrite push_positional_at. reflexivity.
Qed.

Lemma parseLoop_at fuel : forall h1 env h2,
  endsWith h1 h2 (Heap.parseLoop fuel (length h1) (h1 ++ env :: h2)) (parseLoop fuel env).
Proof.
  induction fuel as [|fuel IH]; intros h1 env h2; cbn [Heap.parseLoop parseLoop];
    rewrite Heap_bind_eq, hasNext_at; destruct (hasNext env); try reflexivity.
  - exists env. reflexivity.
  - unfold Heap.next. rewrite Heap_bind_eq, Heap_bind_eq, read_at, Heap_bind_eq, getNext_at.
    cbn [Heap.ret fst snd]. unfold parseStep, next, getNext. cbn [fst snd].
    apply (endsWith_bind h1 h2 _ _ _ _ (parseLoop fuel)); [apply parseArg_at|].
    intros env1. apply IH.
Qed.

Lemma forEach_at {A : Type} h1 h2 (body : A -> Heap.M unit)
    (pbody : ParserContext -> A -> Outcome ParserContext) (l : list A) :
  (forall a env, endsWith h1 h2 (body a (h1 ++ env :: h2)) (pbody env a)) ->
  forall env, endsWith h1 h2 (Heap.forEach body l (h1 ++ env :: h2)) (forEach pbody l env).
Proof.
  intros Hbody. induction l as [|a l IH]; intros env; [reflexivity|].
  cbn [Heap.forEach forEach].
  apply (endsWith_bind h1 h2 env _ _ _ (forEach pbody l)); [apply Hbody|apply IH].
Qed.

Lemma forEach_onState {A : Type} (f : ParserState -> A -> Outcome ParserState) (l : list A) :
  forall env,
    forEach (fun env0 a => st' ← f (state env0) a; Done (withState env0 st')) l env =
      st' ← forEach f l (state env); Done (withState env st').
Proof.
  induction l as [|a l IH]; intros env; simpl.
  - now destruct env.
  - destruct (f (state env) a) as [st1| |]; simpl; [|reflexivity..].
    rewrite IH. reflexivity.
Qed.

Lemma registerAlias_at h1 env h2 opt namedOpt alias :
  endsWith h1 h2 (Heap.registerAlias (length h1) opt namedOpt alias (h1 ++ env :: h2))
    (st' ← registerAlias opt namedOpt (state env) alias; Done (withState env st')).
Proof.
  unfold Heap.registerAlias, registerAlias.
  destruct (Nat.eqb (String.length alias) 1); [rewrite update_at; reflexivity|].
  rewrite Heap_bind_eq, read_at.
  destruct (StringTree.get (longOptions (state env)) alias) as [e|].
  - destruct (bool_decide (type (def e) ≠ type opt)).
    + exists env. reflexivity.
    + rewrite Heap_bind_eq. cbn [Heap.ret]. rewrite update_at. reflexivity.
  - rewrite Heap_bind_eq. cbn [Heap.ret]. rewrite update_at. reflexivity.
Qed.

Lemma addKnownOptionToState_at h1 env h2 name opt :
  endsWith h1 h2 (Heap.addKnownOptionToState (length h1) name opt (h1 ++ env :: h2))
    (st' ← addKnownOptionToState (state env) name opt; Done (withState env st')).
Proof.
  unfold Heap.addKnownOptionToState, addKnownOptionToState.
  rewrite Heap_bind_eq, update_at.
  set (env1 := setKnownOptionNames env (setAdd (knownOptionNames (state env)) name)).
  pose proof (forEach_at h1 h2
                (Heap.registerAlias (length h1) opt {| name := name; def := opt |})
                (fun env0 a => st' ← registerAlias opt {| name := name; def := opt |}
                                      (state env0) a;
                               Done (withState env0 st'))
                (expandAliases name opt)
                (fun a env0 => registerAlias_at h1 env0 h2 opt _ a) env1) as H.
  rewrite forEach_onState in H. exact H.
Qed.

Lemma Heap_forEach_app {A : Type} (body : A -> Heap.M unit) (l1 l2 : list A) : forall h,
  Heap.forEach body (l1 ++ l2) h =
    (Heap.forEach body l1 ≫= fun _ => Heap.forEach body l2) h.
Proof.
  induction l1 as [|a l1 IH]; intros h; [reflexivity|].
  cbn [app Heap.forEach]. rewrite !Heap_bind_eq.
  destruct (body a h) as [[[]| |] h']; [|reflexivity..].
  rewrite IH, Heap_bind_eq. reflexivity.
Qed.

Lemma Heap_addKnownCommandToState_allOptions r : forall cmd h,
  Heap.addKnownCommandToState r cmd h =
    Heap.forEach (fun entry => Heap.addKnownOptionToState r entry.1 entry.2)
                 (allOptions cmd) h.
Proof.
  induction cmd as [pos opts subs IH] using Command_ind_nested. intros h.
  simpl. rewrite Heap_forEach_app, !Heap_bind_eq.
  destruct (Heap.forEach _ opts h) as [[[]| |] h1]; try reflexivity.
  clear h. revert h1.
  induction IH as [|[k sub] rest Hsub _ IHrest]; intros h1; [reflexivity|].
  simpl in Hsub. simpl. rewrite Heap_forEach_app, !Heap_bind_eq, Hsub.
  destruct (Heap.forEach _ (allOptions sub) h1) as [[[]| |] h2]; try reflexivity.
  apply IHrest.
Qed.

Lemma addKnownCommandToState_at h1 env h2 cmd :
  endsWith h1 h2 (Heap.addKnownCommandToState (length h1) cmd (h1 ++ env :: h2))
    (st' ← addKnownCommandToState cmd (state env); Done (withState env st')).
Proof.
  rewrite Heap_addKnownCommandToState_allOptions, addKnownCommandToState_allOptions.
  pose proof (forEach_at h1 h2
                (fun entry : string * CommandOption =>
                   Heap.addKnownOptionToState (length h1) entry.1 entry.2)
                (fun env0 entry => st' ← addKnownOptionToState (state env0) entry.1 entry.2;
                                   Done (withState env0 st'))
                (allOptions cmd)
                (fun entry env0 => addKnownOptionToState_at h1 env0 h2 entry.1 entry.2)
                env) as H.
  rewrite (forEach_onState
             (fun st (entry : string * CommandOption) =>
                addKnownOptionToState st entry.1 entry.2)) in H.
  exact H.
Qed.

Lemma Heap_parse_spec cmd args0 (h : list ParserContext) :
  exists env, Heap.parse cmd args0 h = (parse cmd args0, h ++ [env]).
Proof.
  unfold Heap.parse, Heap.parseResults, Heap.createParserContext.
  rewrite !Heap_bind_eq. unfold Heap.alloc. cbn beta iota. rewrite !Heap_bind_eq.
  set (env0 := {| state := emptyState cmd; args := args0; idx := 0 |}).
  unfold parse, parseResults, createParserContext.
  pose proof (addKnownCommandToState_at h env0 [] cmd) as Hb. unfold endsWith in Hb.
  change (state env0) with (emptyState cmd) in Hb.
  destruct (addKnownCommandToState cmd (emptyState cmd)) as [st| |]; simpl in Hb.
  2,3: destruct Hb as [env' ->]; exists env'; reflexivity.
  rewrite Hb. cbn [Heap.ret]. rewrite !Heap_bind_eq.
  pose proof (parseLoop_at (length args0) h (withState env0 st) []) as Hl.
  unfold endsWith in Hl. rewrite !bind_Done.
  change {| state := st; args := args0; idx := 0 |} with (withState env0 st).
  destruct (parseLoop (length args0) (withState env0 st)) as [env1| |].
  2,3: destruct Hl as [env' ->]; exists env'; reflexivity.
  rewrite Hl. exists env1. cbn [Heap.ret]. unfold Heap.getResults.
  rewrite (read_at h env1 []). reflexivity.
Qed.

(** ** Purity *)

(** C9.  [parse] on a heap: whatever environments earlier invocations left
    behind, an invocation returns the outcome that the schema and the token
    list alone determine, it creates one environment of its own, and it
    leaves every environment that was there before as it found it, also when
    it throws.  Hence two invocations on equal inputs give equal event
    sequences on any two heaps, in particular when the second runs on the
    heap that the first has left; and an invocation is not affected by any
    invocation before it, whatever that one's inputs were. *)
Theorem parse_pure_function (cmd : Command) (args0 : list string) :
  (forall h : list ParserContext,
     exists env, Heap.parse cmd args0 h = (parse cmd args0, h ++ [env])) /\
  (forall h h' : list ParserContext,
     (Heap.parse cmd args0 h).1 = (Heap.parse cmd args0 h').1) /\
  (forall h : list ParserContext,
     let first := Heap.parse cmd args0 h in
     let second := Heap.parse cmd args0 first.2 in
     second.1 = first.1 /\
     length second.2 = S (S (length h)) /\
     forall r env, h !! r = Some env -> first.2 !! r = Some env /\ second.2 !! r = Some env) /\
  (forall cmd' args' (h : list ParserContext),
     (Heap.parse cmd args0 (Heap.parse cmd' args' h).2).1 = parse cmd args0).
Proof.
  split; [apply Heap_parse_spec|].
  split.
  { intros h h'.
    destruct (Heap_parse_spec cmd args0 h) as [env ->].
    destruct (Heap_parse_spec cmd args0 h') as [env' ->]. reflexivity. }
  split.
  { intros h. cbv zeta.
    destruct (Heap_parse_spec cmd args0 h) as [env ->]. cbn [fst snd].
    destruct (Heap_parse_spec cmd args0 (h ++ [env])) as [env' ->]. cbn [fst snd].
    split; [reflexivity|]. split; [rewrite !length_app; simpl; lia|].
    intros r e Hr. pose proof (lookup_lt_Some _ _ _ Hr) as Hlt.
    split; rewrite ?lookup_app_l by (rewrite ?length_app; simpl; lia); exact Hr. }
  intros cmd' args' h.
  destruct (Heap_parse_spec cmd' args' h) as [env ->]. cbn [snd].
  now destruct (Heap_parse_spec cmd args0 (h ++ [env])) as [env' ->].
Qed.

(** The statement of [parse_pure_function] at an invocation that runs on
    the heap left by an invocation that threw and one that returned. *)
Lemma parse_pure_function_witness :
  let num := mkCommand [] [("n", {| type := OptionType.number; aliases := ["num"] |})] [] in
  let bad := mkCommand []
               [("verbose", {| type := OptionType.flag; aliases := ["ver"] |});
                ("version", {| type := OptionType.string; aliases := ["ver"] |})] [] in
  let h := (Heap.parse num ["-n"; "7"] (Heap.parse bad ["x"] []).2).2 in
  length h = 2 /\
  (Heap.parse num ["--num"; "3"; "x"] h).1 = Done [OptionArg "num" "3"; PositionalArg "x"].
Proof.
  cbv zeta. split; [vm_compute; reflexivity|].
  set (num := mkCommand _ _ _). set (bad := mkCommand _ _ _).
  destruct (proj1 (parse_pure_function num ["--num"; "3"; "x"])
              (Heap.parse num ["-n"; "7"] (Heap.parse bad ["x"] []).2).2) as [env ->].
  vm_compute. reflexivity.
Defined.

(** State does persist where the code keeps it: a parser object of
    [parser.ts] that has parsed keeps its events and its active command, and
    a second [parse] on the same object goes on from there.
    [parseCommandLine] never reuses an object. *)
Example parser_object_accumulates :
  let cmd := mkCommand [] [] [("run", mkCommand [] [] [("fast", mkCommand [] [] [])])] in
  (parser ← CommandLineParser.new cmd;
   parser1 ← CommandLineParser.parse parser ["run"];
   parser2 ← CommandLineParser.parse parser1 ["fast"];
   Done (CommandLineParser.parsed parser2)) = Done [CommandArg "run"; CommandArg "fast"] /\
  parseCommandLine cmd ["fast"] = Done [PositionalArg "fast"].
Proof. split; vm_compute; reflexivity. Qed.
